(** * sshmanager: the credential / port registries and the probe utilities

    A shallow embedding of [models/models.py] and [utils.py], and what
    holds of them.

    - [Py]         : the fragment of the Python runtime the code relies on
                     (exception classes, results, text as code points).
    - [Models]     : the entities [Model], [SSH] and [Port] of
                     [models/models.py], as methods over an explicit
                     database state.
    - [Utils]      : [parse_ssh_file], [get_proxy_ip],
                     [get_first_success] and the handlers of
                     [configure_logging] of [utils.py].
    - [UtilsSpec], [ModelsSpec] : the vocabulary of the statements.

    The facts follow the definitions: the pattern matcher and
    [parse_ssh_file], [get_proxy_ip], [get_first_success]; then the rules
    for reasoning about methods, the update hooks, sessions, and the
    operations of the two registries. *)

From Stdlib Require Import ZArith NArith Ascii Lia.
From stdpp Require Import base tactics option list gmap strings pretty.

(* ===================================================================== *)
(** * The Python runtime, as far as the code uses it *)
(* ===================================================================== *)

Module Py.

(** Exception classes.  The code base uses assignment expressions
    ([models.py], [get_ssh_for_port]), so it runs on Python 3.8 or later,
    where [asyncio.CancelledError] derives from [BaseException] and not from
    [Exception]. *)
Inductive exn : Type :=
| TypeError
| ValueError
| RecursionError
| TimeoutError
| ObjectNotFound
| OtherException (name : string)
| CancelledError
| OtherBaseException (name : string).

(** [isinstance(e, Exception)]: what an [except Exception] clause catches. *)
Definition is_Exception (e : exn) : bool :=
  match e with
  | CancelledError | OtherBaseException _ => false
  | _ => true
  end.

(** [isinstance(e, asyncio.CancelledError)]. *)
Definition is_CancelledError (e : exn) : bool :=
  match e with
  | CancelledError => true
  | _ => false
  end.

(** The outcome of a call: a value, or a raised exception. *)
Inductive result (A : Type) : Type :=
| Return (a : A)
| Raise (e : exn).
Global Arguments Return {A} a.
Global Arguments Raise {A} e.

(** A [str] is a sequence of Unicode code points. *)
Definition char := N.
Definition str := list char.

Definition ord (a : ascii) : char := N_of_ascii a.

(** The [str] a literal of ASCII characters denotes. *)
Fixpoint text (s : string) : str :=
  match s with
  | EmptyString => []
  | String a s' => ord a :: text s'
  end.

End Py.
Export Py.

(* ===================================================================== *)
(** * models/models.py *)
(* ===================================================================== *)

Module Models.

(** Primary keys of the ORM, and [datetime] values on a line. *)
Definition Id := positive.
Definition Time := Z.

(** ** Rows *)

(** [class Model(db.Entity)]: the columns every entity inherits. *)
Record Model : Type := mkModel {
  is_checking : bool;
  last_checked : option Time;
  last_modified : Time
}.

(** [class SSH(Model)].  [Optional(str)] columns hold [''] when unset.
    The attribute [port] is the reverse end of [Port.ssh] and [used_ports]
    the reverse end of [Port.used_ssh_list]; neither is a column of this
    row (see [SSH_port] and [used_ports]). *)
Record SSH : Type := mkSSH {
  ssh_base : Model;
  ip : string;
  username : string;
  password : string;
  is_live : bool
}.

(** [class Port(Model)]. *)
Record Port : Type := mkPort {
  port_base : Model;
  port_number : Z;
  auto_connect : bool;
  ssh : option Id;
  is_connected : bool;
  external_ip : string;
  time_connected : option Time;
  proxy_address : string
}.

(** An entity of the session. *)
Inductive entity : Type :=
| EPort (i : Id)
| ESSH (i : Id).

Global Instance entity_eq_dec : EqDecision entity.
Proof. solve_decision. Defined.

(** ** The world the methods run in

    The two tables, the many-to-many table behind
    [Port.used_ssh_list] / [SSH.used_ports] (one shared set of
    (port, ssh) pairs), the entities written in the current session, the
    wall clock ([clock k] is what the [k]-th call of [datetime.now()]
    returns) and the address [utils.get_ipv4_address()] resolves to. *)
Record World : Type := mkWorld {
  SSH_table : gmap Id SSH;
  Port_table : gmap Id Port;
  used : gset (Id * Id);
  dirty : list entity;
  clock : nat -> Time;
  ticks : nat;
  ipv4_address : string
}.

Definition with_SSH_table (t : gmap Id SSH) (w : World) : World :=
  mkWorld t (Port_table w) (used w) (dirty w) (clock w) (ticks w) (ipv4_address w).
Definition with_Port_table (t : gmap Id Port) (w : World) : World :=
  mkWorld (SSH_table w) t (used w) (dirty w) (clock w) (ticks w) (ipv4_address w).
Definition with_used (u : gset (Id * Id)) (w : World) : World :=
  mkWorld (SSH_table w) (Port_table w) u (dirty w) (clock w) (ticks w) (ipv4_address w).
Definition with_dirty (d : list entity) (w : World) : World :=
  mkWorld (SSH_table w) (Port_table w) (used w) d (clock w) (ticks w) (ipv4_address w).
Definition with_ticks (n : nat) (w : World) : World :=
  mkWorld (SSH_table w) (Port_table w) (used w) (dirty w) (clock w) n (ipv4_address w).

(** ** A state and exception monad *)

Definition M (A : Type) : Type := World -> result (A * World).

Global Instance M_ret : MRet M := fun A a w => Return (a, w).
Global Instance M_bind : MBind M := fun A B f m w =>
  match m w with
  | Return (a, w') => f a w'
  | Raise e => Raise e
  end.

Definition raise {A} (e : exn) : M A := fun _ => Raise e.
Definition get_world : M World := fun w => Return (w, w).
Definition modify_world (f : World -> World) : M unit := fun w => Return (tt, f w).

(** [datetime.now()] *)
Definition datetime_now : M Time :=
  fun w => Return (clock w (ticks w), with_ticks (S (ticks w)) w).

(** [utils.get_ipv4_address()] *)
Definition get_ipv4_address : M string :=
  fun w => Return (ipv4_address w, w).

Fixpoint for_each {A} (f : A -> M unit) (l : list A) : M unit :=
  match l with
  | [] => mret tt
  | x :: l' => f x;; for_each f l'
  end.

(** ** Attribute access *)

Definition with_is_checking (b : bool) (m : Model) : Model :=
  mkModel b (last_checked m) (last_modified m).
Definition with_last_checked (t : option Time) (m : Model) : Model :=
  mkModel (is_checking m) t (last_modified m).
Definition with_last_modified (t : Time) (m : Model) : Model :=
  mkModel (is_checking m) (last_checked m) t.

Definition with_ssh_base (m : Model) (s : SSH) : SSH :=
  mkSSH m (ip s) (username s) (password s) (is_live s).
Definition with_ip (v : string) (s : SSH) : SSH :=
  mkSSH (ssh_base s) v (username s) (password s) (is_live s).
Definition with_username (v : string) (s : SSH) : SSH :=
  mkSSH (ssh_base s) (ip s) v (password s) (is_live s).
Definition with_password (v : string) (s : SSH) : SSH :=
  mkSSH (ssh_base s) (ip s) (username s) v (is_live s).
Definition with_is_live (v : bool) (s : SSH) : SSH :=
  mkSSH (ssh_base s) (ip s) (username s) (password s) v.

Definition with_port_base (m : Model) (p : Port) : Port :=
  mkPort m (port_number p) (auto_connect p) (ssh p) (is_connected p)
         (external_ip p) (time_connected p) (proxy_address p).
Definition with_port_number (v : Z) (p : Port) : Port :=
  mkPort (port_base p) v (auto_connect p) (ssh p) (is_connected p)
         (external_ip p) (time_connected p) (proxy_address p).
Definition with_auto_connect (v : bool) (p : Port) : Port :=
  mkPort (port_base p) (port_number p) v (ssh p) (is_connected p)
         (external_ip p) (time_connected p) (proxy_address p).
Definition with_ssh (v : option Id) (p : Port) : Port :=
  mkPort (port_base p) (port_number p) (auto_connect p) v (is_connected p)
         (external_ip p) (time_connected p) (proxy_address p).
Definition with_is_connected (v : bool) (p : Port) : Port :=
  mkPort (port_base p) (port_number p) (auto_connect p) (ssh p) v
         (external_ip p) (time_connected p) (proxy_address p).
Definition with_external_ip (v : string) (p : Port) : Port :=
  mkPort (port_base p) (port_number p) (auto_connect p) (ssh p) (is_connected p)
         v (time_connected p) (proxy_address p).
Definition with_time_connected (v : option Time) (p : Port) : Port :=
  mkPort (port_base p) (port_number p) (auto_connect p) (ssh p) (is_connected p)
         (external_ip p) v (proxy_address p).
Definition with_proxy_address (v : string) (p : Port) : Port :=
  mkPort (port_base p) (port_number p) (auto_connect p) (ssh p) (is_connected p)
         (external_ip p) (time_connected p) v.

(** Reading an entity that is not in its table fails. *)
Definition load_Port (self : Id) : M Port := fun w =>
  match Port_table w !! self with
  | Some p => Return (p, w)
  | None => Raise ObjectNotFound
  end.

Definition load_SSH (self : Id) : M SSH := fun w =>
  match SSH_table w !! self with
  | Some s => Return (s, w)
  | None => Raise ObjectNotFound
  end.

(** Writing a column puts the entity on the session's list of entities to
    save, once, in the order of the first write. *)
Definition marked (e : entity) (w : World) : World :=
  if decide (e ∈ dirty w) then w else with_dirty (dirty w ++ [e]) w.

Definition mark (e : entity) : M unit := modify_world (marked e).

Definition write_Port (self : Id) (f : Port -> Port) : M unit :=
  p ← load_Port self;
  modify_world (fun w => with_Port_table (<[self := f p]> (Port_table w)) w);;
  mark (EPort self).

Definition write_SSH (self : Id) (f : SSH -> SSH) : M unit :=
  s ← load_SSH self;
  modify_world (fun w => with_SSH_table (<[self := f s]> (SSH_table w)) w);;
  mark (ESSH self).

(** *** The many-to-many relation [Port.used_ssh_list] / [SSH.used_ports] *)

Definition history (w : World) (port : Id) : gset Id :=
  set_map snd (filter (fun ps : Id * Id => ps.1 = port) (used w)).

Definition ports_of (w : World) (s : Id) : gset Id :=
  set_map fst (filter (fun ps : Id * Id => ps.2 = s) (used w)).

(** [port.used_ssh_list] *)
Definition used_ssh_list (self : Id) : M (gset Id) :=
  fun w => Return (history w self, w).

(** [ssh.used_ports] *)
Definition used_ports (self : Id) : M (gset Id) :=
  fun w => Return (ports_of w self, w).

(** [port.used_ssh_list.add(ssh)] *)
Definition used_ssh_list_add (self s : Id) : M unit :=
  modify_world (fun w => with_used ({[ (self, s) ]} ∪ used w) w).

(** [ssh.used_ports.add(port)]: the same table, from the other end. *)
Definition used_ports_add (self port : Id) : M unit :=
  modify_world (fun w => with_used ({[ (port, self) ]} ∪ used w) w).

(** [port.used_ssh_list.remove(item)].  The ORM refuses [None] as an item
    with a [ValueError]; removing an entity that is not in the collection
    changes nothing. *)
Definition used_ssh_list_remove (self : Id) (item : option Id) : M unit :=
  match item with
  | None => raise ValueError
  | Some s => modify_world (fun w => with_used (used w ∖ {[ (self, s) ]}) w)
  end.

(** [port.used_ssh_list.clear()] *)
Definition used_ssh_list_clear (self : Id) : M unit :=
  modify_world (fun w =>
    with_used (filter (fun ps : Id * Id => ps.1 ≠ self) (used w)) w).

(** *** The one-to-one relation [Port.ssh] / [SSH.port]

    The column is on the port's row; the credential's end is read back
    from it. *)

(** [ssh.port] *)
Definition holder (w : World) (s : Id) : option Id :=
  fst <$> head (filter (fun kv : Id * Port => ssh kv.2 = Some s)
                       (map_to_list (Port_table w))).

Definition SSH_port (self : Id) : M (option Id) :=
  fun w => Return (holder w self, w).

(** [port.ssh = v].  A credential is held by at most one port: the port
    that held [v] before, if it is another one, loses it. *)
Definition Port_set_ssh (self : Id) (v : option Id) : M unit :=
  previous ← match v with
             | Some s => SSH_port s
             | None => mret None
             end;
  write_Port self (with_ssh v);;
  match previous with
  | Some q => if decide (q = self) then mret tt else write_Port q (with_ssh None)
  | None => mret tt
  end.

(** ** class Model *)

(** [Model.before_update], on the inherited columns of an entity. *)
Definition Model_before_update (m : Model) : M Model :=
  now ← datetime_now;
  let m := with_last_modified now m in
  if is_checking m then
    now' ← datetime_now;
    mret (with_last_checked (Some now') m)
  else mret m.

(** ** The update hooks *)

(** [SSH.before_update] *)
Definition SSH_before_update (self : Id) : M unit :=
  s ← load_SSH self;
  m ← Model_before_update (ssh_base s);
  write_SSH self (with_ssh_base m);;
  (* Update used ports *)
  port ← SSH_port self;
  match port with
  | Some p =>
      ports ← used_ports self;
      if decide (p ∉ ports) then used_ports_add self p else mret tt
  | None => mret tt
  end.

(** [Port.before_update], in the three parts the source marks out. *)

(* Update time connected *)
Definition Port_update_time_connected (self : Id) : M unit :=
  p ← load_Port self;
  if is_connected p then
    match time_connected p with
    | Some t => write_Port self (with_time_connected (Some t))
    | None => now ← datetime_now;
              write_Port self (with_time_connected (Some now))
    end
  else write_Port self (with_time_connected None).

(* Update used SSH *)
Definition Port_update_used_ssh (self : Id) : M unit :=
  p ← load_Port self;
  if is_connected p then
    match ssh p with
    | Some s =>
        l ← used_ssh_list self;
        if decide (s ∉ l) then used_ssh_list_add self s else mret tt
    | None => mret tt
    end
  else mret tt.

Definition Port_update_proxy_address (self : Id) : M unit :=
  address ← get_ipv4_address;
  p ← load_Port self;
  write_Port self
    (with_proxy_address ("socks5://" +:+ address +:+ ":" +:+ pretty (port_number p))).

Definition Port_before_update (self : Id) : M unit :=
  p ← load_Port self;
  m ← Model_before_update (port_base p);
  write_Port self (with_port_base m);;
  Port_update_time_connected self;;
  Port_update_used_ssh self;;
  Port_update_proxy_address self.

Definition before_update (e : entity) : M unit :=
  match e with
  | EPort i => Port_before_update i
  | ESSH i => SSH_before_update i
  end.

(** ** Sessions *)

Definition renew (e : entity) : M unit :=
  match e with
  | EPort i => load_Port i;; mret tt
  | ESSH i => load_SSH i;; mret tt
  end.

(** The end of a session: every entity written in it gets its
    [before_update] hook, in the order of the first write. *)
Definition commit : M unit :=
  w ← get_world;
  modify_world (with_dirty []);;
  for_each before_update (dirty w);;
  modify_world (with_dirty []).

(** Modelled from the spec: the decorator [auto_renew_objects] of
    [models/common.py], which is not among the sources.  Following the
    spec's "any mutation workflow must first re-read the entity's current
    state before writing" and its "update hook", the decorated method runs
    in one database session, which starts with nothing to save: the
    entities passed to it are read again
    (which fails for one that is gone), the body runs, and the session's
    end saves what was written, calling the hooks.  An exception leaves
    the world as it was.  A decorated method called from a decorated
    method runs in the caller's session. *)
Definition auto_renew_objects {A} (objs : list entity) (body : M A) : M A :=
  modify_world (with_dirty []);;
  for_each renew objs;;
  r ← body;
  commit;;
  mret r.

(** ** Keyword arguments of [obj.set] *)

Inductive PortKw : Type :=
| kw_port_is_checking (v : bool)
| kw_port_last_checked (v : option Time)
| kw_port_last_modified (v : Time)
| kw_port_number (v : Z)
| kw_auto_connect (v : bool)
| kw_ssh (v : option Id)
| kw_is_connected (v : bool)
| kw_external_ip (v : string)
| kw_time_connected (v : option Time)
| kw_proxy_address (v : string).

Inductive SSHKw : Type :=
| kw_ssh_is_checking (v : bool)
| kw_ssh_last_checked (v : option Time)
| kw_ssh_last_modified (v : Time)
| kw_ip (v : string)
| kw_username (v : string)
| kw_password (v : string)
| kw_is_live (v : bool).

Definition Port_set_base (self : Id) (f : Model -> Model) : M unit :=
  write_Port self (fun p => with_port_base (f (port_base p)) p).

Definition SSH_set_base (self : Id) (f : Model -> Model) : M unit :=
  write_SSH self (fun s => with_ssh_base (f (ssh_base s)) s).

Definition Port_setattr (self : Id) (kw : PortKw) : M unit :=
  match kw with
  | kw_port_is_checking v => Port_set_base self (with_is_checking v)
  | kw_port_last_checked v => Port_set_base self (with_last_checked v)
  | kw_port_last_modified v => Port_set_base self (with_last_modified v)
  | kw_port_number v => write_Port self (with_port_number v)
  | kw_auto_connect v => write_Port self (with_auto_connect v)
  | kw_ssh v => Port_set_ssh self v
  | kw_is_connected v => write_Port self (with_is_connected v)
  | kw_external_ip v => write_Port self (with_external_ip v)
  | kw_time_connected v => write_Port self (with_time_connected v)
  | kw_proxy_address v => write_Port self (with_proxy_address v)
  end.

Definition SSH_setattr (self : Id) (kw : SSHKw) : M unit :=
  match kw with
  | kw_ssh_is_checking v => SSH_set_base self (with_is_checking v)
  | kw_ssh_last_checked v => SSH_set_base self (with_last_checked v)
  | kw_ssh_last_modified v => SSH_set_base self (with_last_modified v)
  | kw_ip v => write_SSH self (with_ip v)
  | kw_username v => write_SSH self (with_username v)
  | kw_password v => write_SSH self (with_password v)
  | kw_is_live v => write_SSH self (with_is_live v)
  end.

(** [obj.set], on a dictionary of keyword arguments, in its order *)
Definition Port_set (self : Id) (kwargs : list PortKw) : M unit :=
  for_each (Port_setattr self) kwargs.

Definition SSH_set (self : Id) (kwargs : list SSHKw) : M unit :=
  for_each (SSH_setattr self) kwargs.

(** ** Methods of [Model], at the two entity classes *)

(** [Model.begin_checking(obj)] *)
Definition Port_begin_checking (obj : Id) : M unit :=
  auto_renew_objects [EPort obj]
    (Port_set_base obj (with_is_checking true)).

Definition SSH_begin_checking (obj : Id) : M unit :=
  auto_renew_objects [ESSH obj]
    (SSH_set_base obj (with_is_checking true)).

(** [Model.end_checking(obj, ...)], with its keyword arguments *)
Definition Port_end_checking (obj : Id) (kwargs : list PortKw) : M unit :=
  auto_renew_objects [EPort obj]
    (Port_set obj kwargs;;
     Port_set_base obj (with_is_checking false)).

Definition SSH_end_checking (obj : Id) (kwargs : list SSHKw) : M unit :=
  auto_renew_objects [ESSH obj]
    (SSH_set obj kwargs;;
     SSH_set_base obj (with_is_checking false)).

(** [Model.reset_status(self)], as [SSH] inherits it. *)
Definition SSH_reset_status (self : Id) : M unit :=
  auto_renew_objects [ESSH self]
    (SSH_set_base self (with_is_checking false);;
     SSH_set_base self (with_last_checked None)).

(** ** class SSH *)

(** [query.random(n)]: [n] rows in an order the database picks.  The
    pick is an oracle [choice]; every row can come first. *)
Definition random {A} (choice : nat) (n : nat) (rows : list A) : list A :=
  take n (rotate choice rows).

(** [SSH.get_ssh_for_port(port, unique=True)] *)
Definition get_ssh_for_port (port : Id) (unique : bool) (choice : nat)
  : M (option Id) :=
  auto_renew_objects [EPort port]
    (w ← get_world;
     let query :=
       filter (fun kv : Id * SSH => is_live kv.2 = true)
              (map_to_list (SSH_table w)) in
     l ← used_ssh_list port;
     let query :=
       if unique
       then filter (fun kv : Id * SSH => kv.1 ∉ l) query
       else query in
     match random choice 1 query with
     | result :: _ => mret (Some result.1)
     | [] => mret None
     end).

(** ** class Port *)

(** [Port.need_reset(self, time_expired)].  [and] does not evaluate its
    second operand when the first is false; [None < datetime] is a
    [TypeError]. *)
Definition need_reset (self : Id) (time_expired : Time) : M bool :=
  auto_renew_objects [EPort self]
    (p ← load_Port self;
     match ssh p with
     | None => mret false
     | Some _ =>
         match time_connected p with
         | None => raise TypeError
         | Some t => mret (bool_decide (t < time_expired)%Z)
         end
     end).

(** [Port.need_ssh] *)
Definition need_ssh (self : Id) : M bool :=
  auto_renew_objects [EPort self]
    (p ← load_Port self;
     mret (bool_decide (ssh p = None))).

Definition assign_ssh_body (self : Id) (s : option Id) : M unit :=
  Port_set_ssh self s;;
  write_Port self (with_is_connected false).

(** [Port.assign_ssh(self, ssh)] *)
Definition assign_ssh (self : Id) (s : option Id) : M unit :=
  auto_renew_objects
    (EPort self :: match s with Some i => [ESSH i] | None => [] end)
    (assign_ssh_body self s).

(** [Port.disconnect_ssh(self, remove_from_used=False)] *)
Definition disconnect_ssh (self : Id) (remove_from_used : bool) : M unit :=
  auto_renew_objects [EPort self]
    ((if remove_from_used then
        p ← load_Port self;
        used_ssh_list_remove self (ssh p)
      else mret tt);;
     assign_ssh_body self None).

(** [Port.reset_status(self)]; the first two writes are those of
    [Model.reset_status], which it calls first. *)
Definition reset_status (self : Id) : M unit :=
  auto_renew_objects [EPort self]
    (Port_set_base self (with_is_checking false);;
     Port_set_base self (with_last_checked None);;
     write_Port self (with_external_ip "");;
     Port_set_ssh self None;;
     write_Port self (with_is_connected false);;
     used_ssh_list_clear self).

End Models.

(* ===================================================================== *)
(** * utils.py *)
(* ===================================================================== *)

Module Utils.

(** ** A backtracking matcher for the fragment of [re] the code uses *)

Inductive class_item : Type :=
| Chr (c : char)
| Rng (lo hi : char).

(** Patterns.  [Set_ false items] is [[...]], [Set_ true items] is [[^...]];
    [Repeat min max r] is the greedy [r{min,max}] and [Star r] the greedy
    [r*]; [Group i r] is the [i]-th capturing group.  A non-capturing
    group [(?:r)] is just [r]. *)
Inductive regex : Type :=
| Lit (c : char)
| Set_ (negate : bool) (items : list class_item)
| Cat (r1 r2 : regex)
| Repeat (min max : nat) (r : regex)
| Star (r : regex)
| Group (i : nat) (r : regex).

Definition item_has (c : char) (it : class_item) : bool :=
  match it with
  | Chr c' => (c =? c')%N
  | Rng lo hi => (lo <=? c)%N && (c <=? hi)%N
  end.

Definition in_set (negate : bool) (items : list class_item) (c : char) : bool :=
  xorb negate (existsb (item_has c) items).

(** The groups captured so far, the latest capture of a group first. *)
Definition captures := list (nat * str).

Definition group (caps : captures) (i : nat) : option str :=
  snd <$> head (filter (fun g : nat * str => g.1 = i) caps).

Section greedy.
Variable step : str -> captures -> list (str * captures).

(** Greedy repetition: one more round first, stopping here last. *)
Fixpoint greedy (min max : nat) (s : str) (caps : captures)
  : list (str * captures) :=
  match max with
  | 0 => if min is 0 then [(s, caps)] else []
  | S max' =>
      (step s caps ≫= fun sc => greedy (pred min) max' sc.1 sc.2)
      ++ (if min is 0 then [(s, caps)] else [])
  end.
End greedy.

(** [run r s caps]: every way [r] matches a prefix of [s], as the rest of
    the input and the groups, in the order the backtracking matcher tries
    them.  A starred pattern here is a character set, which consumes one
    character per round, so [length s] rounds bound it. *)
Fixpoint run (r : regex) (s : str) (caps : captures) : list (str * captures) :=
  match r with
  | Lit c =>
      match s with
      | c' :: s' => if (c' =? c)%N then [(s', caps)] else []
      | [] => []
      end
  | Set_ negate items =>
      match s with
      | c' :: s' => if in_set negate items c' then [(s', caps)] else []
      | [] => []
      end
  | Cat r1 r2 => run r1 s caps ≫= fun sc => run r2 sc.1 sc.2
  | Repeat min max r' => greedy (run r') min max s caps
  | Star r' => greedy (run r') 0 (length s) s caps
  | Group i r' =>
      (fun sc : str * captures =>
         (sc.1, (i, take (length s - length sc.1) s) :: sc.2))
        <$> run r' s caps
  end.

(** [re.search(pattern, line)]: the first match at the leftmost position
    that has one. *)
Fixpoint re_search (r : regex) (s : str) : option captures :=
  match run r s [] with
  | sc :: _ => Some sc.2
  | [] =>
      match s with
      | [] => None
      | _ :: s' => re_search r s'
      end
  end.

(** ** parse_ssh_file *)

(** The code points of [0], [9], [.], [;], [,] and [|] are 48, 57, 46, 59,
    44 and 124. *)
Definition digit : regex := Set_ false [Rng 48 57]%N.
Definition delimiter : regex := Set_ false [Chr 59; Chr 44; Chr 124]%N.
Definition field : regex := Star (Set_ true [Chr 59; Chr 44; Chr 124]%N).

(** The pattern of [parse_ssh_file], group by group:
    group 1 is [(?:[0-9]{1,3}\.){3}[0-9]{1,3}], then [[;,|]], then group 2,
    any number of [[^;,|]], then [[;,|]], then group 3, any number of
    [[^;,|]]. *)
Definition pattern : regex :=
  Cat (Group 1 (Cat (Repeat 3 3 (Cat (Repeat 1 3 digit) (Lit 46%N)))
                    (Repeat 1 3 digit)))
      (Cat delimiter
           (Cat (Group 2 field)
                (Cat delimiter (Group 3 field)))).

(** [str.splitlines()]: the line boundaries are LF, CR, CR LF, VT, FF, FS,
    GS, RS, NEL, LS and PS; the boundary is not part of the line, and a
    text that ends in a boundary has no empty last line. *)
Definition is_line_boundary (c : char) : bool :=
  existsb (N.eqb c) [10; 11; 12; 13; 28; 29; 30; 133; 8232; 8233]%N.

Fixpoint splitlines_from (line : str) (after_cr : bool) (s : str) : list str :=
  match s with
  | [] => if line is [] then [] else [rev line]
  | c :: s' =>
      if after_cr && (c =? 10)%N then splitlines_from line false s'
      else if is_line_boundary c
           then rev line :: splitlines_from [] (c =? 13)%N s'
           else splitlines_from (c :: line) false s'
  end.

Definition splitlines (s : str) : list str := splitlines_from [] false s.

(** The dictionary [{'ip': ..., 'username': ..., 'password': ...}]; a
    value is [None] for a group that took no part in the match. *)
Record ssh_info : Type := mk_ssh_info {
  ip : option str;
  username : option str;
  password : option str
}.

(** One round of the loop of [parse_ssh_file]: what a line appends. *)
Definition parse_line (line : str) : list ssh_info :=
  match re_search pattern line with
  | Some m => [mk_ssh_info (group m 1) (group m 2) (group m 3)]
  | None => []
  end.

(** [parse_ssh_file(file_content)] *)
Definition parse_ssh_file (file_content : str) : list ssh_info :=
  fold_left (fun results line => results ++ parse_line line)
            (splitlines file_content) [].

(** ** get_proxy_ip *)

(** What one attempt meets: building the connector and opening the
    session, the request to each of the two endpoints with the reading of
    its body, and leaving the session. *)
Record attempt : Type := mk_attempt {
  session_enter : option exn;
  ipify : result str;
  seeip : result str;
  session_exit : option exn
}.

(** The body of the outer [try] of [get_proxy_ip]. *)
Definition probe (a : attempt) : result str :=
  match session_enter a with
  | Some e => Raise e
  | None =>
      let r :=
        match ipify a with
        | Return ip_text => Return ip_text
        | Raise e => if is_Exception e then seeip a else Raise e
        end in
      match session_exit a with
      | Some e => Raise e
      | None => r
      end
  end.

(** [get_proxy_ip(proxy_address, tries=0)].  [net proxy_address k] is what
    the [k]-th attempt through the proxy meets; [depth] is how many
    nested calls the interpreter still allows, beyond which a call raises
    [RecursionError]. *)
Fixpoint get_proxy_ip (depth : nat) (net : str -> nat -> attempt) (k : nat)
    (proxy_address : str) (tries : Z) : result str :=
  match depth with
  | 0 => Raise RecursionError
  | S depth' =>
      match probe (net proxy_address k) with
      | Return ip_text => Return ip_text
      | Raise e =>
          if is_Exception e then
            if (tries =? 0)%Z then Return []
            else get_proxy_ip depth' net (S k) proxy_address (tries - 1)%Z
          else Raise e
      end
  end.

(** ** get_first_success *)

(** How an awaitable ended. *)
Inductive completion (T : Type) : Type :=
| Succeeded (value : T)
| Failed (exc : exn).
Global Arguments Succeeded {T} value.
Global Arguments Failed {T} exc.

(** What the caller of a coroutine sees: a result, an exception, or
    nothing, when the coroutine waits for ever. *)
Inductive outcome (T : Type) : Type :=
| Returned (value : T)
| Raised (exc : exn)
| Waits.
Global Arguments Returned {T} value.
Global Arguments Raised {T} exc.
Global Arguments Waits {T}.

(** The loop over [asyncio.as_completed(tasks)] and what follows it.
    [completed] lists how the tasks ended, in the order they ended;
    [pending] counts the tasks that never end. *)
Fixpoint first_success_loop {T} (exception : option exn)
    (completed : list (completion T)) (pending : nat) : outcome T :=
  match completed with
  | future :: rest =>
      match future with
      | Succeeded result => Returned result
      | Failed exc =>
          if is_Exception exc
          then first_success_loop (Some exc) rest pending
          else Raised exc
      end
  | [] =>
      match pending with
      | S _ => Waits
      | 0 =>
          match exception with
          | None => Raised TypeError
          | Some exc =>
              if negb (is_CancelledError exc) then Raised exc
              else Raised TimeoutError
          end
      end
  end.

(** [get_first_success(aws)] *)
Definition get_first_success {T} (completed : list (completion T))
    (pending : nat) : outcome T :=
  first_success_loop None completed pending.

(** ** configure_logging *)

(** What the filters of [configure_logging] read of a
    [logging.LogRecord]: the name of its logger, its level, and
    [exc_info], which is unset or a triple whose first component is the
    class of the exception, if there is one.  A class is given by its
    name. *)
Record LogRecord : Type := mk_LogRecord {
  name : string;
  levelno : Z;
  exc_info : option (option string)
}.

(** The levels of the module [logging]. *)
Definition DEBUG : Z := 10.
Definition INFO : Z := 20.
Definition WARNING : Z := 30.

(** [record.exc_info and record.exc_info[0] in [BrokenPipeError]], as
    [any] reads it. *)
Definition is_broken_pipe (record : LogRecord) : bool :=
  match exc_info record with
  | Some (Some cls) => String.eqb cls "BrokenPipeError"
  | Some None => false
  | None => false
  end.

(** The local function [logging_filter] of [configure_logging]. *)
Definition logging_filter (record : LogRecord) : bool :=
  if is_broken_pipe record || String.eqb (name record) "Ssh"
  then false
  else true.

(** The filter of the third handler, [lambda rec: rec.name == 'Ssh']. *)
Definition ssh_filter (rec : LogRecord) : bool := String.eqb (name rec) "Ssh".

(** A handler, as [configure_logging] sets one up: its level and its
    filters.  It emits a record whose level is not below its own and that
    every filter lets through. *)
Record Handler : Type := mk_Handler {
  level : Z;
  filters : list (LogRecord -> bool)
}.

Definition emits (h : Handler) (record : LogRecord) : bool :=
  (level h <=? levelno record)%Z && forallb (fun f => f record) (filters h).

(** [os.environ.get('DEBUG')] is [None] or a text; [not] holds of [None]
    and of the empty text. *)
Definition console_logging (debug : option string) : Handler :=
  mk_Handler
    (match debug with
     | None => INFO
     | Some EmptyString => INFO
     | Some (String _ _) => DEBUG
     end)
    [logging_filter].

Definition file_logging : Handler := mk_Handler DEBUG [logging_filter].

Definition ssh_logging : Handler := mk_Handler DEBUG [ssh_filter].

End Utils.
(* ===================================================================== *)
(** * Vocabulary of the statements about utils.py *)
(* ===================================================================== *)

Module UtilsSpec.
Import Utils.

(** A failure an [except Exception] clause catches. *)
Definition caught {A} (r : result A) : Prop :=
  match r with
  | Return _ => True
  | Raise e => is_Exception e = true
  end.

Definition caught_opt (o : option exn) : Prop :=
  match o with
  | None => True
  | Some e => is_Exception e = true
  end.

(** An attempt none of whose steps ends in an exception outside [Exception]. *)
Definition attempt_caught (a : attempt) : Prop :=
  caught_opt (session_enter a) /\ caught (ipify a) /\ caught (seeip a) /\
  caught_opt (session_exit a).

Definition failed {A} (r : result A) : Prop :=
  match r with
  | Return _ => False
  | Raise _ => True
  end.

(** A failure the loop's [except Exception] catches. *)
Definition ordinary_failure {T} (c : completion T) : Prop :=
  exists e, c = Failed e /\ is_Exception e = true.

(** A digit [0] to [9]; one of the delimiters [;], [,] and [|]. *)
Definition is_digit (c : char) : bool := (48 <=? c)%N && (c <=? 57)%N.
Definition is_delimiter (c : char) : bool :=
  (c =? 59)%N || (c =? 44)%N || (c =? 124)%N.

(** One to three digits. *)
Definition digits (o : str) : Prop :=
  Forall (fun c => is_digit c = true) o /\ 1 <= length o <= 3.

(** Four groups of one to three digits with dots between them. *)
Definition ip_shaped (a : str) : Prop :=
  exists o1 o2 o3 o4,
    a = o1 ++ 46%N :: o2 ++ 46%N :: o3 ++ 46%N :: o4 /\
    digits o1 /\ digits o2 /\ digits o3 /\ digits o4.

(** A field: no delimiter in it. *)
Definition free (u : str) : Prop :=
  Forall (fun c => is_delimiter c = false) u.

(** Where [s] stops being a field: at its end or at a delimiter. *)
Definition field_ends (s : str) : Prop :=
  match s with
  | [] => True
  | c :: _ => is_delimiter c = true
  end.

Definition contains_ip (line : str) : Prop :=
  exists pre a post, line = pre ++ a ++ post /\ ip_shaped a.

Definition has_pattern (line : str) : Prop :=
  exists pre a d1 u d2 rest,
    line = pre ++ a ++ d1 :: u ++ d2 :: rest /\
    ip_shaped a /\ is_delimiter d1 = true /\ free u /\ is_delimiter d2 = true.

(** The words the pattern matches. *)
Fixpoint lang (r : regex) (m : str) : Prop :=
  match r with
  | Lit c => m = [c]
  | Set_ negate items => exists c, m = [c] /\ in_set negate items c = true
  | Cat r1 r2 => exists m1 m2, m = m1 ++ m2 /\ lang r1 m1 /\ lang r2 m2
  | Repeat min max r' =>
      exists ms, m = concat ms /\ min <= length ms <= max /\ Forall (lang r') ms
  | Star r' => exists ms, m = concat ms /\ Forall (lang r') ms
  | Group _ r' => lang r' m
  end.

(** What the matcher tries first. *)
Definition first_is {A} (l : list A) (x : A) : Prop := exists tl, l = x :: tl.

(** An unreachable proxy: every request of every attempt fails. *)
Definition unreachable : str -> nat -> attempt := fun _ _ =>
  mk_attempt None (Raise (OtherException "ClientConnectorError"))
             (Raise TimeoutError) None.

(** No line boundary in a text. *)
Definition one_line (s : str) : Prop :=
  Forall (fun c => is_line_boundary c = false) s.

(** A record that a line can carry: an address of the right shape, and a
    user name and a password without delimiter or line boundary. *)
Definition writable (r : ssh_info) : Prop :=
  exists a u p,
    r = mk_ssh_info (Some a) (Some u) (Some p) /\
    ip_shaped a /\ free u /\ free p /\ one_line u /\ one_line p.

(** The line [ip;username;password] of a record, and the text with one
    such line for each record, each ended by a line feed. *)
Definition render_line (r : ssh_info) : str :=
  default [] (ip r) ++ 59%N :: default [] (username r)
                    ++ 59%N :: default [] (password r).

Fixpoint render (records : list ssh_info) : str :=
  match records with
  | [] => []
  | r :: records' => render_line r ++ 10%N :: render records'
  end.

(** The exception of a failure. *)
Definition failure_of {T} (c : completion T) : option exn :=
  match c with
  | Succeeded _ => None
  | Failed e => Some e
  end.

(** A proxy whose first attempt fails and whose second is cut short by a
    cancellation of the task. *)
Definition cancelled_at_second : str -> nat -> attempt := fun _ k =>
  match k with
  | 0 => mk_attempt None (Raise (OtherException "ClientConnectorError"))
                    (Raise TimeoutError) None
  | S _ => mk_attempt None (Raise TimeoutError) (Raise CancelledError) None
  end.

End UtilsSpec.



(* ===================================================================== *)
(** * Vocabulary of the statements about models/models.py *)
(* ===================================================================== *)

Module ModelsSpec.
Import Models.

(** [wp m Q E w]: run from [w], [m] either returns a value and a world that
    satisfy [Q], or raises an exception that satisfies [E]. *)
Definition wp {A} (m : M A) (Q : A -> World -> Prop) (E : exn -> Prop)
    (w : World) : Prop :=
  match m w with
  | Return (a, w') => Q a w'
  | Raise e => E e
  end.

(** What a method returns or raises, without the world. *)
Definition value {A} (r : result (A * World)) : result A :=
  match r with
  | Return (a, _) => Return a
  | Raise e => Raise e
  end.

Definition no_exn : exn -> Prop := fun _ => False.
Definition any_exn : exn -> Prop := fun _ => True.

(** The invariant of a port's row: connected, and only then, it has a time
    of connection. *)
Definition port_inv (p : Port) : Prop :=
  is_Some (time_connected p) <-> is_connected p = true.

(** [w'] has the ports of [w], and each of them, except [target], still
    satisfies the invariant if it did. *)
Definition keeps (target : option Id) (w w' : World) : Prop :=
  (forall q, is_Some (Port_table w' !! q) <-> is_Some (Port_table w !! q)) /\
  (forall q p p',
     Port_table w !! q = Some p -> Port_table w' !! q = Some p' ->
     Some q <> target -> port_inv p -> port_inv p').

(** What the body of a method may do before the session ends: it keeps
    the invariant of the ports other than the one it is a method of, if
    it is a method of one, and takes nothing off the list of entities to
    save. *)
Definition body_rel (target : option Id) (w w' : World) : Prop :=
  keeps target w w' /\ (forall e, e ∈ dirty w -> e ∈ dirty w').

Definition body_pre {A} (target : option Id) (m : M A) : Prop :=
  forall w, wp m (fun _ w' => body_rel target w w') any_exn w.

(** A body that, besides, has written the port [target]. *)
Definition body_ok {A} (target : Id) (m : M A) : Prop :=
  forall w,
    wp m (fun _ w' => body_rel (Some target) w w' /\ EPort target ∈ dirty w')
       any_exn w.

(** Every port of [w'] that had its invariant in [w] has it. *)
Definition kept (w w' : World) : Prop :=
  forall q p p',
    Port_table w !! q = Some p -> port_inv p ->
    Port_table w' !! q = Some p' -> port_inv p'.

(** Besides, the port [target] has its invariant. *)
Definition saved (target : Id) (w w' : World) : Prop :=
  (exists p', Port_table w' !! target = Some p' /\ port_inv p') /\
  kept w w'.

(** What [Model.before_update] makes of the inherited columns. *)
Definition Model_saved (w : World) (m : Model) : Model :=
  let m1 := with_last_modified (clock w (ticks w)) m in
  if is_checking m then with_last_checked (Some (clock w (S (ticks w)))) m1
  else m1.

(** What a hook leaves alone. *)
Definition frame (w w' : World) : Prop :=
  clock w' = clock w /\ ipv4_address w' = ipv4_address w.

(** The world [w'] and the row [p'] of port [self] after its update hook,
    when the hook found the world [w] and the row [p]; [now] is the time
    the hook read, if it read one. *)
Record Port_hook_post (self : Id) (p : Port) (w w' : World) (p' : Port)
    (now : Time) : Prop := {
  php_frame : frame w w';
  php_Port_table : Port_table w' = <[self := p']> (Port_table w);
  php_SSH_table : SSH_table w' = SSH_table w;
  php_is_checking : is_checking (port_base p') = is_checking (port_base p);
  php_port_number : port_number p' = port_number p;
  php_auto_connect : auto_connect p' = auto_connect p;
  php_ssh : ssh p' = ssh p;
  php_is_connected : is_connected p' = is_connected p;
  php_external_ip : external_ip p' = external_ip p;
  php_time_connected :
    time_connected p' =
      if is_connected p then Some (default now (time_connected p)) else None;
  php_used :
    used w' =
      if is_connected p then
        match ssh p with
        | Some s => {[ (self, s) ]} ∪ used w
        | None => used w
        end
      else used w;
  php_proxy_address :
    proxy_address p' =
      "socks5://" +:+ ipv4_address w +:+ ":" +:+ pretty (port_number p)
}.

(** The same for a credential. *)
Record SSH_hook_post (self : Id) (s : SSH) (w w' : World) (s' : SSH)
    : Prop := {
  shp_frame : frame w w';
  shp_SSH_table : SSH_table w' = <[self := s']> (SSH_table w);
  shp_Port_table : Port_table w' = Port_table w;
  shp_is_checking : is_checking (ssh_base s') = is_checking (ssh_base s);
  shp_ip : ip s' = ip s;
  shp_username : username s' = username s;
  shp_password : password s' = password s;
  shp_is_live : is_live s' = is_live s;
  shp_used :
    used w' =
      match holder w self with
      | Some q => {[ (q, self) ]} ∪ used w
      | None => used w
      end
}.

(** The rows the query of [get_ssh_for_port] selects. *)
Definition query (w : World) (port : Id) (unique : bool) : list (Id * SSH) :=
  let live_rows :=
    filter (fun kv : Id * SSH => is_live kv.2 = true)
           (map_to_list (SSH_table w)) in
  if unique
  then filter (fun kv : Id * SSH => kv.1 ∉ history w port) live_rows
  else live_rows.

(** The credentials that are live. *)
Definition live (w : World) : gset Id :=
  dom (filter (fun kv : Id * SSH => is_live kv.2 = true) (SSH_table w)).

(** The credentials [get_ssh_for_port] may return: the live ones, without
    those in the history of the port when [unique] is set. *)
Definition eligible (w : World) (port : Id) (unique : bool) : gset Id :=
  if unique then live w ∖ history w port else live w.

(** The operations of the two registries. *)
Inductive mutation : Type :=
| Assign (port : Id) (s : option Id)
| BeginChecking (port : Id)
| EndChecking (port : Id) (kwargs : list PortKw)
| Disconnect (port : Id) (remove_from_used : bool)
| Reset (port : Id)
| BeginCheckingSSH (s : Id)
| EndCheckingSSH (s : Id) (kwargs : list SSHKw)
| ResetSSH (s : Id).

(** The port an operation is an operation on, if it is one on a port. *)
Definition target (m : mutation) : option Id :=
  match m with
  | Assign port _ | BeginChecking port | EndChecking port _
  | Disconnect port _ | Reset port => Some port
  | BeginCheckingSSH _ | EndCheckingSSH _ _ | ResetSSH _ => None
  end.

Definition run_mutation (m : mutation) : M unit :=
  match m with
  | Assign port s => assign_ssh port s
  | BeginChecking port => Port_begin_checking port
  | EndChecking port kwargs => Port_end_checking port kwargs
  | Disconnect port remove_from_used => disconnect_ssh port remove_from_used
  | Reset port => reset_status port
  | BeginCheckingSSH s => SSH_begin_checking s
  | EndCheckingSSH s kwargs => SSH_end_checking s kwargs
  | ResetSSH s => SSH_reset_status s
  end.

(** The two updates a check of a port ends with. *)
Definition mark_connected (port : Id) (external_ip : string) : M unit :=
  Port_end_checking port [kw_is_connected true; kw_external_ip external_ip].

Definition mark_disconnected (port : Id) : M unit :=
  Port_end_checking port [kw_is_connected false].

(** The claim about [reset], for an operation [reset port removeFromHistory]
    of the registry. *)
Definition reset_claim (reset : Id -> bool -> M unit) : Prop :=
  forall w port p T,
    Port_table w !! port = Some p ->
    is_connected p = true -> time_connected p = Some T ->
    external_ip p = "1.2.3.4" ->
    (exists w' p',
       reset port false w = Return (tt, w') /\
       Port_table w' !! port = Some p' /\
       is_connected p' = false /\ time_connected p' = None /\
       external_ip p' = "" /\ ssh p' = None /\
       history w' port = history w port) /\
    (exists w' p',
       reset port true w = Return (tt, w') /\
       Port_table w' !! port = Some p' /\
       is_connected p' = false /\ time_connected p' = None /\
       external_ip p' = "" /\ ssh p' = None /\
       history w' port = ∅).

(** A registry with two live credentials and one port, connected through
    the first of them since time 5, which has used both. *)
Definition example_world : World :=
  mkWorld
    (<[7%positive := mkSSH (mkModel false None 0%Z) "10.0.0.5" "user1" "pass1" true]>
       (<[8%positive := mkSSH (mkModel false None 0%Z) "10.0.0.6" "user2" "pass2" true]>
          ∅))
    (<[1%positive := mkPort (mkModel false None 0%Z) 8000%Z true
                       (Some 7%positive) true "1.2.3.4" (Some 5%Z)
                       "socks5://192.168.1.2:8000"]> ∅)
    {[ (1%positive, 7%positive); (1%positive, 8%positive) ]}
    [] (fun k => (100 + Z.of_nat k)%Z) 0 "192.168.1.2".

(** The world a method leaves, or the one it found when it raises. *)
Definition world_after {A} (m : M A) (w : World) : World :=
  match m w with
  | Return (_, w') => w'
  | Raise _ => w
  end.

(** A relation between the world a method finds and the world it leaves,
    whenever it returns. *)
Definition steps {A} (R : World -> World -> Prop) (m : M A) : Prop :=
  forall w, wp m (fun _ w' => R w w') any_exn w.

(** No credential is the credential of two ports. *)
Definition exclusive (w : World) : Prop :=
  forall q1 q2 p1 p2 s,
    Port_table w !! q1 = Some p1 -> Port_table w !! q2 = Some p2 ->
    ssh p1 = Some s -> ssh p2 = Some s -> q1 = q2.

(** The operations that take credentials out of a history. *)
Definition forgets (m : mutation) : bool :=
  match m with
  | Disconnect _ true | Reset _ => true
  | _ => false
  end.

(** The address [Port.before_update] computes for a row. *)
Definition proxy_address_of (w : World) (p : Port) : string :=
  "socks5://" +:+ ipv4_address w +:+ ":" +:+ pretty (port_number p).

(** The two outcomes of the check of a credential. *)
Definition mark_live (s : Id) : M unit := SSH_end_checking s [kw_is_live true].
Definition mark_dead (s : Id) : M unit := SSH_end_checking s [kw_is_live false].

(** The histories of [w'] hold what those of [w] hold. *)
Definition grows (w w' : World) : Prop := used w ⊆ used w'.

(** [w'] is exclusive if [w] is. *)
Definition stays_exclusive (w w' : World) : Prop :=
  exclusive w -> exclusive w'.

(** The row of port [t] has the address the update hook computes. *)
Definition addressed (t : Id) (w : World) : Prop :=
  exists p, Port_table w !! t = Some p /\ proxy_address p = proxy_address_of w p.

(** The host keeps its address. *)
Definition same_host (w w' : World) : Prop := ipv4_address w' = ipv4_address w.

(** [w'] differs from [w] at most in the row and in the history of the
    port [self]. *)
Definition local_to (self : Id) (w w' : World) : Prop :=
  (forall q, q <> self -> Port_table w' !! q = Port_table w !! q) /\
  SSH_table w' = SSH_table w /\
  (forall q, q <> self -> history w' q = history w q).

(** Besides, nothing but the port [self] was put on the list of entities
    to save. *)
Definition inside (self : Id) (w w' : World) : Prop :=
  local_to self w w' /\
  (forall e, e ∈ dirty w' -> e ∈ dirty w \/ e = EPort self).

(** The operations that assign a credential. *)
Definition assigns (m : mutation) : bool :=
  match m with
  | Assign _ (Some _) => true
  | EndChecking _ kwargs =>
      existsb (fun kw => match kw with kw_ssh (Some _) => true | _ => false end)
              kwargs
  | _ => false
  end.

(** A registry with two live credentials and two ports, each connected
    through one of them. *)
Definition two_port_world : World :=
  mkWorld
    (<[7%positive := mkSSH (mkModel false None 0%Z) "10.0.0.5" "user1" "pass1" true]>
       (<[8%positive := mkSSH (mkModel false None 0%Z) "10.0.0.6" "user2" "pass2" true]>
          ∅))
    (<[1%positive := mkPort (mkModel false None 0%Z) 8000%Z true
                       (Some 7%positive) true "1.2.3.4" (Some 5%Z)
                       "socks5://192.168.1.2:8000"]>
       (<[2%positive := mkPort (mkModel false None 0%Z) 8001%Z true
                          (Some 8%positive) true "1.2.3.5" (Some 6%Z)
                          "socks5://192.168.1.2:8001"]> ∅))
    {[ (1%positive, 7%positive); (2%positive, 8%positive) ]}
    [] (fun k => (100 + Z.of_nat k)%Z) 0 "192.168.1.2".

End ModelsSpec.






(* ===================================================================== *)
(** * Facts about utils.py *)
(* ===================================================================== *)

(** ** The pattern matcher *)

Section regex_facts.
Import Utils UtilsSpec.
Implicit Types (s rest m : str) (caps : captures) (r : regex).

Lemma greedy_sound (step : str -> captures -> list (str * captures))
    (P : str -> Prop) :
  (forall s caps rest caps',
     (rest, caps') ∈ step s caps -> exists m, s = m ++ rest /\ P m) ->
  forall max min s caps rest caps',
    (rest, caps') ∈ greedy step min max s caps ->
    exists ms, s = concat ms ++ rest /\ min <= length ms <= max /\ Forall P ms.
Proof.
  intros Hstep. induction max as [|max IH]; intros min s caps rest caps'; simpl.
  - destruct min; [|by intros ?%elem_of_nil].
    intros [= -> ->]%list_elem_of_singleton. exists []. simpl. split; [done|].
    split; [lia|constructor].
  - rewrite elem_of_app. intros [Hin|Hin].
    + apply list_elem_of_bind in Hin as ([s1 c1] & Hin & Hs1). simpl in Hin.
      apply Hstep in Hs1 as (m1 & -> & Hm1).
      apply IH in Hin as (ms & -> & Hlen & Hms).
      exists (m1 :: ms). simpl. rewrite <- app_assoc. split; [done|].
      split; [lia|by constructor].
    + destruct min; [|by apply elem_of_nil in Hin].
      apply list_elem_of_singleton in Hin as [= -> ->].
      exists []. simpl. split; [done|]. split; [lia|constructor].
Qed.

Lemma run_sound r : forall s caps rest caps',
  (rest, caps') ∈ run r s caps -> exists m, s = m ++ rest /\ lang r m.
Proof.
  induction r as [c|negate items|r1 IH1 r2 IH2|min max r IH|r IH|i r IH];
    intros s caps rest caps'; simpl.
  - destruct s as [|c' s]; [by intros ?%elem_of_nil|].
    destruct (c' =? c)%N eqn:Hc; [|by intros ?%elem_of_nil].
    apply N.eqb_eq in Hc as ->.
    intros [= -> ->]%list_elem_of_singleton. by exists [c].
  - destruct s as [|c' s]; [by intros ?%elem_of_nil|].
    destruct (in_set negate items c') eqn:Hc; [|by intros ?%elem_of_nil].
    intros [= -> ->]%list_elem_of_singleton. exists [c']. eauto.
  - intros ([s1 c1] & Hin & Hs1)%list_elem_of_bind. simpl in Hin.
    apply IH1 in Hs1 as (m1 & -> & Hm1). apply IH2 in Hin as (m2 & -> & Hm2).
    exists (m1 ++ m2). rewrite <- app_assoc. eauto 6.
  - intros (ms & -> & Hlen & Hms)%(greedy_sound _ (lang r) IH).
    exists (concat ms). eauto.
  - intros (ms & -> & Hlen & Hms)%(greedy_sound _ (lang r) IH).
    exists (concat ms). eauto.
  - intros ([s1 c1] & [= -> ->] & Hin)%list_elem_of_fmap. simpl.
    by apply IH in Hin.
Qed.
End regex_facts.

(** ** What the matcher tries first *)

Section head_facts.
Import Utils UtilsSpec.
Implicit Types (s rest m : str) (caps : captures) (r : regex).

Lemma first_is_bind {A B} (f : A -> list B) l a x :
  first_is l a -> first_is (f a) x -> first_is (l ≫= f) x.
Proof.
  intros [tl ->] [tl' Hf]. rewrite bind_cons, Hf. by eexists.
Qed.

Lemma first_is_app {A} (l l' : list A) x : first_is l x -> first_is (l ++ l') x.
Proof. intros [tl ->]. by eexists. Qed.

Lemma run_Repeat min max r s caps :
  run (Repeat min max r) s caps = greedy (run r) min max s caps.
Proof. done. Qed.

Lemma run_Star r s caps :
  run (Star r) s caps = greedy (run r) 0 (length s) s caps.
Proof. done. Qed.

Lemma run_Cat_first r1 r2 s caps s1 c1 x :
  first_is (run r1 s caps) (s1, c1) -> first_is (run r2 s1 c1) x ->
  first_is (run (Cat r1 r2) s caps) x.
Proof. intros H1 H2. simpl. by eapply first_is_bind. Qed.

Lemma greedy_first_step step min max s caps s1 c1 x :
  first_is (step s caps) (s1, c1) ->
  first_is (greedy step (pred min) max s1 c1) x ->
  first_is (greedy step min (S max) s caps) x.
Proof.
  intros H1 H2. simpl. apply first_is_app. by eapply first_is_bind.
Qed.

Lemma take_app_rest s rest : take (length (s ++ rest) - length rest) (s ++ rest) = s.
Proof.
  rewrite length_app. replace (length s + length rest - length rest) with (length s) by lia.
  by rewrite take_app_length.
Qed.

Lemma run_Group_first i r m rest caps c1 :
  first_is (run r (m ++ rest) caps) (rest, c1) ->
  first_is (run (Group i r) (m ++ rest) caps) (rest, (i, m) :: c1).
Proof.
  intros [tl Hr]. simpl. rewrite Hr. simpl. rewrite take_app_rest. by eexists.
Qed.

(** A repeated character set takes all it can. *)
Lemma greedy_set_first negate items x : forall min max rest caps,
  Forall (fun c => in_set negate items c = true) x ->
  min <= length x <= max ->
  match rest with [] => True | c :: _ => in_set negate items c = false end ->
  first_is (greedy (run (Set_ negate items)) min max (x ++ rest) caps) (rest, caps).
Proof.
  induction x as [|c x IH]; intros min max rest caps Hx Hlen Hrest; simpl in *.
  - assert (min = 0) as -> by lia. destruct max as [|max]; simpl.
    + by eexists.
    + destruct rest as [|c rest]; simpl; [by eexists|].
      rewrite Hrest. simpl. by eexists.
  - destruct max as [|max]; [lia|].
    apply Forall_cons in Hx as [Hc Hx].
    eapply greedy_first_step.
    + simpl. rewrite Hc. by eexists.
    + apply IH; [done|lia|done].
Qed.

Lemma in_set_digit c : in_set false [Rng 48 57]%N c = is_digit c.
Proof. unfold in_set, is_digit. simpl. by rewrite orb_false_r. Qed.

Lemma in_set_delimiter c :
  in_set false [Chr 59; Chr 44; Chr 124]%N c = is_delimiter c.
Proof.
  unfold in_set, is_delimiter. simpl. by rewrite orb_false_r, orb_assoc.
Qed.

Lemma delimiter_not_digit c : is_delimiter c = true -> is_digit c = false.
Proof.
  unfold is_delimiter, is_digit.
  rewrite !orb_true_iff, !N.eqb_eq.
  intros [[-> | ->] | ->]; reflexivity.
Qed.

Lemma field_char c :
  in_set true [Chr 59; Chr 44; Chr 124]%N c = negb (is_delimiter c).
Proof. by rewrite <- in_set_delimiter. Qed.

Lemma run_digits_first o rest caps :
  digits o ->
  match rest with [] => True | c :: _ => is_digit c = false end ->
  first_is (run (Repeat 1 3 digit) (o ++ rest) caps) (rest, caps).
Proof.
  intros [Ho Hlen] Hrest. unfold digit. rewrite run_Repeat.
  apply greedy_set_first; [|done|].
  - eapply Forall_impl; [exact Ho|]. intros c Hc. by rewrite in_set_digit.
  - destruct rest as [|c rest]; [done|]. by rewrite in_set_digit.
Qed.

Lemma run_digits_dot_first o rest caps :
  digits o ->
  first_is (run (Cat (Repeat 1 3 digit) (Lit 46%N)) (o ++ 46%N :: rest) caps)
           (rest, caps).
Proof.
  intros Ho. eapply run_Cat_first.
  - apply run_digits_first; [done|]. reflexivity.
  - simpl. by eexists.
Qed.

Lemma run_ip_first a rest caps :
  ip_shaped a ->
  match rest with [] => True | c :: _ => is_digit c = false end ->
  first_is (run (Cat (Repeat 3 3 (Cat (Repeat 1 3 digit) (Lit 46%N)))
                     (Repeat 1 3 digit)) (a ++ rest) caps)
           (rest, caps).
Proof.
  intros (o1 & o2 & o3 & o4 & -> & H1 & H2 & H3 & H4) Hrest.
  eapply run_Cat_first with (s1 := o4 ++ rest).
  - rewrite run_Repeat.
    repeat (rewrite <- ?app_assoc, <- ?app_comm_cons).
    eapply greedy_first_step; [by apply run_digits_dot_first|].
    eapply greedy_first_step; [by apply run_digits_dot_first|].
    eapply greedy_first_step; [by apply run_digits_dot_first|].
    simpl. by eexists.
  - by apply run_digits_first.
Qed.

Lemma run_field_first u rest caps :
  free u -> field_ends rest ->
  first_is (run field (u ++ rest) caps) (rest, caps).
Proof.
  intros Hu Hrest. unfold field. rewrite run_Star.
  apply greedy_set_first.
  - eapply Forall_impl; [exact Hu|]. intros c Hc. by rewrite field_char, Hc.
  - rewrite length_app. lia.
  - destruct rest as [|c rest]; [done|]. simpl in Hrest.
    by rewrite field_char, Hrest.
Qed.

Lemma run_delimiter_first d rest caps :
  is_delimiter d = true ->
  first_is (run delimiter (d :: rest) caps) (rest, caps).
Proof.
  intros Hd. unfold delimiter. cbn [run].
  rewrite in_set_delimiter, Hd. by eexists.
Qed.

(** The first match of the pattern at the start of a line that begins with
    an address, a delimiter, a field, a delimiter and a field. *)
Lemma run_pattern_first a d1 u d2 p rest :
  ip_shaped a -> is_delimiter d1 = true -> free u ->
  is_delimiter d2 = true -> free p -> field_ends rest ->
  first_is (run pattern (a ++ d1 :: u ++ d2 :: p ++ rest) [])
           (rest, [(3, p); (2, u); (1, a)]).
Proof.
  intros Ha Hd1 Hu Hd2 Hp Hrest. unfold pattern.
  eapply run_Cat_first.
  { apply run_Group_first. apply run_ip_first; [done|].
    by apply delimiter_not_digit. }
  eapply run_Cat_first; [by apply run_delimiter_first|].
  eapply run_Cat_first.
  { apply run_Group_first. by apply run_field_first. }
  eapply run_Cat_first; [by apply run_delimiter_first|].
  apply run_Group_first. by apply run_field_first.
Qed.
End head_facts.

(** ** [re.search] and the pattern of [parse_ssh_file] *)

Section search_facts.
Import Utils UtilsSpec.
Implicit Types (s rest m line : str) (caps : captures) (r : regex).

Lemma re_search_first r s x :
  first_is (run r s []) x -> re_search r s = Some x.2.
Proof. intros [tl H]. destruct s; simpl; by rewrite H. Qed.

Lemma re_search_skip r c s :
  run r (c :: s) [] = [] -> re_search r (c :: s) = re_search r s.
Proof. intros H. simpl. by rewrite H. Qed.

(** Text before the leftmost position that has a match is ignored. *)
Lemma re_search_prefix r pre s :
  (forall i, i < length pre -> run r (drop i (pre ++ s)) [] = []) ->
  re_search r (pre ++ s) = re_search r s.
Proof.
  induction pre as [|c pre IH]; intros H; [done|].
  rewrite <- app_comm_cons, re_search_skip.
  - apply IH. intros i Hi. apply (H (S i)). simpl. lia.
  - apply (H 0). simpl. lia.
Qed.

Lemma re_search_is_Some r pre s :
  run r s [] <> [] -> is_Some (re_search r (pre ++ s)).
Proof.
  intros Hs. induction pre as [|c pre IH]; simpl.
  - destruct s; simpl; destruct (run r _ []); by eauto.
  - destruct (run r (c :: pre ++ s) []); by eauto.
Qed.

Lemma re_search_sound r s caps :
  re_search r s = Some caps ->
  exists pre m rest, s = pre ++ m ++ rest /\ lang r m.
Proof.
  induction s as [|c s IH]; simpl.
  - destruct (run r [] []) as [|[rest caps'] tl] eqn:Hr; [done|]. intros _.
    destruct (run_sound r [] [] rest caps') as (m & Hm & Hl).
    { rewrite Hr. by left. }
    exists [], m, rest. by split.
  - destruct (run r (c :: s) []) as [|[rest caps'] tl] eqn:Hr.
    + intros (pre & m & rest & -> & Hl)%IH. by exists (c :: pre), m, rest.
    + intros _. destruct (run_sound r (c :: s) [] rest caps') as (m & Hm & Hl).
      { rewrite Hr. by left. }
      exists [], m, rest. by split.
Qed.

(** *** What the pattern matches *)

Lemma lang_set_concat negate items ms :
  Forall (lang (Set_ negate items)) ms ->
  Forall (fun c => in_set negate items c = true) (concat ms) /\
  length (concat ms) = length ms.
Proof.
  induction 1 as [|m ms (c & -> & Hc) _ [IH1 IH2]]; simpl.
  - by split.
  - split; [by constructor|by rewrite IH2].
Qed.

Lemma lang_digits o : lang (Repeat 1 3 digit) o -> digits o.
Proof.
  intros (ms & -> & Hlen & Hms). apply lang_set_concat in Hms as [H1 H2].
  split; [|by rewrite H2].
  eapply Forall_impl; [exact H1|]. intros c Hc. by rewrite <- in_set_digit.
Qed.

Lemma lang_field u : lang field u -> free u.
Proof.
  intros (ms & -> & Hms). apply lang_set_concat in Hms as [H1 _].
  eapply Forall_impl; [exact H1|]. intros c Hc. cbv beta in Hc.
  rewrite field_char in Hc. by destruct (is_delimiter c).
Qed.

Lemma lang_delimiter m :
  lang delimiter m -> exists d, m = [d] /\ is_delimiter d = true.
Proof. intros (d & -> & Hd). exists d. by rewrite <- in_set_delimiter. Qed.

Lemma lang_pattern m :
  lang pattern m ->
  exists a d1 u d2 p,
    m = a ++ d1 :: u ++ d2 :: p /\
    ip_shaped a /\ is_delimiter d1 = true /\ free u /\
    is_delimiter d2 = true /\ free p.
Proof.
  intros (a & m1 & -> & Ha & Hm1).
  destruct Hm1 as (x1 & m2 & -> & (d1 & -> & Hd1)%lang_delimiter & Hm2).
  destruct Hm2 as (u & m3 & -> & Hu%lang_field & Hm3).
  destruct Hm3 as (x2 & p & -> & (d2 & -> & Hd2)%lang_delimiter & Hp%lang_field).
  exists a, d1, u, d2, p. repeat split; try done.
  destruct Ha as (a3 & o4 & -> & (ms & -> & Hlen & Hms) & Ho4%lang_digits).
  destruct ms as [|y1 [|y2 [|y3 [|? ?]]]]; simpl in Hlen; try lia.
  apply Forall_cons in Hms as [(o1 & ? & -> & Ho1%lang_digits & ->) Hms].
  apply Forall_cons in Hms as [(o2 & ? & -> & Ho2%lang_digits & ->) Hms].
  apply Forall_cons in Hms as [(o3 & ? & -> & Ho3%lang_digits & ->) _].
  exists o1, o2, o3, o4. split; [|done].
  simpl. by rewrite app_nil_r, <- !app_assoc.
Qed.

Lemma digits_first o :
  digits o -> exists c o', o = c :: o' /\ is_digit c = true.
Proof.
  intros [Ho Hlen]. destruct o as [|c o']; [simpl in Hlen; lia|].
  apply Forall_cons in Ho as [Hc _]. eauto.
Qed.

(** A match of the pattern starts with a digit. *)
Lemma run_pattern_not_digit c s caps :
  is_digit c = false -> run pattern (c :: s) caps = [].
Proof.
  intros Hc. destruct (run pattern (c :: s) caps) as [|[rest caps'] tl] eqn:Hr; [done|].
  destruct (run_sound pattern (c :: s) caps rest caps') as (m & Hm & Hl).
  { rewrite Hr. by left. }
  apply lang_pattern in Hl as (a & d1 & u & d2 & p & -> & Ha & _).
  destruct Ha as (o1 & o2 & o3 & o4 & -> & (c' & o' & -> & Hc')%digits_first & _).
  simpl in Hm. injection Hm as -> _. congruence.
Qed.

(** Every text splits into a field and what follows it. *)
Lemma field_split s :
  exists p rest, s = p ++ rest /\ free p /\ field_ends rest.
Proof.
  induction s as [|c s (p & rest & -> & Hp & Hrest)].
  - exists [], []. repeat split. constructor.
  - destruct (is_delimiter c) eqn:Hc.
    + exists [], (c :: p ++ rest). repeat split; [constructor|done].
    + exists (c :: p), rest. repeat split; [by constructor|done].
Qed.
End search_facts.

(** ** [parse_ssh_file] *)

Section parse_facts.
Import Utils UtilsSpec.
Implicit Types (s rest m line : str).

Lemma parse_line_first line rest a u p :
  first_is (run pattern line []) (rest, [(3, p); (2, u); (1, a)]) ->
  parse_line line = [mk_ssh_info (Some a) (Some u) (Some p)].
Proof.
  intros H. unfold parse_line. by rewrite (re_search_first _ _ _ H).
Qed.

(** The record of a line that starts with the address. *)
Lemma parse_line_exact a d1 u d2 p rest :
  ip_shaped a -> is_delimiter d1 = true -> free u ->
  is_delimiter d2 = true -> free p -> field_ends rest ->
  parse_line (a ++ d1 :: u ++ d2 :: p ++ rest)
  = [mk_ssh_info (Some a) (Some u) (Some p)].
Proof.
  intros. eapply parse_line_first. by apply run_pattern_first.
Qed.

Lemma parse_line_prefix pre s :
  Forall (fun c => is_digit c = false) pre ->
  parse_line (pre ++ s) = parse_line s.
Proof.
  intros Hpre. unfold parse_line. rewrite re_search_prefix; [done|].
  intros i Hi.
  destruct (drop i (pre ++ s)) as [|c s'] eqn:Hd.
  { apply (f_equal length) in Hd. rewrite length_drop, length_app in Hd.
    simpl in Hd. lia. }
  apply run_pattern_not_digit.
  assert (Hc : (pre ++ s) !! i = Some c).
  { rewrite <- (Nat.add_0_r i), <- lookup_drop, Hd. done. }
  rewrite lookup_app_l in Hc by done.
  by apply (Forall_lookup_1 _ _ _ _ Hpre Hc).
Qed.

Lemma parse_line_cases line :
  parse_line line = [] \/ exists r, parse_line line = [r].
Proof. unfold parse_line. destruct (re_search pattern line); eauto. Qed.

Lemma parse_line_has_pattern line :
  has_pattern line <-> exists r, parse_line line = [r].
Proof.
  split.
  - intros (pre & a & d1 & u & d2 & rest & -> & Ha & Hd1 & Hu & Hd2).
    destruct (field_split rest) as (p & rest' & -> & Hp & Hrest').
    destruct (run_pattern_first a d1 u d2 p rest' Ha Hd1 Hu Hd2 Hp Hrest')
      as [tl Hrun].
    destruct (re_search_is_Some pattern pre (a ++ d1 :: u ++ d2 :: p ++ rest'))
      as [caps Hcaps]; [by rewrite Hrun|].
    unfold parse_line. rewrite Hcaps. eauto.
  - intros [r Hr]. unfold parse_line in Hr.
    destruct (re_search pattern line) as [caps|] eqn:Hs; [|done].
    apply re_search_sound in Hs as (pre & m & rest & -> & Hm).
    apply lang_pattern in Hm as (a & d1 & u & d2 & p & -> & Ha & Hd1 & Hu & Hd2 & Hp).
    exists pre, a, d1, u, d2, (p ++ rest). repeat split; try done.
    f_equal. rewrite <- app_assoc. simpl. by rewrite <- app_assoc.
Qed.

Lemma parse_line_no_ip line : ~ contains_ip line -> parse_line line = [].
Proof.
  intros Hno. destruct (parse_line_cases line) as [|Hr]; [done|].
  apply parse_line_has_pattern in Hr as (pre & a & d1 & u & d2 & rest & -> & Ha & _).
  destruct Hno. by exists pre, a, (d1 :: u ++ d2 :: rest).
Qed.

Lemma parse_ssh_file_lines file_content :
  parse_ssh_file file_content = concat (parse_line <$> splitlines file_content).
Proof.
  unfold parse_ssh_file. generalize (splitlines file_content). intros lines.
  rewrite <- (app_nil_l (concat _)). generalize (@nil ssh_info).
  induction lines as [|l lines IH]; intros acc; simpl.
  - by rewrite app_nil_r.
  - by rewrite IH, app_assoc.
Qed.

Lemma splitlines_from_one_line s : forall line,
  Forall (fun c => is_line_boundary c = false) s ->
  line ++ s <> [] ->
  splitlines_from line false s = [rev line ++ s].
Proof.
  induction s as [|c s IH]; intros line Hs Hne; simpl.
  - rewrite app_nil_r in *. by destruct line.
  - apply Forall_cons in Hs as [Hc Hs]. rewrite Hc.
    rewrite IH; [|done|by destruct line].
    simpl. by rewrite <- app_assoc.
Qed.

(** A text without line boundaries is one line. *)
Lemma splitlines_one_line s :
  Forall (fun c => is_line_boundary c = false) s -> s <> [] ->
  splitlines s = [s].
Proof. intros Hs Hne. unfold splitlines. by rewrite splitlines_from_one_line. Qed.
(** *** Texts of several lines *)

(** The lines of [str.splitlines] hold no line boundary. *)
Lemma splitlines_from_lines_one_line s : forall acc after_cr line,
  one_line acc ->
  line ∈ splitlines_from acc after_cr s -> one_line line.
Proof.
  unfold one_line.
  induction s as [|c s IH]; intros acc after_cr line Hacc; simpl.
  - destruct acc; [by intros ?%elem_of_nil|].
    intros ->%list_elem_of_singleton. by apply List.Forall_rev.
  - destruct (after_cr && (c =? 10)%N); [by apply IH|].
    destruct (is_line_boundary c) eqn:Hc.
    + intros [->|Hin]%elem_of_cons; [by apply List.Forall_rev|].
      eapply IH; [|exact Hin]. constructor.
    + apply IH. by constructor.
Qed.

Lemma splitlines_lines_one_line file_content line :
  line ∈ splitlines file_content -> one_line line.
Proof. apply splitlines_from_lines_one_line. constructor. Qed.

Lemma parse_line_nil : parse_line [] = [].
Proof. by vm_compute. Qed.

(** A line feed right after a carriage return belongs to the same
    boundary; taken for a boundary of its own it would end an empty line,
    which gives no record. *)
Lemma parse_after_cr b :
  concat (parse_line <$> splitlines_from [] true b)
  = concat (parse_line <$> splitlines_from [] false b).
Proof.
  destruct b as [|c b]; [done|]. simpl.
  destruct (c =? 10)%N eqn:Hc; [|done].
  apply N.eqb_eq in Hc as ->. simpl. by rewrite ?parse_line_nil.
Qed.

(** The records of two texts joined by a line boundary, line by line.
    [after_cr] is set only right after a carriage return, where no line
    is begun. *)
Lemma parse_lines_boundary c a : forall acc after_cr b,
  is_line_boundary c = true ->
  (after_cr = true -> acc = []) ->
  concat (parse_line <$> splitlines_from acc after_cr (a ++ c :: b))
  = concat (parse_line <$> splitlines_from acc after_cr a)
    ++ concat (parse_line <$> splitlines b).
Proof.
  induction a as [|c' a IH]; intros acc after_cr b Hc Hacc.
  - simpl. destruct (after_cr && (c =? 10)%N) eqn:Hskip.
    + apply andb_true_iff in Hskip as [-> _]. by rewrite (Hacc eq_refl).
    + rewrite Hc.
      assert (Hrest :
        concat (parse_line <$> splitlines_from [] (c =? 13)%N b)
        = concat (parse_line <$> splitlines b)).
      { destruct (c =? 13)%N; [apply parse_after_cr | done]. }
      rewrite fmap_cons. cbn [concat]. rewrite Hrest.
      destruct acc as [|x acc].
      * by rewrite ?parse_line_nil.
      * simpl. by rewrite app_nil_r.
  - rewrite <- app_comm_cons. simpl.
    destruct (after_cr && (c' =? 10)%N) eqn:Hskip.
    + by apply IH.
    + destruct (is_line_boundary c').
      * simpl. rewrite <- app_assoc. f_equal. by apply IH.
      * by apply IH.
Qed.

Lemma parse_ssh_file_boundary c a b :
  is_line_boundary c = true ->
  parse_ssh_file (a ++ c :: b) = parse_ssh_file a ++ parse_ssh_file b.
Proof.
  intros Hc. rewrite !parse_ssh_file_lines. unfold splitlines.
  by apply parse_lines_boundary.
Qed.

Lemma parse_ssh_file_join a b :
  parse_ssh_file (a ++ 10%N :: b) = parse_ssh_file a ++ parse_ssh_file b.
Proof. by apply parse_ssh_file_boundary. Qed.

(** A text without line boundary is read as one line. *)
Lemma parse_one_line line :
  one_line line -> parse_ssh_file line = parse_line line.
Proof.
  intros Hline. destruct line as [|c line]; [by rewrite ?parse_line_nil|].
  rewrite parse_ssh_file_lines, splitlines_one_line by done.
  simpl. by rewrite app_nil_r.
Qed.

(** A text of lines, each ended by a line feed, is read line by line. *)
Lemma parse_text_of_lines lines :
  Forall one_line lines ->
  parse_ssh_file (concat ((fun line => line ++ [10%N]) <$> lines))
  = concat (parse_line <$> lines).
Proof.
  induction 1 as [|line lines Hline _ IH]; [done|].
  rewrite !fmap_cons. cbn [concat].
  rewrite <- app_assoc, <- cons_middle.
  by rewrite parse_ssh_file_join, parse_one_line, IH.
Qed.

(** C8.  [parse_ssh_file] raises nothing and gives, in the order of the
    lines, one record for each line that contains an address (four groups
    of one to three digits, dots between them) followed by a delimiter, a
    field and a delimiter, and nothing for any other line, so nothing for
    a line that contains no address.  A line made of an address, a
    delimiter, a field, a delimiter and a field gives the record of these
    three; the line 10.0.0.5;user1;pass1 gives 10.0.0.5, user1, pass1.
    The lines are those of the text: two texts joined by a line boundary
    give the records of the first and then those of the second, and a
    text of lines, each ended by a line feed, gives what its lines give
    one after the other; three lines, the second of which holds no
    address, give the records of the first and of the third. *)
Theorem parse_ssh_file_one_record_per_line :
  (forall file_content,
     parse_ssh_file file_content
     = concat (parse_line <$> splitlines file_content)) /\
  (forall line, has_pattern line -> exists r, parse_line line = [r]) /\
  (forall line, ~ has_pattern line -> parse_line line = []) /\
  (forall line, ~ contains_ip line -> parse_line line = []) /\
  (forall a d1 u d2 p,
     ip_shaped a -> is_delimiter d1 = true -> free u ->
     is_delimiter d2 = true -> free p ->
     parse_line (a ++ d1 :: u ++ d2 :: p)
     = [mk_ssh_info (Some a) (Some u) (Some p)]) /\
  (forall line r,
     Forall (fun c => is_line_boundary c = false) line ->
     parse_line line = [r] -> parse_ssh_file line = [r]) /\
  parse_ssh_file (text "10.0.0.5;user1;pass1")
  = [mk_ssh_info (Some (text "10.0.0.5")) (Some (text "user1"))
                 (Some (text "pass1"))] /\
  (forall c a b,
     is_line_boundary c = true ->
     parse_ssh_file (a ++ c :: b) = parse_ssh_file a ++ parse_ssh_file b) /\
  (forall lines,
     Forall (Forall (fun c => is_line_boundary c = false)) lines ->
     parse_ssh_file (concat ((fun line => line ++ [10%N]) <$> lines))
     = concat (parse_line <$> lines)) /\
  (forall file_content line,
     line ∈ splitlines file_content ->
     Forall (fun c => is_line_boundary c = false) line) /\
  parse_ssh_file
    (text "10.0.0.5;user1;pass1" ++ [13; 10]%N ++ text "no address here"
       ++ [10]%N ++ text "10.0.0.6,user2|pass2")
  = [mk_ssh_info (Some (text "10.0.0.5")) (Some (text "user1"))
                 (Some (text "pass1"));
     mk_ssh_info (Some (text "10.0.0.6")) (Some (text "user2"))
                 (Some (text "pass2"))].
Proof.
  split; [exact parse_ssh_file_lines|].
  split; [intros line; apply parse_line_has_pattern|].
  split.
  { intros line Hno. destruct (parse_line_cases line) as [|Hr]; [done|].
    by apply parse_line_has_pattern in Hr. }
  split; [exact parse_line_no_ip|].
  split.
  { intros a d1 u d2 p Ha Hd1 Hu Hd2 Hp.
    pose proof (parse_line_exact a d1 u d2 p [] Ha Hd1 Hu Hd2 Hp I) as H.
    by rewrite app_nil_r in H. }
  split.
  { intros line r Hline Hr. rewrite parse_ssh_file_lines.
    rewrite splitlines_one_line; [|done|by intros ->].
    simpl. by rewrite Hr. }
  split; [by vm_compute|].
  split; [exact parse_ssh_file_boundary|].
  split; [exact parse_text_of_lines|].
  split; [exact splitlines_lines_one_line|].
  by vm_compute.
Qed.

(** C10.  Only the shape of the address is checked, and only the part of
    the line the pattern matches is read: the line 999.999.999.999;u;p
    gives the record 999.999.999.999, u, p; text before the leftmost
    match (any text that no match starts in, such as text without a
    digit) is ignored, and so is what follows the third field from its
    first delimiter on. *)
Theorem parse_ssh_file_checks_shape_only :
  parse_ssh_file (text "999.999.999.999;u;p")
  = [mk_ssh_info (Some (text "999.999.999.999")) (Some (text "u"))
                 (Some (text "p"))] /\
  (forall pre s,
     (forall i, i < length pre -> run pattern (drop i (pre ++ s)) [] = []) ->
     parse_line (pre ++ s) = parse_line s) /\
  (forall pre a d1 u d2 p rest,
     Forall (fun c => is_digit c = false) pre ->
     ip_shaped a -> is_delimiter d1 = true -> free u ->
     is_delimiter d2 = true -> free p -> field_ends rest ->
     parse_line (pre ++ a ++ d1 :: u ++ d2 :: p ++ rest)
     = [mk_ssh_info (Some a) (Some u) (Some p)]) /\
  parse_ssh_file (text "host 999.999.999.999;u;p;seen 2021-03-04")
  = [mk_ssh_info (Some (text "999.999.999.999")) (Some (text "u"))
                 (Some (text "p"))].
Proof.
  split; [by vm_compute|].
  split.
  { intros pre s H. unfold parse_line. by rewrite re_search_prefix. }
  split; [|by vm_compute].
  intros pre a d1 u d2 p rest Hpre Ha Hd1 Hu Hd2 Hp Hrest.
  rewrite parse_line_prefix by done. by apply parse_line_exact.
Qed.
End parse_facts.

(** ** [get_proxy_ip] *)

Section get_proxy_ip_facts.
Import Utils UtilsSpec.

Lemma probe_caught a : attempt_caught a -> caught (probe a).
Proof.
  intros (He & Hi & Hs & Hx). unfold probe.
  destruct (session_enter a) as [e|]; [exact He|].
  destruct (session_exit a) as [e|]; [exact Hx|].
  destruct (ipify a) as [t|e]; [exact I|].
  simpl in Hi. by rewrite Hi.
Qed.

Lemma probe_falls_back a e :
  session_enter a = None -> session_exit a = None ->
  ipify a = Raise e -> is_Exception e = true ->
  probe a = seeip a.
Proof. unfold probe. by intros -> -> -> ->. Qed.

Lemma get_proxy_ip_from net addr (n : nat) : forall depth k,
  n < depth ->
  (forall j, j <= n -> attempt_caught (net addr (k + j))) ->
  exists ip_text,
    get_proxy_ip depth net k addr (Z.of_nat n) = Return ip_text /\
    ((forall j, j <= n -> failed (probe (net addr (k + j)))) -> ip_text = []) /\
    (forall j t, j <= n -> probe (net addr (k + j)) = Return t ->
       (forall i, i < j -> failed (probe (net addr (k + i)))) -> ip_text = t).
Proof.
  induction n as [|n IH]; intros depth k Hd Hc.
  - destruct depth as [|depth]; [lia|]. simpl.
    pose proof (probe_caught _ (Hc 0 (Nat.le_refl _))) as Hp.
    rewrite Nat.add_0_r in Hp.
    destruct (probe (net addr k)) as [t|e] eqn:Ep.
    + exists t. split; [done|]. split.
      * intros Hf. specialize (Hf 0 (Nat.le_refl _)).
        rewrite Nat.add_0_r, Ep in Hf. done.
      * intros j t' Hj. assert (j = 0) as -> by lia.
        rewrite Nat.add_0_r, Ep. by intros [= ->].
    + simpl in Hp. rewrite Hp. exists []. split; [done|]. split; [done|].
      intros j t' Hj. assert (j = 0) as -> by lia.
      rewrite Nat.add_0_r, Ep. done.
  - destruct depth as [|depth]; [lia|]. simpl get_proxy_ip.
    pose proof (probe_caught _ (Hc 0 ltac:(lia))) as Hp.
    rewrite Nat.add_0_r in Hp.
    destruct (probe (net addr k)) as [t|e] eqn:Ep.
    + exists t. split; [done|]. split.
      * intros Hf. specialize (Hf 0 ltac:(lia)).
        rewrite Nat.add_0_r, Ep in Hf. done.
      * intros j t' Hj Hjt Hlt. destruct j as [|j].
        -- rewrite Nat.add_0_r, Ep in Hjt. by injection Hjt.
        -- specialize (Hlt 0 ltac:(lia)). rewrite Nat.add_0_r, Ep in Hlt. done.
    + simpl in Hp. rewrite Hp.
      replace (Z.of_nat (S n) =? 0)%Z with false by (symmetry; apply Z.eqb_neq; lia).
      replace (Z.of_nat (S n) - 1)%Z with (Z.of_nat n) by lia.
      destruct (IH depth (S k)) as (ip_text & Hrun & Hnone & Hfirst).
      * lia.
      * intros j Hj. replace (S k + j) with (k + S j) by lia. apply Hc. lia.
      * exists ip_text. split; [done|]. split.
        -- intros Hf. apply Hnone. intros j Hj.
           replace (S k + j) with (k + S j) by lia. apply Hf. lia.
        -- intros j t Hj Hjt Hlt. destruct j as [|j].
           ++ rewrite Nat.add_0_r, Ep in Hjt. done.
           ++ apply (Hfirst j t); [lia| |].
              ** by replace (S k + j) with (k + S j) by lia.
              ** intros i Hi. replace (S k + i) with (k + S i) by lia.
                 apply Hlt. lia.
Qed.


End get_proxy_ip_facts.

(** ** [get_first_success] *)

Section get_first_success_facts.
Import Utils UtilsSpec.
Context {T : Type}.
Implicit Types (completed fails rest : list (completion T)) (value : T)
  (pending : nat).

Lemma first_success_loop_skips exception fails value rest pending :
  Forall ordinary_failure fails ->
  first_success_loop exception (fails ++ Succeeded value :: rest) pending
  = Returned value.
Proof.
  intros H. revert exception.
  induction H as [|c fails (e & -> & He) _ IH]; intros exception; simpl.
  - done.
  - rewrite He. apply IH.
Qed.

(** The first operation to succeed gives the result, whatever ended
    before it with a failure the loop catches. *)
Lemma get_first_success_returns fails value rest pending :
  Forall ordinary_failure fails ->
  get_first_success (fails ++ Succeeded value :: rest) pending = Returned value.
Proof. apply first_success_loop_skips. Qed.

(** [fail, fail, succeed(X)] in any order of completion. *)
Lemma get_first_success_any_order e1 e2 (X : T) completed :
  is_Exception e1 = true -> is_Exception e2 = true ->
  completed ≡ₚ [Failed e1; Failed e2; Succeeded X] ->
  get_first_success completed 0 = Returned X.
Proof.
  intros H1 H2 Hp.
  assert (Hin : Succeeded X ∈ completed) by (rewrite Hp; repeat constructor).
  assert (Hall : forall c, c ∈ completed -> c = Succeeded X \/ ordinary_failure c).
  { intros c. rewrite Hp. rewrite !elem_of_cons, elem_of_nil.
    unfold ordinary_failure. intros [-> | [-> | [-> | []]]]; eauto. }
  unfold get_first_success. generalize (@None exn).
  clear Hp. induction completed as [|c l IH]; intros exception.
  - by apply elem_of_nil in Hin.
  - destruct (Hall c) as [-> | (e & -> & He)]; [by left|done|].
    simpl. rewrite He. apply IH.
    + apply elem_of_cons in Hin as [|]; [done|done].
    + intros c' Hc'. apply Hall. by right.
Qed.

(** When every operation fails with a failure the loop catches, the last
    one observed is raised. *)
Lemma get_first_success_all_fail fails e :
  Forall ordinary_failure fails -> is_Exception e = true ->
  get_first_success (fails ++ [Failed e]) 0 = Raised e.
Proof.
  intros H He. unfold get_first_success. generalize (@None exn).
  induction H as [|c fails (e' & -> & He') _ IH]; intros exception; simpl.
  - rewrite He. by destruct e.
  - rewrite He'. apply IH.
Qed.

(** A cancellation is not caught by the loop: it leaves the function as it
    is, and the operations after it are not looked at. *)
Lemma get_first_success_cancelled fails rest pending :
  Forall ordinary_failure fails ->
  get_first_success (fails ++ Failed CancelledError :: rest) pending
  = Raised CancelledError.
Proof.
  intros H. unfold get_first_success. generalize (@None exn).
  induction H as [|c fails (e' & -> & He') _ IH]; intros exception; simpl.
  - done.
  - rewrite He'. apply IH.
Qed.

(** The branch that raises the timeout is never taken. *)
Lemma get_first_success_never_timeout completed pending :
  get_first_success completed pending = Raised TimeoutError ->
  exists fails rest, completed = fails ++ Failed TimeoutError :: rest.
Proof.
  unfold get_first_success.
  assert (forall exception,
    (forall e, exception = Some e -> is_Exception e = true) ->
    first_success_loop exception completed pending = Raised TimeoutError ->
    exception = Some TimeoutError \/
    exists fails rest, completed = fails ++ Failed TimeoutError :: rest) as H.
  { induction completed as [|[v|e] l IH]; intros exception Hx; simpl.
    - destruct pending; [|done]. destruct exception as [e|]; [|done].
      specialize (Hx e eq_refl).
      destruct (is_CancelledError e) eqn:Hc; simpl.
      + by destruct e.
      + intros [= ->]. by left.
    - done.
    - destruct (is_Exception e) eqn:He.
      + intros Hr. apply IH in Hr as [[= ->] | (fails & rest & ->)].
        * right. by exists [], l.
        * right. by exists (Failed e :: fails), rest.
        * by intros ? [= <-].
      + intros [= ->]. done. }
  intros Heq. apply H in Heq as [? | ?]; done.
Qed.
End get_first_success_facts.

(** C3, at the input where the code departs from it.  Over one operation
    that ends cancelled, [get_first_success] raises the cancellation as it
    is, and not the timeout the claim and the last lines of the function
    call for: the loop's [except Exception] does not catch a
    [CancelledError], so the test after the loop never sees one. *)
Theorem get_first_success_cancelled_alone (T : Type) :
  Utils.get_first_success (T:=T) [Utils.Failed CancelledError] 0
  = Utils.Raised CancelledError /\
  Utils.get_first_success (T:=T) [Utils.Failed CancelledError] 0
  <> Utils.Raised TimeoutError.
Proof. split; [reflexivity | discriminate]. Qed.

(* ===================================================================== *)
(** * Facts about models/models.py *)
(* ===================================================================== *)

Section wp_rules.
Import Models ModelsSpec.
Context {A B : Type}.
Implicit Types (Q : A -> World -> Prop) (E : exn -> Prop) (w : World).

Lemma wp_bind (m : M A) (f : A -> M B) (R : B -> World -> Prop) E w :
  wp m (fun a w' => wp (f a) R E w') E w -> wp (m ≫= f) R E w.
Proof.
  unfold wp, mbind, M_bind. destruct (m w) as [[a w']|e]; auto.
Qed.

Lemma wp_ret (a : A) Q E w : Q a w -> wp (mret a) Q E w.
Proof. auto. Qed.

Lemma wp_raise e Q E w : E e -> wp (raise e) Q E w.
Proof. auto. Qed.

Lemma wp_mono (m : M A) Q Q' E w :
  wp m Q E w -> (forall a w', Q a w' -> Q' a w') -> wp m Q' E w.
Proof.
  unfold wp. destruct (m w) as [[a w']|e]; auto.
Qed.

Lemma wp_returned (m : M A) Q E w a w' :
  wp m Q E w -> m w = Return (a, w') -> Q a w'.
Proof. unfold wp. intros H Hr. by rewrite Hr in H. Qed.

Lemma wp_total (m : M A) Q w :
  wp m Q no_exn w -> exists a w', m w = Return (a, w') /\ Q a w'.
Proof.
  unfold wp. destruct (m w) as [[a w']|e]; [eauto | done].
Qed.

End wp_rules.

Section primitives.
Import Models ModelsSpec.
Implicit Types (E : exn -> Prop) (w : World).

Lemma wp_modify_world f (Q : unit -> World -> Prop) E w :
  Q tt (f w) -> wp (modify_world f) Q E w.
Proof. auto. Qed.

Lemma wp_get_world (Q : World -> World -> Prop) E w :
  Q w w -> wp get_world Q E w.
Proof. auto. Qed.

Lemma wp_datetime_now (Q : Time -> World -> Prop) E w :
  Q (clock w (ticks w)) (with_ticks (S (ticks w)) w) -> wp datetime_now Q E w.
Proof. auto. Qed.

Lemma wp_load_Port self (Q : Port -> World -> Prop) E w :
  (forall p, Port_table w !! self = Some p -> Q p w) ->
  (Port_table w !! self = None -> E ObjectNotFound) ->
  wp (load_Port self) Q E w.
Proof.
  unfold wp, load_Port. destruct (Port_table w !! self); auto.
Qed.

Lemma wp_load_SSH self (Q : SSH -> World -> Prop) E w :
  (forall s, SSH_table w !! self = Some s -> Q s w) ->
  (SSH_table w !! self = None -> E ObjectNotFound) ->
  wp (load_SSH self) Q E w.
Proof.
  unfold wp, load_SSH. destruct (SSH_table w !! self); auto.
Qed.

Lemma marked_tables e w :
  SSH_table (marked e w) = SSH_table w /\
  Port_table (marked e w) = Port_table w /\
  used (marked e w) = used w /\
  clock (marked e w) = clock w /\
  ticks (marked e w) = ticks w /\
  ipv4_address (marked e w) = ipv4_address w.
Proof. unfold marked. by case_decide. Qed.

Lemma marked_SSH_table e w : SSH_table (marked e w) = SSH_table w.
Proof. apply marked_tables. Qed.
Lemma marked_Port_table e w : Port_table (marked e w) = Port_table w.
Proof. apply marked_tables. Qed.
Lemma marked_used e w : used (marked e w) = used w.
Proof. apply marked_tables. Qed.
Lemma marked_clock e w : clock (marked e w) = clock w.
Proof. apply marked_tables. Qed.
Lemma marked_ticks e w : ticks (marked e w) = ticks w.
Proof. apply marked_tables. Qed.
Lemma marked_ipv4_address e w : ipv4_address (marked e w) = ipv4_address w.
Proof. apply marked_tables. Qed.

Lemma marked_fresh e w : dirty w = [] -> marked e w = with_dirty [e] w.
Proof.
  intros H. unfold marked. rewrite H.
  rewrite decide_False; [done | apply not_elem_of_nil].
Qed.

Lemma marked_again e w : dirty w = [e] -> marked e w = w.
Proof.
  intros H. unfold marked. rewrite H. rewrite decide_True; [done | by left].
Qed.

Lemma marked_dirty e w x : x ∈ dirty w -> x ∈ dirty (marked e w).
Proof.
  unfold marked. case_decide; [done|]. simpl. intros. apply elem_of_app. by left.
Qed.

Lemma marked_dirty_self e w : e ∈ dirty (marked e w).
Proof.
  unfold marked. case_decide; [done|]. simpl. apply elem_of_app. right. by left.
Qed.

Lemma wp_write_Port self f (Q : unit -> World -> Prop) E w :
  (forall p, Port_table w !! self = Some p ->
     Q tt (marked (EPort self)
             (with_Port_table (<[self := f p]> (Port_table w)) w))) ->
  (Port_table w !! self = None -> E ObjectNotFound) ->
  wp (write_Port self f) Q E w.
Proof.
  intros HQ HE. unfold write_Port.
  apply wp_bind, wp_load_Port; [|done].
  intros p Hp. apply wp_bind, wp_modify_world. by apply HQ.
Qed.

Lemma wp_write_SSH self f (Q : unit -> World -> Prop) E w :
  (forall s, SSH_table w !! self = Some s ->
     Q tt (marked (ESSH self)
             (with_SSH_table (<[self := f s]> (SSH_table w)) w))) ->
  (SSH_table w !! self = None -> E ObjectNotFound) ->
  wp (write_SSH self f) Q E w.
Proof.
  intros HQ HE. unfold write_SSH.
  apply wp_bind, wp_load_SSH; [|done].
  intros s Hs. apply wp_bind, wp_modify_world. by apply HQ.
Qed.

Lemma Model_saved_is_checking w m :
  is_checking (Model_saved w m) = is_checking m.
Proof. unfold Model_saved. by destruct (is_checking m) eqn:E. Qed.

Lemma wp_Model_before_update m (Q : Model -> World -> Prop) E w :
  Q (Model_saved w m)
    (with_ticks (ticks w + if is_checking m then 2 else 1) w) ->
  wp (Model_before_update m) Q E w.
Proof.
  unfold wp, Model_before_update, Model_saved, mbind, M_bind, datetime_now.
  simpl. destruct (is_checking m); simpl; intros H.
  - replace (ticks w + 2) with (S (S (ticks w))) in H by lia. exact H.
  - replace (ticks w + 1) with (S (ticks w)) in H by lia. exact H.
Qed.

Lemma elem_of_history w port s : s ∈ history w port <-> (port, s) ∈ used w.
Proof.
  unfold history. rewrite elem_of_map. split.
  - intros ([q s'] & -> & [Hq Hin]%elem_of_filter). simpl in *. by subst.
  - intros H. exists (port, s). split; [done|]. by apply elem_of_filter.
Qed.

Lemma elem_of_ports_of w s port : port ∈ ports_of w s <-> (port, s) ∈ used w.
Proof.
  unfold ports_of. rewrite elem_of_map. split.
  - intros ([q s'] & -> & [Hq Hin]%elem_of_filter). simpl in *. by subst.
  - intros H. exists (port, s). split; [done|]. by apply elem_of_filter.
Qed.

Lemma history_used w w' port : used w' = used w -> history w' port = history w port.
Proof. unfold history. by intros ->. Qed.
End primitives.

(** ** The update hooks *)

Create Rewrite HintDb world.
#[global] Hint Rewrite marked_SSH_table marked_Port_table marked_used
  marked_clock marked_ticks marked_ipv4_address : world.

Ltac world_simpl := repeat (progress (simpl in *; autorewrite with world in * )).

Ltac world_done := unfold ModelsSpec.frame; world_simpl; done.

(** The first statement of a sequence. *)
Ltac wp_seq :=
  lazymatch goal with
  | |- ModelsSpec.wp (_ ≫= _) _ _ _ => apply wp_bind
  | |- _ => idtac
  end.

(** One step of a method: a read or a write of a row. *)
Ltac wp_load :=
  wp_seq;
  first [apply wp_load_Port | apply wp_load_SSH];
  [ let q := fresh "p" in let H := fresh "Hload" in
    intros q H; world_simpl; simplify_map_eq
  | intros; world_simpl; simplify_map_eq; try done ].

Ltac wp_write :=
  wp_seq;
  first [apply wp_write_Port | apply wp_write_SSH];
  [ let q := fresh "p" in let H := fresh "Hload" in
    intros q H; world_simpl; simplify_map_eq; world_simpl
  | intros; world_simpl; simplify_map_eq; try done ].

Section hooks.
Import Models ModelsSpec.
Implicit Types (E : exn -> Prop) (w : World).

Lemma wp_Port_update_time_connected self p (Q : unit -> World -> Prop) E w :
  Port_table w !! self = Some p ->
  (forall w' now,
     frame w w' -> SSH_table w' = SSH_table w -> used w' = used w ->
     Port_table w'
     = <[self := with_time_connected
                   (if is_connected p
                    then Some (default now (time_connected p)) else None) p]>
         (Port_table w) ->
     Q tt w') ->
  wp (Port_update_time_connected self) Q E w.
Proof.
  intros Hp HQ. unfold Port_update_time_connected. wp_load.
  destruct (is_connected p) eqn:Hc.
  - destruct (time_connected p) as [t|] eqn:Ht.
    + wp_write. apply (HQ _ 0%Z); world_done.
    + wp_seq. apply wp_datetime_now. wp_write.
      apply (HQ _ (clock w (ticks w))); world_done.
  - wp_write. apply (HQ _ 0%Z); world_done.
Qed.

Lemma wp_Port_update_used_ssh self p (Q : unit -> World -> Prop) E w :
  Port_table w !! self = Some p ->
  (forall w',
     frame w w' -> SSH_table w' = SSH_table w ->
     Port_table w' = Port_table w ->
     used w' = (if is_connected p then
                  match ssh p with
                  | Some s => {[ (self, s) ]} ∪ used w
                  | None => used w
                  end
                else used w) ->
     Q tt w') ->
  wp (Port_update_used_ssh self) Q E w.
Proof.
  intros Hp HQ. unfold Port_update_used_ssh. wp_load.
  destruct (is_connected p) eqn:Hc; [|apply wp_ret, HQ; world_done].
  destruct (ssh p) as [s|] eqn:Hs; [|apply wp_ret, HQ; world_done].
  apply wp_bind. unfold used_ssh_list, wp at 1.
  case_decide as Hin.
  - apply wp_modify_world, HQ; world_done.
  - apply wp_ret, HQ; try world_done.
    apply elem_of_history in Hin.
    apply set_eq. intros x. rewrite elem_of_union, elem_of_singleton.
    split; [by right | by intros [->|]].
Qed.

Lemma wp_Port_update_proxy_address self p (Q : unit -> World -> Prop) E w :
  Port_table w !! self = Some p ->
  (forall w',
     frame w w' -> SSH_table w' = SSH_table w -> used w' = used w ->
     Port_table w'
     = <[self := with_proxy_address
                   ("socks5://" +:+ ipv4_address w +:+ ":" +:+
                    pretty (port_number p)) p]> (Port_table w) ->
     Q tt w') ->
  wp (Port_update_proxy_address self) Q E w.
Proof.
  intros Hp HQ. unfold Port_update_proxy_address.
  apply wp_bind. unfold get_ipv4_address, wp at 1. wp_load. wp_write.
  apply HQ; world_done.
Qed.

(** The update hook of a port that exists returns, with this effect. *)
Lemma wp_Port_before_update self p (Q : unit -> World -> Prop) E w :
  Port_table w !! self = Some p ->
  (forall w' p' now, Port_hook_post self p w w' p' now -> Q tt w') ->
  wp (Port_before_update self) Q E w.
Proof.
  intros Hp HQ. unfold Port_before_update.
  wp_load. apply wp_bind, wp_Model_before_update. wp_write.
  apply wp_bind.
  eapply wp_Port_update_time_connected; [world_simpl; by simplify_map_eq|].
  intros w1 now [Hclk1 Hip1] Hssh1 Hused1 Hpt1. world_simpl.
  apply wp_bind.
  eapply wp_Port_update_used_ssh; [rewrite Hpt1; by simplify_map_eq|].
  intros w2 [Hclk2 Hip2] Hssh2 Hpt2 Hused2. world_simpl.
  eapply wp_Port_update_proxy_address;
    [rewrite Hpt2, Hpt1; by simplify_map_eq|].
  intros w3 [Hclk3 Hip3] Hssh3 Hused3 Hpt3. world_simpl.
  eapply (HQ w3 _ now). split.
  - split; congruence.
  - rewrite Hpt3, Hpt2, Hpt1. by rewrite !insert_insert_eq.
  - congruence.
  - simpl. apply Model_saved_is_checking.
  - done.
  - done.
  - done.
  - done.
  - done.
  - done.
  - rewrite Hused3, Hused2, Hused1. done.
  - simpl. by rewrite Hip2, Hip1.
Qed.
End hooks.

(** ** What the body of a method keeps *)

Section invariant.
Import Models ModelsSpec.
Implicit Types (E : exn -> Prop) (w : World).

Lemma keeps_refl target w : keeps target w w.
Proof.
  split; [done|]. intros q p p' Hp Hp' _. by simplify_eq.
Qed.

Lemma keeps_trans target w1 w2 w3 :
  keeps target w1 w2 -> keeps target w2 w3 -> keeps target w1 w3.
Proof.
  intros [Hd1 Hi1] [Hd2 Hi2]. split.
  - intros q. by rewrite Hd2, Hd1.
  - intros q p p' Hp Hp' Hq Hinv.
    destruct (proj1 (Hd2 q)) as [p2 Hp2]; [by eexists|].
    eapply Hi2; eauto.
Qed.

Lemma keeps_tables target w w' :
  Port_table w' = Port_table w -> keeps target w w'.
Proof.
  intros H. split; [by rewrite H|]. rewrite H.
  intros q p p' Hp Hp' _. by simplify_eq.
Qed.

Lemma keeps_insert target w w' x p0 (f : Port -> Port) :
  Port_table w !! x = Some p0 ->
  Port_table w' = <[x := f p0]> (Port_table w) ->
  (Some x = target \/ (port_inv p0 -> port_inv (f p0))) ->
  keeps target w w'.
Proof.
  intros Hx Ht Hf. split.
  - intros q. rewrite Ht. destruct (decide (x = q)) as [->|Hne].
    + rewrite lookup_insert_eq, Hx. split; by eauto.
    + by rewrite lookup_insert_ne.
  - intros q p p' Hp Hp' Hq. rewrite Ht in Hp'.
    destruct (decide (x = q)) as [->|Hne].
    + rewrite lookup_insert_eq in Hp'. simplify_eq.
      destruct Hf as [|Hf]; [done|exact Hf].
    + rewrite lookup_insert_ne in Hp' by done. by simplify_eq.
Qed.

Lemma body_rel_refl target w : body_rel target w w.
Proof. split; [apply keeps_refl | done]. Qed.

Lemma body_rel_trans target w1 w2 w3 :
  body_rel target w1 w2 -> body_rel target w2 w3 -> body_rel target w1 w3.
Proof.
  intros [Hk1 Hd1] [Hk2 Hd2]. split; [by eapply keeps_trans | auto].
Qed.

Lemma body_pre_ret {A} target (a : A) : body_pre target (mret a).
Proof. intros w. apply wp_ret, body_rel_refl. Qed.

Lemma body_pre_bind {A B} target (m : M A) (f : A -> M B) :
  body_pre target m -> (forall a, body_pre target (f a)) ->
  body_pre target (m ≫= f).
Proof.
  intros Hm Hf w. apply wp_bind. eapply wp_mono; [apply Hm|].
  intros a w1 H1. eapply wp_mono; [apply Hf|].
  intros b w2 H2. exact (body_rel_trans _ _ _ _ H1 H2).
Qed.

Lemma body_ok_bind_r {A B} target (m : M A) (f : A -> M B) :
  body_pre (Some target) m -> (forall a, body_ok target (f a)) ->
  body_ok target (m ≫= f).
Proof.
  intros Hm Hf w. apply wp_bind. eapply wp_mono; [apply Hm|].
  intros a w1 H1. eapply wp_mono; [apply Hf|].
  intros b w2 [H2 Hd]. split; [exact (body_rel_trans _ _ _ _ H1 H2) | done].
Qed.

Lemma body_ok_bind_l {A B} target (m : M A) (f : A -> M B) :
  body_ok target m -> (forall a, body_pre (Some target) (f a)) ->
  body_ok target (m ≫= f).
Proof.
  intros Hm Hf w. apply wp_bind. eapply wp_mono; [apply Hm|].
  intros a w1 [H1 Hd]. eapply wp_mono; [apply Hf|].
  intros b w2 H2. split; [exact (body_rel_trans _ _ _ _ H1 H2) | by apply H2].
Qed.

Lemma body_pre_for_each {X} target (f : X -> M unit) l :
  (forall x, body_pre target (f x)) -> body_pre target (for_each f l).
Proof.
  intros Hf. induction l as [|x l IH]; simpl.
  - apply body_pre_ret.
  - apply body_pre_bind; [apply Hf | by intros _].
Qed.

Lemma body_pre_write_Port target x f :
  (Some x = target \/ forall p, port_inv p -> port_inv (f p)) ->
  body_pre target (write_Port x f).
Proof.
  intros Hf w. apply wp_write_Port; [|done].
  intros p Hp. split.
  - eapply keeps_insert; [exact Hp | by world_simpl |].
    destruct Hf as [Hf|Hf]; [by left | right; apply Hf].
  - intros e He. by apply marked_dirty.
Qed.

Lemma body_ok_write_Port target f : body_ok target (write_Port target f).
Proof.
  intros w. apply wp_write_Port; [|done].
  intros p Hp. split; [split|].
  - eapply keeps_insert; [exact Hp | by world_simpl | by left].
  - intros e He. by apply marked_dirty.
  - apply marked_dirty_self.
Qed.

Lemma body_pre_write_SSH target x f : body_pre target (write_SSH x f).
Proof.
  intros w. apply wp_write_SSH; [|done].
  intros s Hs. split.
  - apply keeps_tables. by world_simpl.
  - intros e He. by apply marked_dirty.
Qed.

Lemma body_pre_modify_used (target : option Id)
    (f : World -> gset (Id * Id)) :
  body_pre target (modify_world (fun w => with_used (f w) w)).
Proof.
  intros w. apply wp_modify_world. split; [by apply keeps_tables | done].
Qed.

Lemma port_inv_with_ssh v p : port_inv p -> port_inv (with_ssh v p).
Proof. done. Qed.

Lemma body_pre_Port_set_ssh target v :
  body_pre (Some target) (Port_set_ssh target v).
Proof.
  unfold Port_set_ssh. apply body_pre_bind.
  - destruct v; [|apply body_pre_ret].
    intros w. unfold SSH_port, wp. apply body_rel_refl.
  - intros previous. apply body_pre_bind.
    + apply body_pre_write_Port. by left.
    + intros _. destruct previous as [q|]; [|apply body_pre_ret].
      case_decide; [apply body_pre_ret|].
      apply body_pre_write_Port. right. intros p. apply port_inv_with_ssh.
Qed.

Lemma body_pre_Port_setattr target kw :
  body_pre (Some target) (Port_setattr target kw).
Proof.
  destruct kw; simpl; unfold Port_set_base;
    first [apply body_pre_Port_set_ssh | apply body_pre_write_Port; by left].
Qed.

Lemma body_pre_SSH_setattr self kw : body_pre None (SSH_setattr self kw).
Proof.
  destruct kw; simpl; unfold SSH_set_base; apply body_pre_write_SSH.
Qed.
End invariant.

(** ** Sessions *)

Section sessions.
Import Models ModelsSpec.
Implicit Types (E : exn -> Prop) (w : World).

Lemma holder_Port_table w w' s :
  Port_table w' = Port_table w -> holder w' s = holder w s.
Proof. unfold holder. by intros ->. Qed.

Lemma holder_Some w s q :
  holder w s = Some q -> exists p, Port_table w !! q = Some p /\ ssh p = Some s.
Proof.
  unfold holder. intros H. apply fmap_Some in H as ([q' p] & Hh & ->).
  apply head_Some_elem_of in Hh.
  apply list_elem_of_filter in Hh as [Hs Hin]. apply elem_of_map_to_list in Hin.
  by exists p.
Qed.

(** The update hook of a credential that exists returns, with this
    effect. *)
Lemma wp_SSH_before_update self s (Q : unit -> World -> Prop) E w :
  SSH_table w !! self = Some s ->
  (forall w' s', SSH_hook_post self s w w' s' -> Q tt w') ->
  wp (SSH_before_update self) Q E w.
Proof.
  intros Hs HQ. unfold SSH_before_update.
  wp_load. wp_seq. apply wp_Model_before_update. wp_write.
  apply wp_bind. unfold SSH_port at 1, wp at 1.
  rewrite (holder_Port_table w) by world_done.
  set (s' := with_ssh_base _ s).
  assert (Hpost : forall w' u,
    frame w w' -> SSH_table w' = <[self := s']> (SSH_table w) ->
    Port_table w' = Port_table w -> used w' = u ->
    u = match holder w self with
        | Some q => {[ (q, self) ]} ∪ used w
        | None => used w
        end -> Q tt w').
  { intros w' u Hf Hst Hpt Hu ->. apply (HQ w' s'). split; try done.
    apply Model_saved_is_checking. }
  destruct (holder w self) as [q|] eqn:Hq.
  - apply wp_bind. unfold used_ports at 1, wp at 1. case_decide as Hin.
    + apply wp_modify_world. eapply Hpost; world_done.
    + apply wp_ret. eapply Hpost; try world_done.
      apply elem_of_ports_of in Hin. world_simpl.
      apply set_eq. intros x. rewrite elem_of_union, elem_of_singleton.
      split; [by right | by intros [->|]].
  - apply wp_ret. eapply Hpost; world_done.
Qed.

Lemma Port_hook_post_inv self p w w' p' now :
  Port_hook_post self p w w' p' now -> port_inv p'.
Proof.
  intros H. unfold port_inv.
  rewrite (php_time_connected _ _ _ _ _ _ H), (php_is_connected _ _ _ _ _ _ H).
  destruct (is_connected p); split; try done; by intros [? ?].
Qed.

(** A hook keeps the invariant of every port, and gives it to the port it
    is the hook of. *)
Lemma wp_before_update_keeps e w :
  wp (before_update e)
     (fun _ w' =>
        keeps None w w' /\
        forall t, e = EPort t ->
          exists p', Port_table w' !! t = Some p' /\ port_inv p')
     any_exn w.
Proof.
  destruct e as [i|i]; simpl.
  - destruct (Port_table w !! i) as [p|] eqn:Hp.
    + eapply wp_Port_before_update; [exact Hp|].
      intros w' p' now Hpost.
      pose proof (Port_hook_post_inv _ _ _ _ _ _ Hpost) as Hinv.
      split.
      * eapply (keeps_insert None w w' i p (fun _ => p')); [done| |by right].
        apply (php_Port_table _ _ _ _ _ _ Hpost).
      * intros t [= <-]. exists p'. split; [|done].
        rewrite (php_Port_table _ _ _ _ _ _ Hpost). apply lookup_insert_eq.
    + unfold Port_before_update. apply wp_bind, wp_load_Port; [|done].
      intros p. congruence.
  - destruct (SSH_table w !! i) as [s|] eqn:Hs.
    + eapply wp_SSH_before_update; [exact Hs|].
      intros w' s' Hpost. split; [|done].
      apply keeps_tables, (shp_Port_table _ _ _ _ _ Hpost).
    + unfold SSH_before_update. apply wp_bind, wp_load_SSH; [|done].
      intros s. congruence.
Qed.

Lemma wp_hooks_keep l : forall w,
  wp (for_each before_update l)
     (fun _ w' =>
        keeps None w w' /\
        forall t, EPort t ∈ l ->
          exists p', Port_table w' !! t = Some p' /\ port_inv p')
     any_exn w.
Proof.
  induction l as [|e l IH]; intros w; simpl.
  - apply wp_ret. split; [apply keeps_refl|]. by intros t ?%elem_of_nil.
  - apply wp_bind. eapply wp_mono; [apply wp_before_update_keeps|].
    intros [] w1 [Hk1 He]. eapply wp_mono; [apply IH|].
    intros [] w2 [Hk2 Hl]. split; [by eapply keeps_trans|].
    intros t [<-|Hin]%elem_of_cons; [|by apply Hl].
    destruct (He t eq_refl) as (p1 & Hp1 & Hinv1).
    destruct Hk2 as [Hd2 Hi2].
    destruct (proj2 (Hd2 t)) as [p2 Hp2]; [by eexists|].
    exists p2. split; [done|]. by eapply Hi2.
Qed.

Lemma wp_renew e (Q : unit -> World -> Prop) w :
  Q tt w -> wp (renew e) Q any_exn w.
Proof.
  intros HQ. destruct e; simpl; apply wp_bind;
    [apply wp_load_Port | apply wp_load_SSH]; try done; intros; by apply wp_ret.
Qed.

Lemma wp_renew_all objs (Q : unit -> World -> Prop) w :
  Q tt w -> wp (for_each renew objs) Q any_exn w.
Proof.
  intros HQ. induction objs as [|e objs IH]; simpl.
  - by apply wp_ret.
  - apply wp_bind, wp_renew, IH.
Qed.

(** A method whose body keeps the invariant of every port leaves, when
    it returns, every port with its invariant that had it. *)
Lemma wp_auto_renew_objects_kept {A} objs (body : M A) w :
  body_pre None body ->
  wp (auto_renew_objects objs body) (fun _ w' => kept w w') any_exn w.
Proof.
  intros Hbody. unfold auto_renew_objects.
  apply wp_bind, wp_modify_world. apply wp_bind, wp_renew_all.
  apply wp_bind. eapply wp_mono; [apply Hbody|].
  intros a w1 [Hk1 _]. simpl. apply wp_bind.
  unfold commit. apply wp_bind, wp_get_world. apply wp_bind, wp_modify_world.
  apply wp_bind. eapply wp_mono; [apply wp_hooks_keep|].
  intros [] w2 [Hk2 _]. apply wp_modify_world, wp_ret.
  intros q p p2 Hp Hinv Hp2. simpl in Hp2.
  destruct Hk1 as [Hd1' Hi1]. destruct Hk2 as [Hd2' Hi2].
  destruct (proj2 (Hd1' q)) as [p1 Hp1]; [by eexists|].
  eapply Hi2; [exact Hp1|done|done|].
  eapply Hi1; [exact Hp|done|done|done].
Qed.

(** A method on a port whose body writes the port and keeps the invariant
    of the others leaves, when it returns, every port with its invariant
    that had it, and the port with it. *)
Lemma wp_auto_renew_objects_saved {A} target objs (body : M A) w :
  body_ok target body ->
  wp (auto_renew_objects objs body) (fun _ w' => saved target w w') any_exn w.
Proof.
  intros Hbody. unfold auto_renew_objects.
  apply wp_bind, wp_modify_world. apply wp_bind, wp_renew_all.
  apply wp_bind. eapply wp_mono; [apply Hbody|].
  intros a w1 [[Hk1 _] Hd1]. simpl. apply wp_bind.
  unfold commit. apply wp_bind, wp_get_world. apply wp_bind, wp_modify_world.
  apply wp_bind. eapply wp_mono; [apply wp_hooks_keep|].
  intros [] w2 [Hk2 Hest]. apply wp_modify_world, wp_ret.
  destruct (Hest target Hd1) as (p' & Hp' & Hinv'). split.
  - by exists p'.
  - intros q p p2 Hp Hinv Hp2. simpl in Hp2.
    destruct (decide (q = target)) as [->|Hne]; [by simplify_eq|].
    destruct Hk1 as [Hd1' Hi1]. destruct Hk2 as [Hd2' Hi2].
    destruct (proj2 (Hd1' q)) as [p1 Hp1]; [by eexists|].
    eapply Hi2; [exact Hp1|done|done|].
    eapply Hi1; [exact Hp|done|congruence|done].
Qed.
End sessions.

(** ** The methods of a port, evaluated *)

(** One write of a method's body, with the list of entities to save kept
    in closed form. *)
Ltac wp_write_body :=
  wp_write; rewrite ?marked_fresh, ?marked_again by reflexivity.

Section port_methods.
Import Models ModelsSpec.
Implicit Types (E : exn -> Prop) (w : World).

(** The end of a session in which one port was written. *)
Lemma wp_commit_one self p (Q : unit -> World -> Prop) E w :
  Port_table w !! self = Some p -> dirty w = [EPort self] ->
  (forall w' p' now, Port_hook_post self p w w' p' now -> Q tt w') ->
  wp commit Q E w.
Proof.
  intros Hp Hd HQ. unfold commit.
  apply wp_bind, wp_get_world. apply wp_bind, wp_modify_world.
  rewrite Hd. simpl. apply wp_bind, wp_bind.
  eapply wp_Port_before_update; [exact Hp|].
  intros w' p' now Hpost. apply wp_ret, wp_modify_world.
  apply (HQ _ p' now). destruct Hpost. by split.
Qed.

Lemma wp_session_end {A} self p (a : A) (Q : A -> World -> Prop) E w :
  Port_table w !! self = Some p -> dirty w = [EPort self] ->
  (forall w' p' now, Port_hook_post self p w w' p' now -> Q a w') ->
  wp (commit ≫= fun _ => mret a) Q E w.
Proof.
  intros Hp Hd HQ. apply wp_bind. eapply wp_commit_one; [done|done|].
  intros w' p' now Hpost. apply wp_ret. by eapply HQ.
Qed.

Lemma wp_assign_ssh_body_None self p (Q : unit -> World -> Prop) E w :
  Port_table w !! self = Some p -> dirty w = [] ->
  (forall w1,
     Port_table w1
     = <[self := with_is_connected false (with_ssh None p)]> (Port_table w) ->
     SSH_table w1 = SSH_table w -> used w1 = used w -> frame w w1 ->
     dirty w1 = [EPort self] -> Q tt w1) ->
  wp (assign_ssh_body self None) Q E w.
Proof.
  intros Hp Hd HQ. unfold assign_ssh_body, Port_set_ssh.
  wp_seq. wp_seq. apply wp_ret. wp_seq. wp_write.
  rewrite marked_fresh by done. apply wp_ret.
  wp_write. rewrite marked_again by done.
  apply HQ; world_simpl; try done. by rewrite insert_insert_eq.
Qed.

Lemma disconnect_ssh_run self remove_from_used p w E :
  Port_table w !! self = Some p ->
  (remove_from_used = true -> is_Some (ssh p)) ->
  wp (disconnect_ssh self remove_from_used)
     (fun _ w' =>
        exists p',
          Port_table w' = <[self := p']> (Port_table w) /\
          SSH_table w' = SSH_table w /\
          ssh p' = None /\ is_connected p' = false /\
          time_connected p' = None /\
          external_ip p' = external_ip p /\
          used w' = (if remove_from_used
                     then match ssh p with
                          | Some s => used w ∖ {[ (self, s) ]}
                          | None => used w
                          end
                     else used w))
     E w.
Proof.
  intros Hp Hrem. unfold disconnect_ssh, auto_renew_objects.
  apply wp_bind, wp_modify_world. simpl for_each.
  wp_seq. wp_seq. wp_load. apply wp_ret. apply wp_ret.
  wp_seq. wp_seq.
  assert (Htail : forall w0,
    Port_table w0 = Port_table w -> SSH_table w0 = SSH_table w ->
    frame w w0 -> dirty w0 = [] ->
    wp (assign_ssh_body self None)
       (fun a w1 =>
          wp (commit ≫= fun _ => mret a)
             (fun _ w' =>
                exists p',
                  Port_table w' = <[self := p']> (Port_table w) /\
                  SSH_table w' = SSH_table w /\
                  ssh p' = None /\ is_connected p' = false /\
                  time_connected p' = None /\
                  external_ip p' = external_ip p /\
                  used w' = used w0) E w1) E w0).
  { intros w0 Hpt0 Hst0 [Hc0 Hi0] Hd0.
    eapply wp_assign_ssh_body_None; [by rewrite Hpt0|done|].
    intros w1 Hpt1 Hst1 Hu1 [Hc1 Hi1] Hd1.
    eapply wp_session_end; [rewrite Hpt1; apply lookup_insert_eq|done|].
    intros w' p' now Hpost. exists p'. destruct Hpost. simpl in *.
    rewrite php_Port_table0, Hpt1, Hpt0, insert_insert_eq.
    repeat split; try done; congruence. }
  destruct remove_from_used.
  - destruct (Hrem eq_refl) as [s Hs]. rewrite Hs.
    wp_load. rewrite Hs. simpl. apply wp_modify_world.
    eapply wp_mono; [apply Htail; world_done|].
    intros a w1 Hw1. eapply wp_mono; [exact Hw1|]. by intros.
  - apply wp_ret. eapply wp_mono; [apply Htail; world_done|].
    intros a w1 Hw1. eapply wp_mono; [exact Hw1|]. by intros.
Qed.

Lemma history_cleared w w' self :
  used w' = filter (fun ps : Id * Id => ps.1 <> self) (used w) ->
  history w' self = ∅.
Proof.
  intros H. apply set_eq. intros s. rewrite elem_of_history, H, elem_of_filter.
  split; [by intros [? _] | by intros ?%not_elem_of_empty].
Qed.

Lemma reset_status_run self p w E :
  Port_table w !! self = Some p ->
  wp (reset_status self)
     (fun _ w' =>
        exists p',
          Port_table w' = <[self := p']> (Port_table w) /\
          SSH_table w' = SSH_table w /\
          is_checking (port_base p') = false /\
          ssh p' = None /\ is_connected p' = false /\
          time_connected p' = None /\ external_ip p' = "" /\
          used w' = filter (fun ps : Id * Id => ps.1 <> self) (used w))
     E w.
Proof.
  intros Hp. unfold reset_status, auto_renew_objects.
  apply wp_bind, wp_modify_world. simpl for_each.
  wp_seq. wp_seq. wp_load. apply wp_ret. apply wp_ret.
  wp_seq. unfold Port_set_base, Port_set_ssh.
  wp_seq. wp_write. rewrite marked_fresh by done.
  wp_seq. wp_write. rewrite marked_again by done.
  wp_seq. wp_write. rewrite marked_again by done.
  wp_seq. wp_seq. apply wp_ret. wp_seq. wp_write.
  rewrite marked_again by done. apply wp_ret.
  wp_seq. wp_write. rewrite marked_again by done.
  unfold used_ssh_list_clear. apply wp_modify_world.
  eapply wp_session_end; [simpl; apply lookup_insert_eq|done|].
  intros w' p' now Hpost. exists p'. destruct Hpost. simpl in *.
  rewrite php_Port_table0, !insert_insert_eq.
  repeat split; try done; congruence.
Qed.

Lemma mark_connected_run self external_ip' p w E :
  Port_table w !! self = Some p ->
  wp (mark_connected self external_ip')
     (fun _ w' =>
        exists p' now,
          Port_table w' = <[self := p']> (Port_table w) /\
          SSH_table w' = SSH_table w /\
          ssh p' = ssh p /\ is_connected p' = true /\
          time_connected p' = Some (default now (time_connected p)) /\
          external_ip p' = external_ip' /\
          used w' = match ssh p with
                    | Some s => {[ (self, s) ]} ∪ used w
                    | None => used w
                    end)
     E w.
Proof.
  intros Hp. unfold mark_connected, Port_end_checking, auto_renew_objects.
  apply wp_bind, wp_modify_world. simpl for_each.
  wp_seq. wp_seq. wp_load. apply wp_ret. apply wp_ret.
  wp_seq. unfold Port_set, Port_set_base. simpl for_each.
  wp_seq. wp_seq. simpl Port_setattr. wp_write. rewrite marked_fresh by done.
  wp_seq. wp_write. rewrite marked_again by done. apply wp_ret.
  wp_write. rewrite marked_again by done.
  eapply wp_session_end; [simpl; apply lookup_insert_eq|done|].
  intros w' p' now Hpost. exists p', now. destruct Hpost. simpl in *.
  rewrite php_Port_table0, !insert_insert_eq.
  repeat split; try done; congruence.
Qed.

(** What [need_reset] answers, from the row of the port. *)
Lemma need_reset_value self time_expired p w :
  Port_table w !! self = Some p ->
  value (need_reset self time_expired w)
  = match ssh p with
    | None => Return false
    | Some _ =>
        match time_connected p with
        | None => Raise TypeError
        | Some t => Return (bool_decide (t < time_expired)%Z)
        end
    end.
Proof.
  intros Hp. unfold need_reset, auto_renew_objects, commit, load_Port,
    modify_world, get_world, raise, mbind, mret, M_bind, M_ret. simpl.
  unfold load_Port, mbind, mret, M_bind, M_ret. simpl.
  repeat (rewrite Hp; simpl).
  destruct (ssh p); simpl; [destruct (time_connected p)|]; done.
Qed.
End port_methods.

(** ** Assignment and selection *)

Section assignment.
Import Models ModelsSpec.
Implicit Types (E : exn -> Prop) (w : World).

Lemma marked_second e e1 w :
  dirty w = [e1] -> e <> e1 -> marked e w = with_dirty [e1; e] w.
Proof.
  intros H Hne. unfold marked. rewrite H.
  rewrite decide_False; [done|]. by intros ->%list_elem_of_singleton.
Qed.

Lemma marked_in e w : e ∈ dirty w -> marked e w = w.
Proof. intros H. unfold marked. by rewrite decide_True. Qed.

(** The end of a session in which two ports were written. *)
Lemma wp_commit_two self q p pq (Q : unit -> World -> Prop) E w :
  self <> q ->
  Port_table w !! self = Some p -> Port_table w !! q = Some pq ->
  dirty w = [EPort self; EPort q] ->
  (forall w1 p' now w' pq' now',
     Port_hook_post self p w w1 p' now ->
     Port_hook_post q pq w1 w' pq' now' -> Q tt w') ->
  wp commit Q E w.
Proof.
  intros Hne Hp Hq Hd HQ. unfold commit.
  apply wp_bind, wp_get_world. apply wp_bind, wp_modify_world.
  rewrite Hd. simpl. apply wp_bind, wp_bind.
  eapply wp_Port_before_update; [exact Hp|].
  intros w1 p' now Hpost1. apply wp_bind.
  eapply wp_Port_before_update.
  { rewrite (php_Port_table _ _ _ _ _ _ Hpost1). simpl.
    rewrite lookup_insert_ne by done. exact Hq. }
  intros w2 pq' now' Hpost2. apply wp_ret, wp_modify_world.
  apply (HQ w1 p' now _ pq' now').
  - destruct Hpost1. by split.
  - destruct Hpost2. by split.
Qed.

Lemma assign_ssh_run self s p row w E :
  Port_table w !! self = Some p -> SSH_table w !! s = Some row ->
  wp (assign_ssh self (Some s))
     (fun _ w' =>
        exists p',
          Port_table w' !! self = Some p' /\
          SSH_table w' = SSH_table w /\
          ssh p' = Some s /\ is_connected p' = false /\
          time_connected p' = None /\
          external_ip p' = external_ip p /\
          used w' = used w)
     E w.
Proof.
  intros Hp Hrow. unfold assign_ssh, auto_renew_objects.
  apply wp_bind, wp_modify_world. simpl for_each.
  wp_seq. wp_seq. wp_seq. wp_load. apply wp_ret.
  wp_seq. wp_seq. wp_load. apply wp_ret. apply wp_ret.
  wp_seq. unfold assign_ssh_body, Port_set_ssh.
  wp_seq. wp_seq. unfold SSH_port at 1, wp at 1.
  rewrite (holder_Port_table w) by done.
  wp_seq. wp_write. rewrite marked_fresh by done.
  assert (Hone :
    wp (write_Port self (with_is_connected false))
       (fun a w1 =>
          wp (commit ≫= fun _ => mret a)
             (fun _ w' =>
                exists p',
                  Port_table w' !! self = Some p' /\
                  SSH_table w' = SSH_table w /\
                  ssh p' = Some s /\ is_connected p' = false /\
                  time_connected p' = None /\
                  external_ip p' = external_ip p /\
                  used w' = used w) E w1) E
       (with_dirty [EPort self]
          (with_Port_table (<[self:=with_ssh (Some s) p]> (Port_table w))
             (with_dirty [] w)))).
  { wp_write. rewrite marked_again by done.
    eapply wp_session_end; [simpl; apply lookup_insert_eq|done|].
    intros w' p' now Hpost. exists p'. destruct Hpost. simpl in *.
    rewrite php_Port_table0, lookup_insert_eq.
    repeat split; try done; congruence. }
  destruct (holder w s) as [q|] eqn:Hq; [|apply wp_ret, Hone].
  case_decide as Hqs; [apply wp_ret, Hone|].
  destruct (holder_Some _ _ _ Hq) as (pq & Hpq & Hpqs).
  wp_write. rewrite (marked_second (EPort q) (EPort self)); [|done|congruence].
  wp_write. rewrite marked_in by (simpl; left).
  apply wp_bind. eapply (wp_commit_two self q); simpl; [done| | |done|].
  { apply lookup_insert_eq. }
  { rewrite lookup_insert_ne, lookup_insert_eq by done. done. }
  intros w1 p' now w' pq' now' Hpost1 Hpost2. apply wp_ret.
  exists p'. destruct Hpost1, Hpost2. simpl in *.
  rewrite php_Port_table1, php_Port_table0.
  rewrite lookup_insert_ne, lookup_insert_eq by done.
  repeat split; try done; try congruence.
  rewrite php_used1, php_used0. by destruct (is_connected pq).
Qed.

(** *** [get_ssh_for_port] *)

Lemma random_first_elem {A} choice (l : list A) x tl :
  random choice 1 l = x :: tl -> x ∈ l.
Proof.
  unfold random. intros H.
  assert (Hin : x ∈ take 1 (rotate choice l)) by (rewrite H; left).
  apply elem_of_take in Hin as (i & Hi & _).
  apply (elem_of_rotate l choice). by eapply list_elem_of_lookup_2.
Qed.

Lemma random_nonempty {A} choice (l : list A) :
  l <> [] -> random choice 1 l <> [].
Proof.
  unfold random. intros Hl Hr. apply Hl.
  apply (f_equal length) in Hr. rewrite length_take, length_rotate in Hr.
  destruct l; [done|]. simpl in Hr. lia.
Qed.

Lemma elem_of_live w s :
  s ∈ live w <-> exists row, SSH_table w !! s = Some row /\ is_live row = true.
Proof.
  unfold live. split.
  - intros [row Hrow]%elem_of_dom.
    apply map_lookup_filter_Some in Hrow as [H1 H2]. eauto.
  - intros (row & H1 & H2). apply elem_of_dom. exists row.
    by apply map_lookup_filter_Some.
Qed.

Lemma elem_of_query w port unique (kv : Id * SSH) :
  kv ∈ query w port unique
  <-> SSH_table w !! kv.1 = Some kv.2 /\ is_live kv.2 = true /\
      (unique = true -> kv.1 ∉ history w port).
Proof.
  destruct kv as [i row]. unfold query.
  destruct unique; rewrite ?list_elem_of_filter, elem_of_map_to_list; simpl.
  - split; [intros (? & ? & ?); auto | intros (? & ? & H3); auto].
  - split; [intros (? & ?) | intros (? & ? & _)]; repeat split; done.
Qed.

Lemma get_ssh_for_port_value port unique choice p w :
  Port_table w !! port = Some p ->
  value (get_ssh_for_port port unique choice w)
  = Return
      match random choice 1 (query w port unique) with
      | result :: _ => Some result.1
      | [] => None
      end.
Proof.
  intros Hp. unfold get_ssh_for_port, auto_renew_objects, commit, load_Port,
    used_ssh_list, modify_world, get_world, mbind, mret, M_bind, M_ret. simpl.
  unfold load_Port, mbind, mret, M_bind, M_ret. simpl. rewrite Hp. simpl.
  change (history (with_dirty [] w) port) with (history w port).
  fold (query w port unique).
  by destruct (random choice 1 _).
Qed.

(** The query is empty exactly when no credential is eligible. *)
Lemma query_nil w port unique :
  query w port unique = [] <-> eligible w port unique = ∅.
Proof.
  split.
  - intros Hq. apply set_eq. intros s. split; [|by intros ?%not_elem_of_empty].
    intros Hs. exfalso. unfold eligible in Hs.
    assert (exists row, SSH_table w !! s = Some row /\ is_live row = true /\
                        (unique = true -> s ∉ history w port))
      as (row & H1 & H2 & H3).
    { destruct unique.
      - apply elem_of_difference in Hs as [(row & ? & ?)%elem_of_live ?]. eauto.
      - apply elem_of_live in Hs as (row & ? & ?). by exists row. }
    assert ((s, row) ∈ query w port unique) as Hin by (by apply elem_of_query).
    rewrite Hq in Hin. by apply elem_of_nil in Hin.
  - intros Hempty. destruct (query w port unique) as [|[s row] tl] eqn:Hq; [done|].
    exfalso.
    assert ((s, row) ∈ query w port unique) as Hin by (rewrite Hq; left).
    apply elem_of_query in Hin as (H1 & H2 & H3). simpl in *.
    assert (s ∈ (∅ : gset Id)) as Hin; [|by apply not_elem_of_empty in Hin].
    rewrite <- Hempty. unfold eligible. destruct unique.
    + apply elem_of_difference. split; [apply elem_of_live; eauto | by apply H3].
    + apply elem_of_live; eauto.
Qed.
End assignment.

(** ** The invariant of the port registry *)

Section registry_claims.
Import Models ModelsSpec.
Implicit Types (w : World).

Lemma body_ok_assign_ssh_body self s : body_ok self (assign_ssh_body self s).
Proof.
  unfold assign_ssh_body. apply body_ok_bind_r.
  - apply body_pre_Port_set_ssh.
  - intros _. apply body_ok_write_Port.
Qed.

Lemma body_ok_port_mutation (m : mutation) port :
  target m = Some port ->
  exists objs body,
    run_mutation m = auto_renew_objects objs body /\ body_ok port body.
Proof.
  destruct m as [? s|?|? kwargs|? remove|?|?|?|?]; simpl; intros [= ->];
    do 2 eexists; (split; [reflexivity|]).
  - apply body_ok_assign_ssh_body.
  - apply body_ok_write_Port.
  - apply body_ok_bind_r.
    + apply body_pre_for_each. intros kw. apply body_pre_Port_setattr.
    + intros _. apply body_ok_write_Port.
  - apply body_ok_bind_r; [|intros _; apply body_ok_assign_ssh_body].
    destruct remove; [|apply body_pre_ret].
    apply body_pre_bind.
    + intros w. apply wp_load_Port; [|done]. intros p _. apply body_rel_refl.
    + intros p. destruct (ssh p) as [s|]; simpl;
        [apply (body_pre_modify_used _ (fun w => used w ∖ {[ (port, s) ]}))|].
      intros w. by apply wp_raise.
  - unfold Port_set_base.
    apply body_ok_bind_r; [apply body_pre_write_Port; by left|]. intros _.
    apply body_ok_bind_r; [apply body_pre_write_Port; by left|]. intros _.
    apply body_ok_bind_r; [apply body_pre_write_Port; by left|]. intros _.
    apply body_ok_bind_r; [apply body_pre_Port_set_ssh|]. intros _.
    apply body_ok_bind_l; [apply body_ok_write_Port|]. intros _.
    apply (body_pre_modify_used _
             (fun w => filter (fun ps : Id * Id => ps.1 <> port) (used w))).
Qed.

Lemma body_pre_ssh_mutation (m : mutation) :
  target m = None ->
  exists objs body,
    run_mutation m = auto_renew_objects objs body /\ body_pre None body.
Proof.
  destruct m as [? s|?|? kwargs|? remove|?|s|s kwargs|s]; simpl; intros [=];
    do 2 eexists; (split; [reflexivity|]); unfold SSH_set_base.
  - apply body_pre_write_SSH.
  - apply body_pre_bind; [|intros _; apply body_pre_write_SSH].
    apply body_pre_for_each. intros kw. apply body_pre_SSH_setattr.
  - apply body_pre_bind; [|intros _]; apply body_pre_write_SSH.
Qed.

Lemma run_mutation_saved m w w' :
  run_mutation m w = Return (tt, w') ->
  (forall port, target m = Some port ->
     exists p', Port_table w' !! port = Some p' /\ port_inv p') /\
  kept w w'.
Proof.
  intros Hrun. destruct (target m) as [port|] eqn:Ht.
  - destruct (body_ok_port_mutation m port Ht) as (objs & body & Heq & Hbody).
    rewrite Heq in Hrun.
    destruct (wp_returned _ _ _ _ _ _
                (wp_auto_renew_objects_saved port objs body w Hbody) Hrun)
      as [Hport Hkept].
    split; [|done]. by intros ? [= <-].
  - destruct (body_pre_ssh_mutation m Ht) as (objs & body & Heq & Hbody).
    rewrite Heq in Hrun. split; [done|].
    exact (wp_returned _ _ _ _ _ _
             (wp_auto_renew_objects_kept objs body w Hbody) Hrun).
Qed.

(** C2.  After every operation of the registries that returns (assign,
    begin and end of a check with any update of the columns, so marking
    connected or disconnected, disconnect, reset; and the operations on
    credentials), the port it is an operation on, whose update hook the
    end of the operation runs, has a time of connection exactly when it
    is connected, and so has every other port that had before. *)
Theorem port_invariant_after_mutation (m : mutation) (w w' : World) :
  run_mutation m w = Return (tt, w') ->
  (forall port, target m = Some port ->
     exists p',
       Port_table w' !! port = Some p' /\
       (is_Some (time_connected p') <-> is_connected p' = true)) /\
  (forall q p p',
     Port_table w !! q = Some p ->
     (is_Some (time_connected p) <-> is_connected p = true) ->
     Port_table w' !! q = Some p' ->
     (is_Some (time_connected p') <-> is_connected p' = true)).
Proof. apply run_mutation_saved. Qed.

Lemma port_invariant_after_mutation_witness :
  run_mutation (EndChecking 1%positive [kw_is_connected false]) example_world
  = Return (tt, world_after (mark_disconnected 1%positive) example_world) /\
  (exists p',
     Port_table (world_after (mark_disconnected 1%positive) example_world) !! 1%positive
     = Some p' /\
     (is_Some (time_connected p') <-> is_connected p' = true)).
Proof.
  assert (H : run_mutation (EndChecking 1%positive [kw_is_connected false]) example_world
              = Return (tt, world_after (mark_disconnected 1%positive) example_world))
    by (vm_compute; reflexivity).
  split; [exact H|].
  exact (proj1 (port_invariant_after_mutation _ _ _ H) 1%positive eq_refl).
Defined.
End registry_claims.

(** ** The operations on one port *)

Section port_claims.
Import Models ModelsSpec.
Implicit Types (w : World).

Lemma example_world_port :
  Port_table example_world !! 1%positive
  = Some (mkPort (mkModel false None 0%Z) 8000%Z true (Some 7%positive) true
            "1.2.3.4" (Some 5%Z) "socks5://192.168.1.2:8000").
Proof. by vm_compute. Qed.

Lemma example_world_history :
  history example_world 1%positive = {[ 7%positive; 8%positive ]}.
Proof.
  apply set_eq. intros x. rewrite elem_of_history. simpl.
  rewrite !elem_of_union, !elem_of_singleton.
  split; [intros [[= ->] | [= ->]] | intros [-> | ->]]; auto.
Qed.

Lemma history_removed w w' self s :
  used w' = used w ∖ {[ (self, s) ]} ->
  history w' self = history w self ∖ {[ s ]}.
Proof.
  intros H. apply set_eq. intros x.
  rewrite elem_of_difference, !elem_of_history, H, elem_of_difference.
  rewrite !elem_of_singleton. split; intros [? Hne]; split; try done.
  - by intros ->.
  - by intros [= ->].
Qed.

Lemma history_added w w' self s :
  used w' = {[ (self, s) ]} ∪ used w ->
  history w' self = {[ s ]} ∪ history w self.
Proof.
  intros H. apply set_eq. intros x.
  rewrite elem_of_union, !elem_of_history, H, elem_of_union.
  rewrite !elem_of_singleton. split; (intros [Hx|?]; [left|by right]).
  - by injection Hx.
  - by subst.
Qed.

Lemma history_added_other w w' self q s :
  q <> self -> used w' = {[ (q, s) ]} ∪ used w ->
  history w' self = history w self.
Proof.
  intros Hne H. apply set_eq. intros x.
  rewrite !elem_of_history, H, elem_of_union, elem_of_singleton.
  split; [|by right]. intros [[= ? ?]|?]; [congruence|done].
Qed.

Lemma filter_absent (l : list Id) (s : Id) :
  s ∉ l -> filter (fun x => x = s) l = [].
Proof.
  induction l as [|x l IH]; [done|].
  intros [Hne Hl]%not_elem_of_cons. rewrite filter_cons.
  rewrite decide_False by (intros ->; done). by apply IH.
Qed.

(** An element of a set occurs once among its elements. *)
Lemma elements_once (X : gset Id) (s : Id) :
  s ∈ X -> length (filter (fun x => x = s) (elements X)) = 1.
Proof.
  intros Hs. apply elem_of_elements in Hs.
  pose proof (NoDup_elements X) as Hnd.
  induction Hnd as [|x l Hx Hnd IH]; [by apply elem_of_nil in Hs|].
  rewrite filter_cons. apply elem_of_cons in Hs as [->|Hin].
  - rewrite decide_True by done. simpl. by rewrite filter_absent.
  - rewrite decide_False by (intros ->; done). by apply IH.
Qed.

(** C6.  For a port with a credential assigned and a time of connection,
    [need_reset] answers true when that time is before the cutoff and
    false when it is the cutoff or later; for a port with no credential
    assigned it answers false. *)
Theorem need_reset_compares_with_cutoff w self p (time_expired : Time) :
  Port_table w !! self = Some p ->
  (forall s t, ssh p = Some s -> time_connected p = Some t ->
     (t < time_expired)%Z ->
     value (need_reset self time_expired w) = Return true) /\
  (forall s t, ssh p = Some s -> time_connected p = Some t ->
     (time_expired <= t)%Z ->
     value (need_reset self time_expired w) = Return false) /\
  (ssh p = None -> value (need_reset self time_expired w) = Return false).
Proof.
  intros Hp. rewrite (need_reset_value _ _ _ _ Hp).
  split; [|split].
  - intros s t -> -> Hlt. by rewrite bool_decide_eq_true_2.
  - intros s t -> -> Hle. rewrite bool_decide_eq_false_2; [done|lia].
  - by intros ->.
Qed.

Lemma need_reset_compares_with_cutoff_witness :
  Port_table example_world !! 1%positive
  = Some (mkPort (mkModel false None 0%Z) 8000%Z true (Some 7%positive) true
            "1.2.3.4" (Some 5%Z) "socks5://192.168.1.2:8000") /\
  value (need_reset 1%positive 6%Z example_world) = Return true /\
  value (need_reset 1%positive 5%Z example_world) = Return false.
Proof.
  pose proof example_world_port as H.
  split; [exact H|]. split.
  - apply (proj1 (need_reset_compares_with_cutoff _ _ _ 6%Z H) 7%positive 5%Z);
      [reflexivity | reflexivity | lia].
  - apply (proj1 (proj2 (need_reset_compares_with_cutoff _ _ _ 5%Z H))
             7%positive 5%Z); [reflexivity | reflexivity | lia].
Defined.

(** C9.  [need_reset] returns a boolean only when an assigned credential
    comes with a time of connection.  On a port with a credential
    assigned and no time of connection it raises [TypeError]; this is
    the state [assign_ssh] leaves, and the state of every port that an
    operation of the registry leaves assigned and not connected. *)
Theorem need_reset_raises_when_not_connected :
  (forall w self p s time_expired,
     Port_table w !! self = Some p -> ssh p = Some s ->
     time_connected p = None ->
     value (need_reset self time_expired w) = Raise TypeError) /\
  (forall w self s,
     is_Some (Port_table w !! self) -> is_Some (SSH_table w !! s) ->
     exists w',
       assign_ssh self (Some s) w = Return (tt, w') /\
       forall time_expired,
         value (need_reset self time_expired w') = Raise TypeError) /\
  (forall m w w' port p' s time_expired,
     run_mutation m w = Return (tt, w') -> target m = Some port ->
     Port_table w' !! port = Some p' ->
     ssh p' = Some s -> is_connected p' = false ->
     value (need_reset port time_expired w') = Raise TypeError) /\
  value (need_reset 1%positive 6%Z
           (world_after (assign_ssh 1%positive (Some 8%positive)) example_world))
  = Raise TypeError.
Proof.
  assert (Hraise : forall w self p s time_expired,
     Port_table w !! self = Some p -> ssh p = Some s ->
     time_connected p = None ->
     value (need_reset self time_expired w) = Raise TypeError).
  { intros w self p s time_expired Hp Hs Ht.
    by rewrite (need_reset_value _ _ _ _ Hp), Hs, Ht. }
  split; [exact Hraise|]. split; [|split].
  - intros w self s [p Hp] [row Hrow].
    destruct (wp_total _ _ _ (assign_ssh_run self s p row w no_exn Hp Hrow))
      as ([] & w' & Hrun & p' & Hp' & _ & Hs' & _ & Ht' & _).
    exists w'. split; [done|]. intros time_expired. by eapply Hraise.
  - intros m w w' port p' s time_expired Hrun Htarget Hp' Hs' Hc'.
    destruct (proj1 (run_mutation_saved _ _ _ Hrun) port Htarget)
      as (p'' & Hp'' & Hinv).
    simplify_eq. eapply Hraise; [done|done|].
    destruct (time_connected p') as [t|] eqn:Ht; [|done].
    assert (is_connected p' = true) by (apply Hinv; by eexists). congruence.
  - by vm_compute.
Qed.

(** C1.  For every port of the registry, every state and every pick of
    the database, [get_ssh_for_port] returns [None] or a credential that
    is live and, when [unique] is set, not in the history of the port;
    it returns [None] exactly when the live credentials without the
    history of the port (with [unique] unset: the live credentials) are
    the empty set. *)
Theorem get_ssh_for_port_eligible w port (unique : bool) (choice : nat) :
  is_Some (Port_table w !! port) ->
  exists r,
    value (get_ssh_for_port port unique choice w) = Return r /\
    (forall s, r = Some s ->
       (exists row, SSH_table w !! s = Some row /\ is_live row = true) /\
       s ∈ live w /\
       (unique = true -> s ∉ history w port)) /\
    (r = None <-> eligible w port unique = ∅).
Proof.
  intros [p Hp]. eexists. split; [by apply (get_ssh_for_port_value _ _ _ p)|].
  destruct (random choice 1 (query w port unique)) as [|[s row] tl] eqn:Hr.
  - split; [done|]. split; [intros _|done].
    apply query_nil. destruct (query w port unique) eqn:Hq; [done|].
    by destruct (random_nonempty choice (query w port unique)); rewrite ?Hq.
  - apply random_first_elem, elem_of_query in Hr as (H1 & H2 & H3).
    simpl in *. split.
    + intros ? [= <-]. split; [by eauto|]. split; [|done].
      apply elem_of_live. eauto.
    + split; [done|]. intros Hempty. exfalso.
      assert (s ∈ (∅ : gset Id)) as Hin; [|by apply not_elem_of_empty in Hin].
      rewrite <- Hempty. unfold eligible. destruct unique.
      * apply elem_of_difference. split; [apply elem_of_live; eauto|by apply H3].
      * apply elem_of_live; eauto.
Qed.

Lemma get_ssh_for_port_eligible_witness :
  is_Some (Port_table example_world !! 1%positive) /\
  value (get_ssh_for_port 1%positive true 0 example_world) = Return None /\
  eligible example_world 1%positive true = ∅.
Proof.
  assert (H : is_Some (Port_table example_world !! 1%positive))
    by (vm_compute; eauto).
  split; [exact H|].
  destruct (get_ssh_for_port_eligible example_world 1%positive true 0 H)
    as (r & Hrun & _ & Hnone).
  assert (Hr : r = None).
  { assert (Hv : value (get_ssh_for_port 1%positive true 0 example_world)
                 = Return None) by (vm_compute; reflexivity).
    rewrite Hv in Hrun. by injection Hrun. }
  split; [by rewrite Hrun, Hr|]. by apply Hnone.
Defined.

(** Every eligible credential can be the one the database picks. *)
Lemma get_ssh_for_port_any_eligible w port unique s :
  is_Some (Port_table w !! port) ->
  s ∈ eligible w port unique ->
  exists choice,
    value (get_ssh_for_port port unique choice w) = Return (Some s).
Proof.
  intros [p Hp] Hs.
  assert (exists row, (s, row) ∈ query w port unique) as [row Hin].
  { unfold eligible in Hs. destruct unique.
    - apply elem_of_difference in Hs as [(row & ? & ?)%elem_of_live ?].
      exists row. by apply elem_of_query.
    - apply elem_of_live in Hs as (row & ? & ?).
      exists row. by apply elem_of_query. }
  apply list_elem_of_lookup in Hin as [i Hi].
  exists i. rewrite (get_ssh_for_port_value _ _ _ p _ Hp).
  pose proof (lookup_lt_Some _ _ _ Hi) as Hlt.
  assert (Hhead : rotate i (query w port unique) !! 0 = Some (s, row)).
  { rewrite lookup_rotate_r by lia. unfold rotate_nat_add.
    rewrite Z.add_0_r, <- Nat2Z.inj_mod, Nat2Z.id, Nat.mod_small by lia.
    done. }
  unfold random. destruct (rotate i (query w port unique)) as [|x tl]; [done|].
  simpl in Hhead. injection Hhead as ->. done.
Qed.

(** What [disconnect_ssh] and [reset_status] leave of a port. *)
Lemma disconnect_and_reset_run w self p :
  Port_table w !! self = Some p ->
  (exists w' p',
     disconnect_ssh self false w = Return (tt, w') /\
     Port_table w' !! self = Some p' /\
     is_connected p' = false /\ time_connected p' = None /\
     ssh p' = None /\ external_ip p' = external_ip p /\
     history w' self = history w self) /\
  (forall s, ssh p = Some s ->
     exists w' p',
       disconnect_ssh self true w = Return (tt, w') /\
       Port_table w' !! self = Some p' /\
       is_connected p' = false /\ time_connected p' = None /\
       ssh p' = None /\ external_ip p' = external_ip p /\
       history w' self = history w self ∖ {[ s ]}) /\
  (exists w' p',
     reset_status self w = Return (tt, w') /\
     Port_table w' !! self = Some p' /\
     is_connected p' = false /\ time_connected p' = None /\
     ssh p' = None /\ external_ip p' = "" /\
     history w' self = ∅).
Proof.
  intros Hp. split; [|split].
  - destruct (wp_total _ _ _ (disconnect_ssh_run self false p w no_exn Hp
                                ltac:(done)))
      as ([] & w' & Hrun & p' & Ht & _ & Hs & Hc & Htc & Hip & Hu).
    exists w', p'. rewrite Ht, lookup_insert_eq.
    repeat split; try done. by apply history_used.
  - intros s Hs.
    destruct (wp_total _ _ _ (disconnect_ssh_run self true p w no_exn Hp
                                ltac:(by rewrite Hs)))
      as ([] & w' & Hrun & p' & Ht & _ & Hs' & Hc & Htc & Hip & Hu).
    exists w', p'. rewrite Ht, lookup_insert_eq.
    repeat split; try done. rewrite Hs in Hu. by apply history_removed.
  - destruct (wp_total _ _ _ (reset_status_run self p w no_exn Hp))
      as ([] & w' & Hrun & p' & Ht & _ & _ & Hs & Hc & Htc & Hip & Hu).
    exists w', p'. rewrite Ht, lookup_insert_eq.
    repeat split; try done. by eapply history_cleared.
Qed.


(** C4, as the code has it.  [disconnect_ssh] is the operation with the
    flag: it clears the assignment and the connection and leaves the
    external address as it was; without the flag the history of the port
    is unchanged, with it the credential that was assigned, and only
    that one, leaves the history.  [reset_status] takes no flag: it
    clears the assignment, the connection and the external address, and
    always empties the history of the port. *)
Theorem disconnect_and_reset w self p :
  Port_table w !! self = Some p ->
  (exists w' p',
     disconnect_ssh self false w = Return (tt, w') /\
     Port_table w' !! self = Some p' /\
     is_connected p' = false /\ time_connected p' = None /\
     ssh p' = None /\ external_ip p' = external_ip p /\
     history w' self = history w self) /\
  (forall s, ssh p = Some s ->
     exists w' p',
       disconnect_ssh self true w = Return (tt, w') /\
       Port_table w' !! self = Some p' /\
       is_connected p' = false /\ time_connected p' = None /\
       ssh p' = None /\ external_ip p' = external_ip p /\
       history w' self = history w self ∖ {[ s ]}) /\
  (exists w' p',
     reset_status self w = Return (tt, w') /\
     Port_table w' !! self = Some p' /\
     is_connected p' = false /\ time_connected p' = None /\
     ssh p' = None /\ external_ip p' = "" /\
     history w' self = ∅).
Proof. apply disconnect_and_reset_run. Qed.

Lemma disconnect_and_reset_witness :
  Port_table example_world !! 1%positive
  = Some (mkPort (mkModel false None 0%Z) 8000%Z true (Some 7%positive) true
            "1.2.3.4" (Some 5%Z) "socks5://192.168.1.2:8000") /\
  exists w' p',
    reset_status 1%positive example_world = Return (tt, w') /\
    Port_table w' !! 1%positive = Some p' /\
    is_connected p' = false /\ time_connected p' = None /\
    ssh p' = None /\ external_ip p' = "" /\
    history w' 1%positive = ∅.
Proof.
  pose proof example_world_port as H.
  split; [exact H|].
  exact (proj2 (proj2 (disconnect_and_reset _ _ _ H))).
Defined.

(** C4, as stated, fails for both operations.  On the example registry,
    whose port is connected since time 5 with external address 1.2.3.4
    and has used the credentials 7 and 8, [disconnect_ssh] without the
    flag leaves the address 1.2.3.4 in place, [disconnect_ssh] with the
    flag leaves the credential 8 in the history, and [reset_status],
    which has no flag, empties the history.  So neither is the [reset] of
    the claim. *)
Lemma reset_claim_fails :
  (exists w' p',
     disconnect_ssh 1%positive false example_world = Return (tt, w') /\
     Port_table w' !! 1%positive = Some p' /\
     external_ip p' = "1.2.3.4") /\
  (exists w',
     disconnect_ssh 1%positive true example_world = Return (tt, w') /\
     history w' 1%positive = {[ 8%positive ]}) /\
  (exists w',
     reset_status 1%positive example_world = Return (tt, w') /\
     history example_world 1%positive = {[ 7%positive; 8%positive ]} /\
     history w' 1%positive = ∅) /\
  ~ reset_claim disconnect_ssh /\
  ~ reset_claim (fun port _ => reset_status port).
Proof.
  pose proof example_world_port as Hp.
  destruct (disconnect_and_reset_run _ _ _ Hp) as (Hd & Hr & Hreset).
  destruct Hd as (wd & pd & Hrund & Hpd & _ & _ & _ & Hipd & _).
  destruct (Hr 7%positive eq_refl) as (wr & pr & Hrunr & _ & _ & _ & _ & _ & Hhr).
  destruct Hreset as (ws & ps & Hruns & _ & _ & _ & _ & _ & Hhs).
  split; [by exists wd, pd|].
  split.
  { exists wr. split; [done|]. rewrite Hhr, example_world_history.
    apply set_eq. intros x.
    rewrite elem_of_difference, elem_of_union, !elem_of_singleton.
    split; [intros [[->| ->] Hne]; [done|done] | intros ->; split; [by right|done]]. }
  split; [exists ws; by rewrite example_world_history|].
  split; intros Hclaim;
    destruct (Hclaim example_world 1%positive _ 5%Z Hp eq_refl eq_refl eq_refl)
      as [(w' & p' & Hrun & Hp' & _ & _ & Hip & _ & Hh) _].
  - simplify_eq. simpl in *. congruence.
  - simplify_eq.
    assert (Hempty : history example_world 1%positive = ∅) by congruence.
    rewrite example_world_history in Hempty.
    assert (Hin : 7%positive ∈ (∅ : gset Id));
      [|by apply not_elem_of_empty in Hin].
    rewrite <- Hempty. by apply elem_of_union_l, elem_of_singleton.
Qed.

Lemma mark_connected_history w self p s external_ip' :
  Port_table w !! self = Some p -> ssh p = Some s ->
  exists w' p',
    mark_connected self external_ip' w = Return (tt, w') /\
    Port_table w' !! self = Some p' /\ ssh p' = Some s /\
    is_connected p' = true /\ SSH_table w' = SSH_table w /\
    history w' self = {[ s ]} ∪ history w self.
Proof.
  intros Hp Hs.
  destruct (wp_total _ _ _ (mark_connected_run self external_ip' p w no_exn Hp))
    as ([] & w' & Hrun & p' & now & Ht & Hst & Hs' & Hc & _ & _ & Hu).
  exists w', p'. rewrite Ht, lookup_insert_eq. rewrite Hs in Hu, Hs'.
  repeat split; try done. by apply history_added.
Qed.

Lemma SSH_before_update_history w self s row :
  SSH_table w !! s = Some row -> s ∈ history w self ->
  exists w',
    SSH_before_update s w = Return (tt, w') /\
    history w' self = history w self.
Proof.
  intros Hrow Hin.
  destruct (wp_total _ _ _
    (wp_SSH_before_update s row (fun _ w' => history w' self = history w self)
       no_exn w Hrow
       ltac:(intros w' s' Hpost; destruct Hpost as [_ _ _ _ _ _ _ _ Hu];
             destruct (holder w s) as [q|]; [|by apply history_used];
             destruct (decide (q = self)) as [->|Hne];
               [|by eapply history_added_other];
             rewrite (history_added _ _ _ _ Hu);
             apply set_eq; intros x;
             rewrite elem_of_union, elem_of_singleton;
             split; [by intros [->|] | by right])))
    as ([] & w' & Hrun & Hh).
  by exists w'.
Qed.

Lemma Port_before_update_history w self p s :
  Port_table w !! self = Some p -> ssh p = Some s -> is_connected p = true ->
  exists w' p',
    Port_before_update self w = Return (tt, w') /\
    Port_table w' !! self = Some p' /\ ssh p' = Some s /\
    is_connected p' = true /\
    history w' self = {[ s ]} ∪ history w self.
Proof.
  intros Hp Hs Hc.
  assert (Hwp : wp (Port_before_update self)
            (fun _ w' => exists p' now, Port_hook_post self p w w' p' now)
            no_exn w).
  { eapply wp_Port_before_update; [exact Hp|]. intros w' p' now Hpost.
    by exists p', now. }
  destruct (wp_total _ _ _ Hwp) as ([] & w' & Hrun & p' & now & Hpost).
  exists w', p'. destruct Hpost. rewrite Hc, Hs in *.
  rewrite php_Port_table0, lookup_insert_eq.
  repeat split; try done. by apply history_added.
Qed.

Lemma history_add_again (X : gset Id) (s : Id) : s ∈ X -> {[ s ]} ∪ X = X.
Proof.
  intros Hs. apply set_eq. intros x. rewrite elem_of_union, elem_of_singleton.
  split; [by intros [->|] | by right].
Qed.

(** C5.  For a port with a credential assigned, marking it connected
    twice in a row puts the credential in the history of the port the
    first time and changes nothing the second time: afterwards the
    credential occurs exactly once among the elements of the history.
    The update hook of the credential, which adds to the same relation
    from the other end, changes nothing either.  The same holds of the
    update hook of the port by itself, run twice on a connected port,
    whatever update it ends. *)
Theorem mark_connected_twice w self p s (ip1 ip2 : string) :
  Port_table w !! self = Some p -> ssh p = Some s ->
  (exists w1 w2,
     mark_connected self ip1 w = Return (tt, w1) /\
     mark_connected self ip2 w1 = Return (tt, w2) /\
     history w1 self = {[ s ]} ∪ history w self /\
     history w2 self = history w1 self /\
     length (filter (fun x => x = s) (elements (history w2 self))) = 1 /\
     (forall row, SSH_table w2 !! s = Some row ->
        exists w3,
          SSH_before_update s w2 = Return (tt, w3) /\
          history w3 self = history w2 self)) /\
  (is_connected p = true ->
   exists w1 w2,
     Port_before_update self w = Return (tt, w1) /\
     Port_before_update self w1 = Return (tt, w2) /\
     history w1 self = {[ s ]} ∪ history w self /\
     history w2 self = history w1 self /\
     length (filter (fun x => x = s) (elements (history w2 self))) = 1).
Proof.
  intros Hp Hs. split; [|
    intros Hc;
    destruct (Port_before_update_history w self p s Hp Hs Hc)
      as (w1 & p1 & Hrun1 & Hp1 & Hs1 & Hc1 & Hh1);
    destruct (Port_before_update_history w1 self p1 s Hp1 Hs1 Hc1)
      as (w2 & p2 & Hrun2 & _ & _ & _ & Hh2);
    assert (Hin1 : s ∈ history w1 self)
      by (rewrite Hh1; by apply elem_of_union_l, elem_of_singleton);
    assert (Hsame : history w2 self = history w1 self)
      by (rewrite Hh2; by apply history_add_again);
    exists w1, w2; repeat split; try done;
    apply elements_once; by rewrite Hsame].
  destruct (mark_connected_history w self p s ip1 Hp Hs)
    as (w1 & p1 & Hrun1 & Hp1 & Hs1 & _ & _ & Hh1).
  destruct (mark_connected_history w1 self p1 s ip2 Hp1 Hs1)
    as (w2 & p2 & Hrun2 & Hp2 & Hs2 & _ & _ & Hh2).
  assert (Hin1 : s ∈ history w1 self).
  { rewrite Hh1. by apply elem_of_union_l, elem_of_singleton. }
  assert (Hsame : history w2 self = history w1 self)
    by (rewrite Hh2; by apply history_add_again).
  exists w1, w2. repeat split; try done.
  - apply elements_once. by rewrite Hsame.
  - intros row Hrow. eapply SSH_before_update_history; [done|].
    by rewrite Hsame.
Qed.

Lemma mark_connected_twice_witness :
  Port_table example_world !! 1%positive
  = Some (mkPort (mkModel false None 0%Z) 8000%Z true (Some 7%positive) true
            "1.2.3.4" (Some 5%Z) "socks5://192.168.1.2:8000") /\
  exists w1 w2,
    mark_connected 1%positive "1.2.3.4" example_world = Return (tt, w1) /\
    mark_connected 1%positive "1.2.3.4" w1 = Return (tt, w2) /\
    length (filter (fun x => x = 7%positive)
              (elements (history w2 1%positive))) = 1.
Proof.
  pose proof example_world_port as H.
  split; [exact H|].
  destruct (proj1 (mark_connected_twice example_world 1%positive _ 7%positive
                     "1.2.3.4" "1.2.3.4" H eq_refl))
    as (w1 & w2 & H1 & H2 & _ & _ & Hlen & _).
  by exists w1, w2.
Defined.
End port_claims.

(* ===================================================================== *)
(** * More about utils.py *)
(* ===================================================================== *)

(** ** The records of [parse_ssh_file] *)

Section record_facts.
Import Utils UtilsSpec.
Implicit Types (s rest m line : str) (caps : captures) (r : regex).

(** Where [re.search] found its match, and that it took the first way the
    matcher found there. *)
Lemma re_search_Some r s caps :
  re_search r s = Some caps ->
  exists pre s' rest,
    s = pre ++ s' /\ first_is (run r s' []) (rest, caps).
Proof.
  induction s as [|c s IH]; simpl.
  - destruct (run r [] []) as [|[rest caps'] tl] eqn:Hr; [done|].
    intros [= <-]. exists [], [], rest. split; [done|]. rewrite Hr. by exists tl.
  - destruct (run r (c :: s) []) as [|[rest caps'] tl] eqn:Hr.
    + intros (pre & s' & rest & -> & Hf)%IH. by exists (c :: pre), s', rest.
    + intros [= <-]. exists [], (c :: s), rest. split; [done|].
      rewrite Hr. by exists tl.
Qed.

Lemma first_is_inj {A} (l : list A) x y : first_is l x -> first_is l y -> x = y.
Proof. intros [? ->] [? [= ->]]. done. Qed.

Lemma first_is_elem {A} (l : list A) x : first_is l x -> x ∈ l.
Proof. intros [? ->]. by left. Qed.

(** The match of a line, when there is one, in full: where it is, and
    what the three groups hold. *)
Lemma parse_line_record line (info : ssh_info) :
  info ∈ parse_line line ->
  exists pre a d1 u d2 p rest,
    line = pre ++ a ++ d1 :: u ++ d2 :: p ++ rest /\
    ip_shaped a /\ is_delimiter d1 = true /\ free u /\
    is_delimiter d2 = true /\ free p /\ field_ends rest /\
    info = mk_ssh_info (Some a) (Some u) (Some p).
Proof.
  unfold parse_line.
  destruct (re_search pattern line) as [caps|] eqn:Hs; [|by intros ?%elem_of_nil].
  intros ->%list_elem_of_singleton.
  apply re_search_Some in Hs as (pre & s' & rest0 & -> & Hfirst).
  destruct (run_sound pattern s' [] rest0 caps) as (m & -> & Hm);
    [by apply first_is_elem|].
  apply lang_pattern in Hm as (a & d1 & u & d2 & p0 & -> & Ha & Hd1 & Hu & Hd2 & _).
  destruct (field_split (p0 ++ rest0)) as (p & rest & Hsplit & Hp & Hrest).
  assert (Hline : (a ++ d1 :: u ++ d2 :: p0) ++ rest0
                  = a ++ d1 :: u ++ d2 :: p ++ rest).
  { rewrite <- Hsplit, <- app_assoc. simpl. by rewrite <- app_assoc. }
  rewrite Hline in Hfirst |- *.
  pose proof (run_pattern_first a d1 u d2 p rest Ha Hd1 Hu Hd2 Hp Hrest) as Hf.
  pose proof (first_is_inj _ _ _ Hfirst Hf) as [= -> ->].
  by exists pre, a, d1, u, d2, p, rest.
Qed.

Lemma one_line_app s1 s2 : one_line (s1 ++ s2) <-> one_line s1 /\ one_line s2.
Proof. apply Forall_app. Qed.

Lemma elem_of_concat {A} (x : A) (ls : list (list A)) :
  x ∈ concat ls <-> exists l, x ∈ l /\ l ∈ ls.
Proof.
  induction ls as [|l ls IH]; simpl.
  - split; [by intros ?%elem_of_nil | by intros (? & _ & ?%elem_of_nil)].
  - rewrite elem_of_app, IH. split.
    + intros [?|(l' & ? & ?)]; [exists l | exists l']; split; try done;
        by constructor.
    + intros (l' & Hx & [->|?]%elem_of_cons); [by left | right; by exists l'].
Qed.

Lemma parse_ssh_file_record file_content (info : ssh_info) :
  info ∈ parse_ssh_file file_content ->
  exists line, line ∈ splitlines file_content /\ info ∈ parse_line line.
Proof.
  rewrite parse_ssh_file_lines. intros Hin.
  apply elem_of_concat in Hin as (l & Hr & Hl).
  apply list_elem_of_fmap in Hl as (line & -> & Hline). by exists line.
Qed.
End record_facts.

(** ** Lines, joined and written *)

Section line_facts.
Import Utils UtilsSpec.
Implicit Types (s rest m line : str).

Lemma digit_one_line c : is_digit c = true -> is_line_boundary c = false.
Proof.
  unfold is_digit, is_line_boundary. intros [H1 H2]%andb_true_iff.
  apply N.leb_le in H1, H2. simpl.
  repeat (apply orb_false_intro; [apply N.eqb_neq; lia|]). done.
Qed.

Lemma digits_one_line o : digits o -> one_line o.
Proof.
  intros [H _]. unfold one_line. eapply Forall_impl; [exact H|].
  apply digit_one_line.
Qed.

Lemma ip_shaped_one_line a : ip_shaped a -> one_line a.
Proof.
  intros (o1 & o2 & o3 & o4 & -> & H1 & H2 & H3 & H4). unfold one_line.
  repeat (apply Forall_app; split; [by apply digits_one_line|];
          apply Forall_cons; split; [done|]).
  by apply digits_one_line.
Qed.

Lemma ip_shaped_nonempty a : ip_shaped a -> a <> [].
Proof.
  intros (o1 & o2 & o3 & o4 & -> & H1 & _) Hnil.
  destruct (digits_first o1 H1) as (c & o' & -> & _). done.
Qed.

(** A record, written on a line, is read back. *)
Lemma parse_render_line (info : ssh_info) :
  writable info -> parse_ssh_file (render_line info) = [info].
Proof.
  intros (a & u & p & -> & Ha & Hu & Hp & Hlu & Hlp).
  unfold render_line. simpl.
  rewrite parse_ssh_file_lines, splitlines_one_line.
  - simpl. rewrite app_nil_r.
    replace (a ++ 59%N :: u ++ 59%N :: p) with (a ++ 59%N :: u ++ 59%N :: p ++ [])
      by (by rewrite app_nil_r).
    by apply parse_line_exact.
  - apply Forall_app. split; [by apply ip_shaped_one_line|].
    apply Forall_cons. split; [done|].
    apply Forall_app. split; [done|]. by apply Forall_cons.
  - intros Hnil. apply app_eq_nil in Hnil as [Hnil _].
    by apply (ip_shaped_nonempty a).
Qed.

Lemma parse_render records :
  Forall writable records -> parse_ssh_file (render records) = records.
Proof.
  induction 1 as [|info records Hinfo _ IH]; [done|].
  simpl. by rewrite parse_ssh_file_join, parse_render_line, IH.
Qed.
End line_facts.

(** X1.  Every record that [parse_ssh_file] returns comes from one line of
    the text: its address is four groups of one to three digits, its user
    name and its password hold no delimiter, the password runs up to the
    next delimiter or to the end of the line, and no field is missing or
    holds a line boundary. *)
Theorem parse_ssh_file_record_fields file_content (info : Utils.ssh_info) :
  info ∈ Utils.parse_ssh_file file_content ->
  exists line pre a d1 u d2 p rest,
    line ∈ Utils.splitlines file_content /\
    line = pre ++ a ++ d1 :: u ++ d2 :: p ++ rest /\
    info = Utils.mk_ssh_info (Some a) (Some u) (Some p) /\
    UtilsSpec.ip_shaped a /\ UtilsSpec.is_delimiter d1 = true /\
    UtilsSpec.free u /\ UtilsSpec.is_delimiter d2 = true /\
    UtilsSpec.free p /\ UtilsSpec.field_ends rest /\
    UtilsSpec.one_line a /\ UtilsSpec.one_line u /\ UtilsSpec.one_line p.
Proof.
  intros (line & Hline & Hinfo)%parse_ssh_file_record.
  apply parse_line_record in Hinfo
    as (pre & a & d1 & u & d2 & p & rest & -> & Ha & Hd1 & Hu & Hd2 & Hp & Hrest & ->).
  pose proof (splitlines_lines_one_line _ _ Hline) as Hone.
  apply one_line_app in Hone as [_ Hone].
  apply one_line_app in Hone as [Hone_a Hone].
  apply Forall_cons in Hone as [_ Hone].
  apply one_line_app in Hone as [Hone_u Hone].
  apply Forall_cons in Hone as [_ Hone].
  apply one_line_app in Hone as [Hone_p _].
  by exists (pre ++ a ++ d1 :: u ++ d2 :: p ++ rest), pre, a, d1, u, d2, p, rest.
Qed.

Lemma parse_ssh_file_record_fields_witness :
  Utils.mk_ssh_info (Some (text "10.0.0.5")) (Some (text "user1"))
                    (Some (text "pass1"))
    ∈ Utils.parse_ssh_file (text "x 10.0.0.5;user1;pass1;y") /\
  exists line pre a d1 u d2 p rest,
    line ∈ Utils.splitlines (text "x 10.0.0.5;user1;pass1;y") /\
    line = pre ++ a ++ d1 :: u ++ d2 :: p ++ rest /\
    Utils.mk_ssh_info (Some (text "10.0.0.5")) (Some (text "user1"))
                      (Some (text "pass1"))
    = Utils.mk_ssh_info (Some a) (Some u) (Some p) /\
    UtilsSpec.ip_shaped a /\ UtilsSpec.is_delimiter d1 = true /\
    UtilsSpec.free u /\ UtilsSpec.is_delimiter d2 = true /\
    UtilsSpec.free p /\ UtilsSpec.field_ends rest /\
    UtilsSpec.one_line a /\ UtilsSpec.one_line u /\ UtilsSpec.one_line p.
Proof.
  assert (H : Utils.mk_ssh_info (Some (text "10.0.0.5")) (Some (text "user1"))
                                (Some (text "pass1"))
              ∈ Utils.parse_ssh_file (text "x 10.0.0.5;user1;pass1;y")).
  { assert (Hparse : Utils.parse_ssh_file (text "x 10.0.0.5;user1;pass1;y")
                     = [Utils.mk_ssh_info (Some (text "10.0.0.5"))
                          (Some (text "user1")) (Some (text "pass1"))])
      by (vm_compute; reflexivity).
    rewrite Hparse. by apply list_elem_of_singleton. }
  split; [exact H|].
  exact (parse_ssh_file_record_fields _ _ H).
Defined.

(** X2.  The records of two texts joined by a line feed are the records of
    the first followed by those of the second, whatever the first ends
    in and the second starts with. *)
Theorem parse_ssh_file_line_feed (a b : str) :
  Utils.parse_ssh_file (a ++ 10%N :: b)
  = Utils.parse_ssh_file a ++ Utils.parse_ssh_file b.
Proof. apply parse_ssh_file_join. Qed.

(** X3.  Records written one per line as [ip;username;password] and read by
    [parse_ssh_file] come back as they were, in the same order, as long
    as each has an address of the right shape and a user name and a
    password without delimiter or line boundary. *)
Theorem parse_ssh_file_reads_back (records : list Utils.ssh_info) :
  Forall UtilsSpec.writable records ->
  Utils.parse_ssh_file (UtilsSpec.render records) = records.
Proof. apply parse_render. Qed.

Lemma parse_ssh_file_reads_back_witness :
  Forall UtilsSpec.writable
    [Utils.mk_ssh_info (Some (text "10.0.0.5")) (Some (text "user1"))
                       (Some (text "pass1"));
     Utils.mk_ssh_info (Some (text "10.0.0.6")) (Some (text "")) (Some (text "p w"))] /\
  Utils.parse_ssh_file
    (UtilsSpec.render
       [Utils.mk_ssh_info (Some (text "10.0.0.5")) (Some (text "user1"))
                          (Some (text "pass1"));
        Utils.mk_ssh_info (Some (text "10.0.0.6")) (Some (text "")) (Some (text "p w"))])
  = [Utils.mk_ssh_info (Some (text "10.0.0.5")) (Some (text "user1"))
                       (Some (text "pass1"));
     Utils.mk_ssh_info (Some (text "10.0.0.6")) (Some (text "")) (Some (text "p w"))].
Proof.
  assert (H : Forall UtilsSpec.writable
    [Utils.mk_ssh_info (Some (text "10.0.0.5")) (Some (text "user1"))
                       (Some (text "pass1"));
     Utils.mk_ssh_info (Some (text "10.0.0.6")) (Some (text "")) (Some (text "p w"))]).
  { apply Forall_cons_2; [|apply Forall_cons_2; [|constructor]].
    - exists (text "10.0.0.5"), (text "user1"), (text "pass1").
      split; [reflexivity|]. split.
      { exists (text "10"), (text "0"), (text "0"), (text "5").
        split; [reflexivity|].
        repeat split; simpl; try lia; repeat constructor. }
      repeat split; repeat constructor.
    - exists (text "10.0.0.6"), (text ""), (text "p w").
      split; [reflexivity|]. split.
      { exists (text "10"), (text "0"), (text "0"), (text "6").
        split; [reflexivity|].
        repeat split; simpl; try lia; repeat constructor. }
      repeat split; repeat constructor. }
  split; [exact H|]. exact (parse_ssh_file_reads_back _ H).
Defined.

(** ** Attempts of [get_proxy_ip] *)

Section more_get_proxy_ip_facts.
Import Utils UtilsSpec.

(** An attempt is reached when the ones before it failed in a way
    [except Exception] catches and [tries] had not come down to zero. *)
Lemma get_proxy_ip_reaches net addr e (j : nat) : forall depth k tries,
  j < depth ->
  (forall i, i < j ->
     exists e', probe (net addr (k + i)) = Raise e' /\ is_Exception e' = true) ->
  (forall i, i < j -> tries <> Z.of_nat i) ->
  probe (net addr (k + j)) = Raise e -> is_Exception e = false ->
  get_proxy_ip depth net k addr tries = Raise e.
Proof.
  induction j as [|j IH]; intros depth k tries Hd Hfail Htries He Hne.
  - destruct depth as [|depth]; [lia|]. simpl.
    rewrite Nat.add_0_r in He. by rewrite He, Hne.
  - destruct depth as [|depth]; [lia|]. simpl.
    destruct (Hfail 0) as (e' & He' & Hc'); [lia|].
    rewrite Nat.add_0_r in He'. rewrite He', Hc'.
    destruct (Z.eqb_spec tries 0) as [->|_]; [by destruct (Htries 0); [lia|]|].
    apply IH.
    + lia.
    + intros i Hi. replace (S k + i) with (k + S i) by lia. apply Hfail. lia.
    + intros i Hi Heq. apply (Htries (S i)); lia.
    + by replace (S k + j) with (k + S j) by lia.
    + done.
Qed.

(** Below zero, [tries] never comes down to zero. *)
Lemma get_proxy_ip_below_zero net addr : forall depth k tries,
  (tries < 0)%Z ->
  (forall i, exists e, probe (net addr i) = Raise e /\ is_Exception e = true) ->
  get_proxy_ip depth net k addr tries = Raise RecursionError.
Proof.
  induction depth as [|depth IH]; intros k tries Hneg Hfail; [done|].
  simpl. destruct (Hfail k) as (e & -> & ->).
  destruct (Z.eqb_spec tries 0) as [->|_]; [lia|].
  apply IH; [lia|done].
Qed.
End more_get_proxy_ip_facts.

(** X4.  [get_proxy_ip] does not swallow what is not an [Exception], a
    cancellation of the task above all: when an attempt ends in one,
    after attempts that failed and were retried, the call raises it, and
    neither retries nor returns the empty text. *)
Theorem get_proxy_ip_passes_cancellation depth net proxy_address (tries : Z)
    (j : nat) (e : exn) :
  j < depth ->
  (forall i, i < j ->
     exists e', Utils.probe (net proxy_address i) = Raise e' /\
                is_Exception e' = true) ->
  (forall i, i < j -> tries <> Z.of_nat i) ->
  Utils.probe (net proxy_address j) = Raise e -> is_Exception e = false ->
  Utils.get_proxy_ip depth net 0 proxy_address tries = Raise e.
Proof.
  intros Hd Hfail Htries He Hne.
  by apply (get_proxy_ip_reaches net proxy_address e j depth 0 tries).
Qed.

Lemma get_proxy_ip_passes_cancellation_witness :
  1 < 1000 /\
  Utils.probe (UtilsSpec.cancelled_at_second
                 (text "socks5://192.168.1.2:8000") 1)
  = Raise CancelledError /\
  Utils.get_proxy_ip 1000 UtilsSpec.cancelled_at_second 0
    (text "socks5://192.168.1.2:8000") 3
  = Raise CancelledError.
Proof.
  split; [lia|]. split; [reflexivity|].
  apply (get_proxy_ip_passes_cancellation 1000 UtilsSpec.cancelled_at_second
           _ 3 1 CancelledError).
  - lia.
  - intros i Hi. assert (i = 0) as -> by lia.
    exists TimeoutError. split; reflexivity.
  - intros i Hi. assert (i = 0) as -> by lia. done.
  - reflexivity.
  - reflexivity.
Defined.

(** X5.  With [tries] below zero the test [not tries] never holds: through a
    proxy that fails every attempt, [get_proxy_ip] does not return the
    empty text but calls itself until the interpreter's limit on nested
    calls ends it with a [RecursionError]. *)
Theorem get_proxy_ip_negative_tries depth net proxy_address (tries : Z) :
  (tries < 0)%Z ->
  (forall i, exists e,
     Utils.probe (net proxy_address i) = Raise e /\ is_Exception e = true) ->
  Utils.get_proxy_ip depth net 0 proxy_address tries = Raise RecursionError.
Proof. apply get_proxy_ip_below_zero. Qed.

Lemma get_proxy_ip_negative_tries_witness :
  (-1 < 0)%Z /\
  Utils.get_proxy_ip 1000 UtilsSpec.unreachable 0
    (text "socks5://192.168.1.2:8000") (-1)
  = Raise RecursionError.
Proof.
  split; [lia|].
  apply get_proxy_ip_negative_tries; [lia|].
  intros i. exists TimeoutError. split; reflexivity.
Defined.

(** ** [get_first_success], case by case *)

Section more_get_first_success_facts.
Import Utils UtilsSpec.
Context {T : Type}.
Implicit Types (completed fails rest : list (completion T)) (pending : nat).

Lemma ordinary_failure_Failed e :
  ordinary_failure (T:=T) (Failed e) <-> is_Exception e = true.
Proof.
  split; [by intros (e' & [= <-] & ?) | intros; by exists e].
Qed.

Lemma first_success_loop_Returned exception completed pending value :
  first_success_loop exception completed pending = Returned value <->
  exists fails rest,
    completed = fails ++ Succeeded value :: rest /\
    Forall ordinary_failure fails.
Proof.
  split.
  - revert exception.
    induction completed as [|[v|e] l IH]; intros exception; simpl.
    + by destruct pending, exception as [exc|]; try destruct (is_CancelledError exc).
    + intros [= ->]. by exists [], l.
    + destruct (is_Exception e) eqn:He; [|done].
      intros (fails & rest & -> & Hf)%IH.
      exists (Failed e :: fails), rest. split; [done|].
      constructor; [by apply ordinary_failure_Failed | done].
  - intros (fails & rest & -> & Hf). by apply first_success_loop_skips.
Qed.

Lemma first_success_loop_Waits exception completed pending :
  first_success_loop exception completed pending = Waits <->
  pending <> 0 /\ Forall ordinary_failure completed.
Proof.
  revert exception.
  induction completed as [|[v|e] l IH]; intros exception; simpl.
  - destruct pending.
    + split; [|by intros [? _]].
      by destruct exception as [exc|]; try destruct (is_CancelledError exc).
    + split; [done|]. done.
  - split; [done|]. intros [_ (e & ? & _)%Forall_cons_1%proj1]. done.
  - destruct (is_Exception e) eqn:He.
    + rewrite IH. split; intros [? ?]; split; try done.
      * constructor; [by apply ordinary_failure_Failed | done].
      * by apply Forall_cons_1 in H0 as [_ ?].
    + split; [done|].
      intros [_ [Hord _]%Forall_cons_1].
      apply ordinary_failure_Failed in Hord. congruence.
Qed.

Lemma first_success_loop_Raised exception completed pending e :
  caught_opt exception ->
  first_success_loop exception completed pending = Raised e ->
  (is_Exception e = false /\
   exists fails rest,
     completed = fails ++ Failed e :: rest /\ Forall ordinary_failure fails) \/
  (is_Exception e = true /\ pending = 0 /\ Forall ordinary_failure completed /\
   e = default (default TypeError exception)
               (last completed ≫= failure_of)).
Proof.
  revert exception.
  induction completed as [|[v|e0] l IH]; intros exception Hx; simpl.
  - destruct pending; [|done].
    destruct exception as [exc|]; simpl in *.
    + assert (is_CancelledError exc = false) as -> by (by destruct exc).
      simpl. intros [= <-]. right. by repeat split.
    + intros [= <-]. right. by repeat split.
  - done.
  - destruct (is_Exception e0) eqn:He0.
    + intros H. apply IH in H as [(Hne & fails & rest & -> & Hf)|(He & Hp & Hf & ->)];
        [| |done].
      * left. split; [done|]. exists (Failed e0 :: fails), rest.
        split; [done|]. constructor; [by apply ordinary_failure_Failed|done].
      * right. repeat split; try done.
        { constructor; [by apply ordinary_failure_Failed|done]. }
        destruct l as [|c l]; [done|].
        change (last (Failed e0 :: c :: l)) with (last (c :: l)).
        destruct (last (c :: l)) as [c'|] eqn:Hlast; [|by apply last_None in Hlast].
        simpl. destruct c' as [v'|e']; simpl; [|done].
        apply last_Some in Hlast as [l' Hl'].
        rewrite Hl' in Hf. apply Forall_app in Hf as [_ Hf].
        apply Forall_cons_1 in Hf as [(? & ? & _) _]. done.
    + intros [= <-]. left. split; [done|]. by exists [], l.
Qed.

Lemma first_success_loop_all_fail completed : forall exception,
  Forall ordinary_failure completed ->
  caught_opt exception ->
  first_success_loop exception completed 0
  = Raised (default (default TypeError exception)
                    (last completed ≫= failure_of)).
Proof.
  induction completed as [|c l IH]; intros exception Hf Hx; simpl.
  - destruct exception as [exc|]; simpl in *; [|done].
    by assert (is_CancelledError exc = false) as -> by (by destruct exc).
  - apply Forall_cons_1 in Hf as [(e & -> & He) Hf]. rewrite He.
    rewrite IH; [|done|done]. f_equal.
    destruct l as [|c l]; [done|].
    change (last (Failed e :: c :: l)) with (last (c :: l)).
    destruct (last (c :: l)) as [c'|] eqn:Hlast; [|by apply last_None in Hlast].
    simpl. destruct c' as [v'|e']; simpl; [|done].
    apply last_Some in Hlast as [l' Hl'].
    rewrite Hl' in Hf. apply Forall_app in Hf as [_ Hf].
    apply Forall_cons_1 in Hf as [(? & ? & _) _]. done.
Qed.
End more_get_first_success_facts.

Section get_first_success_cases.
Import Utils UtilsSpec.
Context {T : Type}.
Implicit Types (completed fails rest : list (completion T)) (pending : nat).

Lemma first_success_loop_stops exception fails e rest pending :
  Forall ordinary_failure fails -> is_Exception e = false ->
  first_success_loop exception (fails ++ Failed e :: rest) pending = Raised e.
Proof.
  intros Hf He. revert exception.
  induction Hf as [|c fails (e' & -> & He') _ IH]; intros exception; simpl.
  - by rewrite He.
  - rewrite He'. apply IH.
Qed.

Lemma get_first_success_Raised completed pending e :
  get_first_success completed pending = Raised e <->
  (is_Exception e = false /\
   exists fails rest,
     completed = fails ++ Failed e :: rest /\ Forall ordinary_failure fails) \/
  (is_Exception e = true /\ pending = 0 /\ Forall ordinary_failure completed /\
   e = default TypeError (last completed ≫= failure_of)).
Proof.
  unfold get_first_success. split.
  - intros H. by apply first_success_loop_Raised in H.
  - intros [(He & fails & rest & -> & Hf)|(He & -> & Hf & ->)].
    + by apply first_success_loop_stops.
    + by rewrite first_success_loop_all_fail.
Qed.
End get_first_success_cases.

(** X6.  [get_first_success] returns a value exactly when an operation ended
    with that value after every operation that ended before it had failed
    with an [Exception]; what ends later, and what never ends, plays no
    part. *)
Theorem get_first_success_returns_iff (T : Type)
    (completed : list (Utils.completion T)) (pending : nat) (value : T) :
  Utils.get_first_success completed pending = Utils.Returned value <->
  exists fails rest,
    completed = fails ++ Utils.Succeeded value :: rest /\
    Forall UtilsSpec.ordinary_failure fails.
Proof. apply first_success_loop_Returned. Qed.

(** X7.  [get_first_success] neither returns nor raises exactly when every
    operation that ended failed with an [Exception] and some operation
    never ends: it has no time limit of its own. *)
Theorem get_first_success_waits_iff (T : Type)
    (completed : list (Utils.completion T)) (pending : nat) :
  Utils.get_first_success completed pending = Utils.Waits <->
  pending <> 0 /\ Forall UtilsSpec.ordinary_failure completed.
Proof. apply first_success_loop_Waits. Qed.

(** X8.  [get_first_success] raises something that is not an [Exception]
    (a cancellation, say) exactly when an operation ended with it after
    operations that failed with an [Exception]: it is raised at once, and
    an operation that succeeds later no longer counts. *)
Theorem get_first_success_stops_at_cancellation (T : Type)
    (completed : list (Utils.completion T)) (pending : nat) (e : exn) :
  Utils.get_first_success completed pending = Utils.Raised e /\
  is_Exception e = false <->
  exists fails rest,
    completed = fails ++ Utils.Failed e :: rest /\
    Forall UtilsSpec.ordinary_failure fails /\ is_Exception e = false.
Proof.
  rewrite get_first_success_Raised. split.
  - intros [[(_ & fails & rest & -> & Hf)|(He & _)] Hne]; [|congruence].
    by exists fails, rest.
  - intros (fails & rest & -> & Hf & Hne). split; [|done].
    left. split; [done|]. by exists fails, rest.
Qed.

(** X9.  [get_first_success] raises an [Exception] exactly when no operation
    is left, every one failed with an [Exception], and it is the failure
    of the operation that ended last; over no operation at all it is a
    [TypeError], from [raise None]. *)
Theorem get_first_success_raises_last (T : Type)
    (completed : list (Utils.completion T)) (pending : nat) (e : exn) :
  (Utils.get_first_success completed pending = Utils.Raised e /\
   is_Exception e = true <->
   pending = 0 /\ Forall UtilsSpec.ordinary_failure completed /\
   e = default TypeError (last completed ≫= UtilsSpec.failure_of)) /\
  Utils.get_first_success (T:=T) [] 0 = Utils.Raised TypeError.
Proof.
  split; [|done]. rewrite get_first_success_Raised. split.
  - intros [[(Hne & _)|(_ & Hp & Hf & He)] Hex]; [congruence|done].
  - intros (-> & Hf & ->). split.
    + right. repeat split; try done.
      destruct (last completed) as [c|] eqn:Hlast; [|done].
      apply last_Some in Hlast as [l' ->].
      apply Forall_app in Hf as [_ Hf].
      by apply Forall_cons_1 in Hf as [(e & -> & He) _].
    + destruct (last completed) as [c|] eqn:Hlast; [|done].
      apply last_Some in Hlast as [l' ->].
      apply Forall_app in Hf as [_ Hf].
      by apply Forall_cons_1 in Hf as [(e & -> & He) _].
Qed.

(** ** The handlers of [configure_logging] *)

Section logging_facts.
Import Utils.

Lemma emits_one_filter lvl f record :
  emits (mk_Handler lvl [f]) record = (lvl <=? levelno record)%Z && f record.
Proof. unfold emits. simpl. by rewrite andb_true_r. Qed.

Lemma console_level debug : (DEBUG <= level (console_logging debug))%Z.
Proof. by destruct debug as [[|]|]. Qed.

Lemma logging_filter_ssh record :
  logging_filter record = true -> ssh_filter record = false.
Proof.
  unfold logging_filter, ssh_filter.
  destruct (is_broken_pipe record), (String.eqb (name record) "Ssh"); done.
Qed.
End logging_facts.

(** X10.  The three handlers of [configure_logging].  The file [debug.log] gets
    every record the console shows.  No record goes both to [debug.log]
    and to [ssh-debug.log]: the latter gets the records of the logger
    [Ssh] and nothing else.  A record of a [BrokenPipeError] goes neither
    to the console nor to [debug.log]; any other record of level [DEBUG]
    or above goes to exactly one of the two files. *)
Theorem logging_handlers_split (debug : option string)
    (record : Utils.LogRecord) :
  (Utils.emits (Utils.console_logging debug) record = true ->
   Utils.emits Utils.file_logging record = true) /\
  (Utils.emits Utils.file_logging record = true ->
   Utils.emits Utils.ssh_logging record = false) /\
  (Utils.emits Utils.ssh_logging record = true <->
   (Utils.DEBUG <= Utils.levelno record)%Z /\ Utils.name record = "Ssh") /\
  (Utils.is_broken_pipe record = true ->
   Utils.emits (Utils.console_logging debug) record = false /\
   Utils.emits Utils.file_logging record = false) /\
  ((Utils.DEBUG <= Utils.levelno record)%Z ->
   Utils.is_broken_pipe record = false ->
   xorb (Utils.emits Utils.file_logging record)
        (Utils.emits Utils.ssh_logging record) = true).
Proof.
  unfold Utils.console_logging, Utils.file_logging, Utils.ssh_logging.
  rewrite !emits_one_filter.
  pose proof (console_level debug) as Hlvl.
  unfold Utils.console_logging in Hlvl. simpl in Hlvl.
  split; [|split; [|split; [|split]]].
  - intros [Hl Hf]%andb_true_iff. apply andb_true_iff. split; [|done].
    apply Z.leb_le. apply Z.leb_le in Hl. lia.
  - intros [_ Hf]%andb_true_iff. apply logging_filter_ssh in Hf.
    rewrite Hf. apply andb_false_r.
  - rewrite andb_true_iff, Z.leb_le. unfold Utils.ssh_filter.
    by rewrite String.eqb_eq.
  - intros Hb. unfold Utils.logging_filter. rewrite Hb. simpl.
    by rewrite !andb_false_r.
  - intros Hl Hb. apply Z.leb_le in Hl. rewrite Hl. simpl.
    unfold Utils.logging_filter, Utils.ssh_filter. rewrite Hb. simpl.
    by destruct (String.eqb _ _).
Qed.

(* ===================================================================== *)
(** * More about models/models.py *)
(* ===================================================================== *)

(** ** Relations every step of a method respects *)

Section stepwise.
Import Models ModelsSpec.
Variable R : World -> World -> Prop.
Hypothesis R_refl : forall w, R w w.
Hypothesis R_trans : forall w1 w2 w3, R w1 w2 -> R w2 w3 -> R w1 w3.
Hypothesis R_ticks : forall w n, R w (with_ticks n w).
Hypothesis R_dirty : forall w d, R w (with_dirty d w).
Hypothesis R_SSH_table : forall w t, R w (with_SSH_table t w).
Hypothesis R_used_add :
  forall w q s, R w (with_used ({[ (q, s) ]} ∪ used w) w).
Hypothesis R_Port_table :
  forall w x p (f : Port -> Port),
    Port_table w !! x = Some p -> ssh (f p) = ssh p ->
    R w (with_Port_table (<[x := f p]> (Port_table w)) w).

Lemma steps_ret {A} (a : A) : steps R (mret a).
Proof. intros w. apply wp_ret, R_refl. Qed.

Lemma steps_raise {A} e : steps R (raise (A:=A) e).
Proof. intros w. by apply wp_raise. Qed.

Lemma steps_bind {A B} (m : M A) (f : A -> M B) :
  steps R m -> (forall a, steps R (f a)) -> steps R (m ≫= f).
Proof.
  intros Hm Hf w. apply wp_bind. eapply wp_mono; [apply Hm|].
  intros a w1 H1. eapply wp_mono; [apply Hf|].
  intros b w2 H2. simpl in *. exact (R_trans _ _ _ H1 H2).
Qed.

Lemma steps_for_each {X} (f : X -> M unit) l :
  (forall x, steps R (f x)) -> steps R (for_each f l).
Proof.
  intros Hf. induction l as [|x l IH]; simpl.
  - apply steps_ret.
  - apply steps_bind; [apply Hf | by intros _].
Qed.

Lemma steps_modify_world f :
  (forall w, R w (f w)) -> steps R (modify_world f).
Proof. intros Hf w. apply wp_modify_world, Hf. Qed.

Lemma steps_get_world : steps R get_world.
Proof. intros w. apply wp_get_world, R_refl. Qed.

Lemma steps_load_Port self : steps R (load_Port self).
Proof. intros w. apply wp_load_Port; [intros; apply R_refl | done]. Qed.

Lemma steps_load_SSH self : steps R (load_SSH self).
Proof. intros w. apply wp_load_SSH; [intros; apply R_refl | done]. Qed.

Lemma steps_datetime_now : steps R datetime_now.
Proof. intros w. apply wp_datetime_now, R_ticks. Qed.

Lemma R_marked e w : R w (marked e w).
Proof. unfold marked. case_decide; [apply R_refl | apply R_dirty]. Qed.

Lemma steps_write_Port self (f : Port -> Port) :
  (forall p, ssh (f p) = ssh p) -> steps R (write_Port self f).
Proof.
  intros Hf w. apply wp_write_Port; [|done].
  intros p Hp. eapply R_trans; [by apply (R_Port_table w self p f)|].
  apply R_marked.
Qed.

Lemma steps_write_SSH self (f : SSH -> SSH) : steps R (write_SSH self f).
Proof.
  intros w. apply wp_write_SSH; [|done].
  intros s Hs. eapply R_trans; [apply R_SSH_table|]. apply R_marked.
Qed.

Lemma steps_Model_before_update m : steps R (Model_before_update m).
Proof.
  unfold Model_before_update. apply steps_bind; [apply steps_datetime_now|].
  intros now. simpl. destruct (is_checking m).
  - apply steps_bind; [apply steps_datetime_now|]. intros. apply steps_ret.
  - apply steps_ret.
Qed.

Lemma steps_Port_before_update self : steps R (Port_before_update self).
Proof.
  unfold Port_before_update.
  apply steps_bind; [apply steps_load_Port|]. intros p.
  apply steps_bind; [apply steps_Model_before_update|]. intros m.
  apply steps_bind; [by apply steps_write_Port|]. intros _.
  apply steps_bind.
  { unfold Port_update_time_connected.
    apply steps_bind; [apply steps_load_Port|]. intros p1.
    destruct (is_connected p1); [destruct (time_connected p1)|].
    - by apply steps_write_Port.
    - apply steps_bind; [apply steps_datetime_now|]. intros now.
      by apply steps_write_Port.
    - by apply steps_write_Port. }
  intros _. apply steps_bind.
  { unfold Port_update_used_ssh.
    apply steps_bind; [apply steps_load_Port|]. intros p1.
    destruct (is_connected p1); [destruct (ssh p1)|]; try apply steps_ret.
    apply steps_bind.
    - intros w. apply R_refl.
    - intros l. case_decide; [|apply steps_ret].
      apply steps_modify_world. intros w. apply R_used_add. }
  intros _. unfold Port_update_proxy_address.
  apply steps_bind; [intros w; apply R_refl|]. intros address.
  apply steps_bind; [apply steps_load_Port|]. intros p1.
  by apply steps_write_Port.
Qed.

Lemma steps_SSH_before_update self : steps R (SSH_before_update self).
Proof.
  unfold SSH_before_update.
  apply steps_bind; [apply steps_load_SSH|]. intros s.
  apply steps_bind; [apply steps_Model_before_update|]. intros m.
  apply steps_bind; [apply steps_write_SSH|]. intros _.
  apply steps_bind; [intros w; apply R_refl|]. intros [q|]; [|apply steps_ret].
  apply steps_bind; [intros w; apply R_refl|]. intros ports.
  case_decide; [|apply steps_ret].
  apply steps_modify_world. intros w. apply R_used_add.
Qed.

Lemma steps_before_update e : steps R (before_update e).
Proof.
  destruct e; [apply steps_Port_before_update | apply steps_SSH_before_update].
Qed.

Lemma steps_commit : steps R commit.
Proof.
  unfold commit. apply steps_bind; [apply steps_get_world|]. intros w0.
  apply steps_bind; [apply steps_modify_world; intros; apply R_dirty|]. intros _.
  apply steps_bind; [apply steps_for_each, steps_before_update|]. intros _.
  apply steps_modify_world. intros. apply R_dirty.
Qed.

Lemma steps_renew e : steps R (renew e).
Proof.
  destruct e; simpl;
    (apply steps_bind; [apply steps_load_Port || apply steps_load_SSH|]);
    intros; apply steps_ret.
Qed.

(** A method whose body respects the relation respects it. *)
Lemma steps_auto_renew_objects {A} objs (body : M A) :
  steps R body -> steps R (auto_renew_objects objs body).
Proof.
  intros Hbody. unfold auto_renew_objects.
  apply steps_bind; [apply steps_modify_world; intros; apply R_dirty|]. intros _.
  apply steps_bind; [apply steps_for_each, steps_renew|]. intros _.
  apply steps_bind; [done|]. intros a.
  apply steps_bind; [apply steps_commit|]. intros _. apply steps_ret.
Qed.

Lemma steps_Port_set_base self f : steps R (Port_set_base self f).
Proof. unfold Port_set_base. by apply steps_write_Port. Qed.

Lemma steps_SSH_setattr self kw : steps R (SSH_setattr self kw).
Proof. destruct kw; apply steps_write_SSH. Qed.

(** The operations on a credential. *)
Lemma steps_ssh_mutation (m : mutation) :
  target m = None -> steps R (run_mutation m).
Proof.
  destruct m; try done; intros _; simpl;
    unfold SSH_begin_checking, SSH_end_checking, SSH_reset_status, SSH_set,
      SSH_set_base;
    apply steps_auto_renew_objects.
  - apply steps_write_SSH.
  - apply steps_bind; [apply steps_for_each, steps_SSH_setattr|].
    intros _. apply steps_write_SSH.
  - apply steps_bind; [apply steps_write_SSH|]. intros _. apply steps_write_SSH.
Qed.

(** A relation that does not look at the rows of the ports. *)
Lemma steps_write_Port_any self (f : Port -> Port) :
  (forall w t, R w (with_Port_table t w)) -> steps R (write_Port self f).
Proof.
  intros Hany w. apply wp_write_Port; [|done].
  intros p Hp. eapply R_trans; [apply Hany|]. apply R_marked.
Qed.

Lemma steps_Port_set_ssh_any self v :
  (forall w t, R w (with_Port_table t w)) -> steps R (Port_set_ssh self v).
Proof.
  intros Hany. unfold Port_set_ssh. apply steps_bind.
  { destruct v; [intros w; apply R_refl | apply steps_ret]. }
  intros previous. apply steps_bind; [by apply steps_write_Port_any|].
  intros _. destruct previous as [q|]; [case_decide|]; try apply steps_ret.
  by apply steps_write_Port_any.
Qed.

(** The operations on a port, given what the relation makes of an
    assignment and of a change of the histories. *)
Hypothesis R_Port_set_ssh : forall self v, steps R (Port_set_ssh self v).

Lemma steps_Port_setattr self kw : steps R (Port_setattr self kw).
Proof.
  destruct kw; simpl;
    [apply steps_Port_set_base | apply steps_Port_set_base
    |apply steps_Port_set_base | by apply steps_write_Port
    |by apply steps_write_Port | apply R_Port_set_ssh
    |by apply steps_write_Port | by apply steps_write_Port
    |by apply steps_write_Port | by apply steps_write_Port].
Qed.

Lemma steps_assign_ssh_body self v : steps R (assign_ssh_body self v).
Proof.
  unfold assign_ssh_body. apply steps_bind; [apply R_Port_set_ssh|].
  intros _. by apply steps_write_Port.
Qed.

Lemma steps_mutation_keeping (m : mutation) :
  forgets m = false -> steps R (run_mutation m).
Proof.
  destruct (target m) as [port|] eqn:Ht; [|intros _; by apply steps_ssh_mutation].
  destruct m; try done; simpl; intros Hf.
  - apply steps_auto_renew_objects, steps_assign_ssh_body.
  - apply steps_auto_renew_objects, steps_Port_set_base.
  - apply steps_auto_renew_objects.
    apply steps_bind; [apply steps_for_each, steps_Port_setattr|].
    intros _. apply steps_Port_set_base.
  - destruct remove_from_used; [done|].
    apply steps_auto_renew_objects.
    apply steps_bind; [apply steps_ret|]. intros _. apply steps_assign_ssh_body.
Qed.

Hypothesis R_used : forall w u, R w (with_used u w).

Lemma steps_mutation (m : mutation) : steps R (run_mutation m).
Proof.
  destruct (forgets m) eqn:Hf; [|by apply steps_mutation_keeping].
  destruct m as [| | |port [|]|port| | |]; try done; simpl;
    apply steps_auto_renew_objects.
  - apply steps_bind; [|intros _; apply steps_assign_ssh_body].
    apply steps_bind; [apply steps_load_Port|]. intros p.
    unfold used_ssh_list_remove. destruct (ssh p); [|apply steps_raise].
    apply steps_modify_world. intros. apply R_used.
  - apply steps_bind; [apply steps_Port_set_base|]. intros _.
    apply steps_bind; [apply steps_Port_set_base|]. intros _.
    apply steps_bind; [by apply steps_write_Port|]. intros _.
    apply steps_bind; [apply R_Port_set_ssh|]. intros _.
    apply steps_bind; [by apply steps_write_Port|]. intros _.
    apply steps_modify_world. intros. apply R_used.
Qed.
End stepwise.

(** ** Histories only grow *)

Section histories_grow.
Import Models ModelsSpec.

Lemma grows_refl w : grows w w.
Proof. by unfold grows. Qed.

Lemma grows_trans w1 w2 w3 : grows w1 w2 -> grows w2 w3 -> grows w1 w3.
Proof. unfold grows. intros H1 H2 x Hx. by apply H2, H1. Qed.

Lemma grows_same w w' : used w' = used w -> grows w w'.
Proof. unfold grows. by intros ->. Qed.

Lemma grows_marked e w w' : grows w w' -> grows w (marked e w').
Proof. unfold grows. by rewrite marked_used. Qed.

Lemma grows_write_Port self f : steps grows (write_Port self f).
Proof.
  intros w. apply wp_write_Port; [|done].
  intros p Hp. by apply grows_marked, grows_same.
Qed.

Lemma grows_Port_set_ssh self v : steps grows (Port_set_ssh self v).
Proof.
  unfold Port_set_ssh. apply (steps_bind grows grows_trans).
  { destruct v; intros w; [apply grows_refl | apply wp_ret, grows_refl]. }
  intros previous.
  apply (steps_bind grows grows_trans); [apply grows_write_Port|].
  intros _. destruct previous as [q|]; [case_decide|];
    try apply (steps_ret grows grows_refl). apply grows_write_Port.
Qed.

Lemma grows_mutation m : forgets m = false -> steps grows (run_mutation m).
Proof.
  apply steps_mutation_keeping.
  - apply grows_refl.
  - apply grows_trans.
  - intros. by apply grows_same.
  - intros. by apply grows_same.
  - intros. by apply grows_same.
  - intros w q s x Hx. simpl. apply elem_of_union. by right.
  - intros. by apply grows_same.
  - apply grows_Port_set_ssh.
Qed.
End histories_grow.

(** ** No credential on two ports *)

Section exclusive_assignment.
Import Models ModelsSpec.

Lemma exclusive_same w w' :
  Port_table w' = Port_table w -> stays_exclusive w w'.
Proof. unfold stays_exclusive, exclusive. by intros ->. Qed.

(** Putting a row in place of another keeps the assignment exclusive when
    no other port has the credential of the new row. *)
Lemma exclusive_insert w w' x p' :
  Port_table w' = <[x := p']> (Port_table w) ->
  (forall r pr s, r <> x -> Port_table w !! r = Some pr ->
     ssh p' = Some s -> ssh pr <> Some s) ->
  exclusive w -> exclusive w'.
Proof.
  intros Hw' Hfree Hex q1 q2 p1 p2 s. rewrite Hw'.
  rewrite !lookup_insert_Some.
  intros [[<- <-]|[Hn1 H1]] [[<- <-]|[Hn2 H2]] Hs1 Hs2; try done.
  - by destruct (Hfree q2 p2 s).
  - by destruct (Hfree q1 p1 s).
  - by eapply Hex.
Qed.

Lemma exclusive_keep_ssh w w' x p (f : Port -> Port) :
  Port_table w !! x = Some p -> ssh (f p) = ssh p ->
  Port_table w' = <[x := f p]> (Port_table w) ->
  exclusive w -> exclusive w'.
Proof.
  intros Hp Hf Hw' Hex. eapply exclusive_insert; [done| |done].
  intros r pr s Hr Hpr Hs Hs'. rewrite Hf in Hs.
  by apply Hr, (Hex r x pr p s).
Qed.

Lemma exclusive_unset w w' x p' :
  Port_table w' = <[x := p']> (Port_table w) -> ssh p' = None ->
  exclusive w -> exclusive w'.
Proof.
  intros Hw' Hnone. eapply exclusive_insert; [done|].
  intros r pr s _ _. by rewrite Hnone.
Qed.

Lemma holder_None w s r pr :
  holder w s = None -> Port_table w !! r = Some pr -> ssh pr <> Some s.
Proof.
  unfold holder. intros H Hr Hs.
  apply fmap_None in H. apply head_None in H.
  assert (Hin : (r, pr) ∈ filter (fun kv : Id * Port => ssh kv.2 = Some s)
                                 (map_to_list (Port_table w))).
  { apply list_elem_of_filter. split; [done|]. by apply elem_of_map_to_list. }
  rewrite H in Hin. by apply elem_of_nil in Hin.
Qed.

(** Under an exclusive assignment, [ssh.port] is the port that has the
    credential. *)
Lemma holder_exclusive w s q p :
  exclusive w -> Port_table w !! q = Some p -> ssh p = Some s ->
  holder w s = Some q.
Proof.
  intros Hex Hq Hs. destruct (holder w s) as [q'|] eqn:Hh.
  - apply holder_Some in Hh as (p' & Hq' & Hs'). f_equal. by eapply Hex.
  - by destruct (holder_None w s q p).
Qed.

Lemma exclusive_Port_set_ssh self v :
  steps stays_exclusive (Port_set_ssh self v).
Proof.
  intros w. unfold Port_set_ssh. destruct v as [s|].
  - apply wp_bind. unfold SSH_port at 1, wp at 1.
    destruct (holder w s) as [q|] eqn:Hh.
    + apply holder_Some in Hh as (pq & Hq & Hsq).
      apply wp_bind, wp_write_Port; [|done]. intros p Hp.
      case_decide as Hqs.
      * subst q. apply wp_ret. intros Hex.
        assert (p = pq) as -> by congruence.
        eapply (exclusive_keep_ssh w _ self pq (with_ssh (Some s)));
          [done|done| |done].
        by rewrite marked_Port_table.
      * apply wp_write_Port; [|rewrite marked_Port_table; simpl;
          by rewrite lookup_insert_ne].
        intros pq'. rewrite marked_Port_table. simpl.
        rewrite lookup_insert_ne by done. intros Hq'.
        assert (pq' = pq) as -> by congruence.
        intros Hex. intros q1 q2 p1 p2 s'.
        rewrite marked_Port_table. simpl.
        rewrite !lookup_insert_Some.
        assert (Hother : forall r pr,
          r <> q -> r <> self -> Port_table w !! r = Some pr -> ssh pr <> Some s).
        { intros r pr Hrq _ Hr Hs. by apply Hrq, (Hex r q pr pq s). }
        intros [[<- <-]|[Hn1 [[<- <-]|[Hm1 H1]]]]
               [[<- <-]|[Hn2 [[<- <-]|[Hm2 H2]]]] Hs1 Hs2;
          simpl in *; simplify_eq; try done.
        -- by destruct (Hother q2 p2).
        -- by destruct (Hother q1 p1).
        -- by eapply Hex.
    + apply wp_bind, wp_write_Port; [|done]. intros p Hp. apply wp_ret.
      intros Hex. eapply exclusive_insert; [by rewrite marked_Port_table| |done].
      intros r pr s' Hr Hpr [= <-]. by eapply holder_None.
  - apply wp_bind, wp_ret. apply wp_bind, wp_write_Port; [|done].
    intros p Hp. apply wp_ret. intros Hex.
    eapply exclusive_unset; [by rewrite marked_Port_table|done|done].
Qed.

Lemma exclusive_mutation m : steps stays_exclusive (run_mutation m).
Proof.
  apply steps_mutation.
  - intros w H. exact H.
  - intros w1 w2 w3 H1 H2 H. exact (H2 (H1 H)).
  - intros. by apply exclusive_same.
  - intros. by apply exclusive_same.
  - intros. by apply exclusive_same.
  - intros. by apply exclusive_same.
  - intros w x p f Hp Hf Hex.
    by eapply (exclusive_keep_ssh w _ x p f).
  - apply exclusive_Port_set_ssh.
  - intros. by apply exclusive_same.
Qed.
End exclusive_assignment.

(** ** The address of a port's proxy *)

Section addresses.
Import Models ModelsSpec.

Lemma same_host_trans w1 w2 w3 :
  same_host w1 w2 -> same_host w2 w3 -> same_host w1 w3.
Proof. unfold same_host. congruence. Qed.

Lemma same_host_mutation m : steps same_host (run_mutation m).
Proof.
  apply steps_mutation.
  - done.
  - apply same_host_trans.
  - done.
  - done.
  - done.
  - done.
  - done.
  - intros self v. apply steps_Port_set_ssh_any; try done.
    apply same_host_trans.
  - done.
Qed.

Lemma addressed_same t w w' :
  Port_table w' !! t = Port_table w !! t -> ipv4_address w' = ipv4_address w ->
  addressed t w -> addressed t w'.
Proof.
  intros Ht Hip (p & Hp & Ha). exists p. split; [by rewrite Ht|].
  unfold proxy_address_of in *. by rewrite Hip.
Qed.

(** A hook gives the port it is the hook of its address, and leaves the
    other ports theirs. *)
Lemma wp_before_update_addressed e w :
  wp (before_update e)
     (fun _ w' =>
        (forall t, e = EPort t -> addressed t w') /\
        (forall t, addressed t w -> addressed t w'))
     any_exn w.
Proof.
  destruct e as [i|i]; simpl.
  - destruct (Port_table w !! i) as [p|] eqn:Hp.
    + eapply wp_Port_before_update; [exact Hp|].
      intros w' p' now Hpost. destruct Hpost. destruct php_frame0 as [_ Hip].
      assert (Hi : addressed i w').
      { exists p'. split; [rewrite php_Port_table0; apply lookup_insert_eq|].
        unfold proxy_address_of. by rewrite php_proxy_address0, Hip, php_port_number0. }
      split; [by intros t [= <-]|].
      intros t Ht. destruct (decide (t = i)) as [->|Hne]; [done|].
      eapply addressed_same; [|exact Hip|exact Ht].
      rewrite php_Port_table0. by apply lookup_insert_ne.
    + unfold Port_before_update. apply wp_bind, wp_load_Port; [|done].
      intros p. congruence.
  - destruct (SSH_table w !! i) as [s|] eqn:Hs.
    + eapply wp_SSH_before_update; [exact Hs|].
      intros w' s' Hpost. destruct Hpost. destruct shp_frame0 as [_ Hip].
      split; [done|]. intros t. apply addressed_same; [|done].
      by rewrite shp_Port_table0.
    + unfold SSH_before_update. apply wp_bind, wp_load_SSH; [|done].
      intros s. congruence.
Qed.

Lemma wp_hooks_addressed l : forall w,
  wp (for_each before_update l)
     (fun _ w' =>
        (forall t, EPort t ∈ l -> addressed t w') /\
        (forall t, addressed t w -> addressed t w'))
     any_exn w.
Proof.
  induction l as [|e l IH]; intros w; simpl.
  - apply wp_ret. split; [by intros t ?%elem_of_nil | done].
  - apply wp_bind. eapply wp_mono; [apply wp_before_update_addressed|].
    intros [] w1 [He Hk1]. eapply wp_mono; [apply IH|].
    intros [] w2 [Hl Hk2]. split.
    + intros t [<-|Hin]%elem_of_cons; [|by apply Hl]. by apply Hk2, He.
    + intros t Ht. by apply Hk2, Hk1.
Qed.

(** A method on a port that writes the port leaves it with its address. *)
Lemma wp_auto_renew_objects_addressed {A} target objs (body : M A) w :
  body_ok target body ->
  wp (auto_renew_objects objs body) (fun _ w' => addressed target w') any_exn w.
Proof.
  intros Hbody. unfold auto_renew_objects.
  apply wp_bind, wp_modify_world. apply wp_bind, wp_renew_all.
  apply wp_bind. eapply wp_mono; [apply Hbody|].
  intros a w1 [_ Hd1]. simpl. apply wp_bind.
  unfold commit. apply wp_bind, wp_get_world. apply wp_bind, wp_modify_world.
  apply wp_bind. eapply wp_mono; [apply wp_hooks_addressed|].
  intros [] w2 [Hest _]. apply wp_modify_world, wp_ret.
  destruct (Hest target Hd1) as (p' & Hp' & Ha). by exists p'.
Qed.

Lemma exclusive_example_world : exclusive example_world.
Proof.
  intros q1 q2 p1 p2 s. unfold example_world. simpl.
  rewrite !lookup_insert_Some, !lookup_empty.
  intros [[<- _]|[_ ?]] [[<- _]|[_ ?]]; done.
Qed.

Lemma exclusive_two_port_world : exclusive two_port_world.
Proof.
  intros q1 q2 p1 p2 s. unfold two_port_world. simpl.
  rewrite !lookup_insert_Some, !lookup_empty.
  intros [[<- <-]|[_ [[<- <-]|[_ ?]]]] [[<- <-]|[_ [[<- <-]|[_ ?]]]] Hs1 Hs2;
    simpl in *; try done; congruence.
Qed.

(** [assign_ssh] returns only for a port and a credential that exist. *)
Lemma assign_ssh_returned self s w w' :
  assign_ssh self (Some s) w = Return (tt, w') ->
  is_Some (Port_table w !! self) /\ is_Some (SSH_table w !! s).
Proof.
  unfold assign_ssh, auto_renew_objects. simpl for_each.
  unfold renew, load_Port, load_SSH, modify_world, mbind, mret, M_bind, M_ret.
  simpl.
  destruct (Port_table w !! self) as [p|]; [|done].
  change (SSH_table (with_dirty [] w)) with (SSH_table w).
  destruct (SSH_table w !! s) as [row|]; [|done].
  intros _. split; by eexists.
Qed.

(** After [assign_ssh] the port has the credential, and under an
    exclusive assignment no other port has it. *)
Lemma assign_ssh_takes self s w w' :
  exclusive w -> assign_ssh self (Some s) w = Return (tt, w') ->
  (exists p', Port_table w' !! self = Some p' /\ ssh p' = Some s) /\
  (forall q pq', q <> self -> Port_table w' !! q = Some pq' -> ssh pq' <> Some s).
Proof.
  intros Hex Hrun.
  destruct (assign_ssh_returned _ _ _ _ Hrun) as [[p Hp] [row Hrow]].
  destruct (wp_returned _ _ _ _ _ _
              (assign_ssh_run self s p row w any_exn Hp Hrow) Hrun)
    as (p' & Hp' & _ & Hs' & _).
  split; [by exists p'|].
  intros q pq' Hq Hpq' Hsq. apply Hq.
  pose proof (wp_returned _ _ _ _ _ _
                (exclusive_mutation (Assign self (Some s)) w) Hrun Hex) as Hex'.
  by apply (Hex' q self pq' p' s).
Qed.
End addresses.

(** X11.  After every operation on a port that returns, the port's
    [proxy_address] is [socks5://], the address of the host, a colon and
    the port's number as it is then, whatever the operation wrote into
    the row, the address and the number included. *)
Theorem proxy_address_after_mutation (m : ModelsSpec.mutation)
    (w w' : Models.World) (port : Models.Id) :
  ModelsSpec.run_mutation m w = Return (tt, w') ->
  ModelsSpec.target m = Some port ->
  exists p',
    Models.Port_table w' !! port = Some p' /\
    Models.proxy_address p'
    = "socks5://" +:+ Models.ipv4_address w +:+ ":" +:+
      pretty (Models.port_number p').
Proof.
  intros Hrun Ht.
  destruct (body_ok_port_mutation m port Ht) as (objs & body & Heq & Hbody).
  pose proof (wp_returned _ _ _ _ _ _ (same_host_mutation m w) Hrun) as Hip.
  rewrite Heq in Hrun.
  destruct (wp_returned _ _ _ _ _ _
              (wp_auto_renew_objects_addressed port objs body w Hbody) Hrun)
    as (p' & Hp' & Ha).
  exists p'. split; [done|]. unfold ModelsSpec.same_host in Hip.
  unfold ModelsSpec.proxy_address_of in Ha. by rewrite <- Hip.
Qed.

Lemma proxy_address_after_mutation_witness :
  exists p',
    Models.Port_table
      (ModelsSpec.world_after
         (Models.Port_end_checking 1%positive
            [Models.kw_port_number 9000%Z; Models.kw_proxy_address "none"])
         ModelsSpec.example_world) !! 1%positive = Some p' /\
    Models.proxy_address p' = "socks5://192.168.1.2:9000".
Proof.
  assert (H : ModelsSpec.run_mutation
                (ModelsSpec.EndChecking 1%positive
                   [Models.kw_port_number 9000%Z; Models.kw_proxy_address "none"])
                ModelsSpec.example_world
              = Return (tt, ModelsSpec.world_after
                              (Models.Port_end_checking 1%positive
                                 [Models.kw_port_number 9000%Z;
                                  Models.kw_proxy_address "none"])
                              ModelsSpec.example_world))
    by (vm_compute; reflexivity).
  destruct (proxy_address_after_mutation _ _ _ 1%positive H eq_refl)
    as (p' & Hp' & Ha).
  exists p'. split; [exact Hp'|].
  rewrite Ha.
  vm_compute in Hp'. injection Hp' as <-. reflexivity.
Defined.

(** X12.  No operation of the two registries other than [disconnect_ssh] with
    [remove_from_used] set and [reset_status] takes a credential out of
    the history of any port. *)
Theorem history_only_grows (m : ModelsSpec.mutation) (w w' : Models.World) :
  ModelsSpec.forgets m = false ->
  ModelsSpec.run_mutation m w = Return (tt, w') ->
  forall port, Models.history w port ⊆ Models.history w' port.
Proof.
  intros Hf Hrun port s.
  pose proof (wp_returned _ _ _ _ _ _ (grows_mutation m Hf w) Hrun) as Hg.
  rewrite !elem_of_history. apply Hg.
Qed.

Lemma history_only_grows_witness :
  ModelsSpec.forgets (ModelsSpec.Disconnect 1%positive false) = false /\
  Models.history ModelsSpec.example_world 1%positive
  ⊆ Models.history
      (ModelsSpec.world_after (Models.disconnect_ssh 1%positive false)
                              ModelsSpec.example_world) 1%positive.
Proof.
  split; [reflexivity|].
  apply (history_only_grows (ModelsSpec.Disconnect 1%positive false)).
  - reflexivity.
  - vm_compute. reflexivity.
Defined.

(** X13.  A credential is the credential of at most one port, and stays so
    through every operation of the two registries.  Where it matters is
    [assign_ssh]: [Port.ssh] and [SSH.port] are the two ends of one
    one-to-one relation, so that after assigning to a port a credential
    that another port has, the port has it and the other port, like
    every other port, no longer does. *)
Theorem assignment_stays_exclusive (m : ModelsSpec.mutation)
    (w w' : Models.World) :
  ModelsSpec.exclusive w ->
  ModelsSpec.run_mutation m w = Return (tt, w') ->
  ModelsSpec.exclusive w' /\
  (forall self s,
     m = ModelsSpec.Assign self (Some s) ->
     (exists p',
        Models.Port_table w' !! self = Some p' /\ Models.ssh p' = Some s) /\
     (forall q pq',
        q <> self -> Models.Port_table w' !! q = Some pq' ->
        Models.ssh pq' <> Some s)).
Proof.
  intros Hex Hrun. split.
  - exact (wp_returned _ _ _ _ _ _ (exclusive_mutation m w) Hrun Hex).
  - intros self s ->. by apply (assign_ssh_takes self s w w').
Qed.

Lemma assignment_stays_exclusive_witness :
  ModelsSpec.exclusive ModelsSpec.two_port_world /\
  Models.ssh <$> Models.Port_table ModelsSpec.two_port_world !! 2%positive
  = Some (Some 8%positive) /\
  ModelsSpec.run_mutation (ModelsSpec.Assign 1%positive (Some 8%positive))
    ModelsSpec.two_port_world
  = Return (tt, ModelsSpec.world_after
                  (Models.assign_ssh 1%positive (Some 8%positive))
                  ModelsSpec.two_port_world) /\
  ModelsSpec.exclusive
    (ModelsSpec.world_after (Models.assign_ssh 1%positive (Some 8%positive))
                            ModelsSpec.two_port_world) /\
  Models.ssh <$>
    Models.Port_table
      (ModelsSpec.world_after (Models.assign_ssh 1%positive (Some 8%positive))
                              ModelsSpec.two_port_world) !! 1%positive
  = Some (Some 8%positive) /\
  Models.ssh <$>
    Models.Port_table
      (ModelsSpec.world_after (Models.assign_ssh 1%positive (Some 8%positive))
                              ModelsSpec.two_port_world) !! 2%positive
  = Some None.
Proof.
  assert (Hrun :
    ModelsSpec.run_mutation (ModelsSpec.Assign 1%positive (Some 8%positive))
      ModelsSpec.two_port_world
    = Return (tt, ModelsSpec.world_after
                    (Models.assign_ssh 1%positive (Some 8%positive))
                    ModelsSpec.two_port_world))
    by (vm_compute; reflexivity).
  split; [apply exclusive_two_port_world|].
  split; [vm_compute; reflexivity|].
  split; [exact Hrun|].
  split.
  - exact (proj1 (assignment_stays_exclusive _ _ _ exclusive_two_port_world Hrun)).
  - split; vm_compute; reflexivity.
Defined.

(** ** Questions to the registry *)

Section questions.
Import Models ModelsSpec.
Implicit Types (E : exn -> Prop) (w : World).

Ltac run_question Hp :=
  unfold auto_renew_objects, commit, load_Port, used_ssh_list, modify_world,
    get_world, raise, mbind, mret, M_bind, M_ret; simpl;
  unfold load_Port, mbind, mret, M_bind, M_ret; simpl;
  repeat (rewrite ?Hp; simpl).

(** What [need_ssh] answers, from the row of the port. *)
Lemma need_ssh_value self p w :
  Port_table w !! self = Some p ->
  value (need_ssh self w) = Return (bool_decide (ssh p = None)).
Proof. intros Hp. unfold need_ssh. by run_question Hp. Qed.

(** A question about a port that is not there is refused. *)
Lemma get_ssh_for_port_missing port unique choice w :
  Port_table w !! port = None ->
  get_ssh_for_port port unique choice w = Raise ObjectNotFound.
Proof. intros Hp. unfold get_ssh_for_port. by run_question Hp. Qed.

(** The world a question leaves: the one it found, with nothing to
    save. *)
Lemma get_ssh_for_port_world port unique choice w r w' :
  get_ssh_for_port port unique choice w = Return (r, w') -> w' = with_dirty [] w.
Proof.
  destruct (Port_table w !! port) as [p|] eqn:Hp;
    [|by rewrite get_ssh_for_port_missing].
  unfold get_ssh_for_port. run_question Hp.
  destruct (random choice 1 _); by intros [= _ <-].
Qed.

Lemma need_reset_world self time_expired w r w' :
  need_reset self time_expired w = Return (r, w') -> w' = with_dirty [] w.
Proof.
  unfold need_reset. destruct (Port_table w !! self) as [p|] eqn:Hp.
  - run_question Hp.
    destruct (ssh p); simpl; [destruct (time_connected p)|]; simpl;
      try done; by intros [= _ <-].
  - by run_question Hp.
Qed.

Lemma need_ssh_world self w r w' :
  need_ssh self w = Return (r, w') -> w' = with_dirty [] w.
Proof.
  unfold need_ssh. destruct (Port_table w !! self) as [p|] eqn:Hp.
  - run_question Hp. by intros [= _ <-].
  - by run_question Hp.
Qed.

(** A credential [get_ssh_for_port] returns is live and, with [unique]
    set, not in the history of the port. *)
Lemma get_ssh_for_port_Some port unique choice w s :
  value (get_ssh_for_port port unique choice w) = Return (Some s) ->
  (exists row, SSH_table w !! s = Some row /\ is_live row = true) /\
  (unique = true -> s ∉ history w port).
Proof.
  destruct (Port_table w !! port) as [p|] eqn:Hp;
    [|by rewrite get_ssh_for_port_missing].
  rewrite (get_ssh_for_port_value _ _ _ p _ Hp).
  destruct (random choice 1 (query w port unique)) as [|[s' row] tl] eqn:Hr;
    [done|].
  intros [= <-].
  apply random_first_elem, elem_of_query in Hr as (H1 & H2 & H3). eauto.
Qed.

End questions.

(** X14.  The three questions to the registry, [get_ssh_for_port], [need_reset]
    and [need_ssh], write nothing: when they answer, the rows of the
    ports and of the credentials and the histories are what they were,
    and no time was read. *)
Theorem questions_write_nothing (w w' : Models.World) (port : Models.Id) :
  (forall unique choice r,
     Models.get_ssh_for_port port unique choice w = Return (r, w') ->
     Models.Port_table w' = Models.Port_table w /\
     Models.SSH_table w' = Models.SSH_table w /\
     Models.used w' = Models.used w /\ Models.ticks w' = Models.ticks w) /\
  (forall time_expired r,
     Models.need_reset port time_expired w = Return (r, w') ->
     Models.Port_table w' = Models.Port_table w /\
     Models.SSH_table w' = Models.SSH_table w /\
     Models.used w' = Models.used w /\ Models.ticks w' = Models.ticks w) /\
  (forall r,
     Models.need_ssh port w = Return (r, w') ->
     Models.Port_table w' = Models.Port_table w /\
     Models.SSH_table w' = Models.SSH_table w /\
     Models.used w' = Models.used w /\ Models.ticks w' = Models.ticks w).
Proof.
  split; [|split].
  - by intros unique choice r ->%get_ssh_for_port_world.
  - by intros time_expired r ->%need_reset_world.
  - by intros r ->%need_ssh_world.
Qed.

(** X15.  [need_ssh] follows the assignment: it is false once a credential is
    assigned, and true again after [disconnect_ssh] and after
    [reset_status]. *)
Theorem need_ssh_follows_assignment (w : Models.World) (self : Models.Id)
    (p : Models.Port) :
  Models.Port_table w !! self = Some p ->
  (forall s, is_Some (Models.SSH_table w !! s) ->
     exists w',
       Models.assign_ssh self (Some s) w = Return (tt, w') /\
       ModelsSpec.value (Models.need_ssh self w') = Return false) /\
  (forall remove_from_used,
     (remove_from_used = true -> is_Some (Models.ssh p)) ->
     exists w',
       Models.disconnect_ssh self remove_from_used w = Return (tt, w') /\
       ModelsSpec.value (Models.need_ssh self w') = Return true) /\
  (exists w',
     Models.reset_status self w = Return (tt, w') /\
     ModelsSpec.value (Models.need_ssh self w') = Return true).
Proof.
  intros Hp. split; [|split].
  - intros s [row Hrow].
    destruct (wp_total _ _ _ (assign_ssh_run self s p row w _ Hp Hrow))
      as ([] & w' & Hrun & p' & Hp' & _ & Hs & _).
    exists w'. split; [done|].
    rewrite (need_ssh_value _ p' _ Hp'), Hs. done.
  - intros remove_from_used Hrem.
    destruct (wp_total _ _ _ (disconnect_ssh_run self remove_from_used p w _ Hp Hrem))
      as ([] & w' & Hrun & p' & Hpt & _ & Hs & _).
    exists w'. split; [done|].
    rewrite (need_ssh_value _ p' _), Hs; [done|].
    rewrite Hpt. apply lookup_insert_eq.
  - destruct (wp_total _ _ _ (reset_status_run self p w _ Hp))
      as ([] & w' & Hrun & p' & Hpt & _ & _ & Hs & _).
    exists w'. split; [done|].
    rewrite (need_ssh_value _ p' _), Hs; [done|].
    rewrite Hpt. apply lookup_insert_eq.
Qed.

Lemma need_ssh_follows_assignment_witness :
  Models.Port_table ModelsSpec.example_world !! 1%positive
  = Some (Models.mkPort (Models.mkModel false None 0%Z) 8000%Z true
            (Some 7%positive) true "1.2.3.4" (Some 5%Z)
            "socks5://192.168.1.2:8000") /\
  exists w',
    Models.reset_status 1%positive ModelsSpec.example_world = Return (tt, w') /\
    ModelsSpec.value (Models.need_ssh 1%positive w') = Return true.
Proof.
  pose proof example_world_port as H.
  split; [exact H|].
  exact (proj2 (proj2 (need_ssh_follows_assignment _ _ _ H))).
Defined.



(** X17.  [reset_status] makes a port forget what it has used: after it, every
    live credential can be what [get_ssh_for_port] returns for the port,
    with [unique] set too, and the credentials themselves are as they
    were. *)
Theorem reset_status_frees_history (w : Models.World) (self : Models.Id) :
  is_Some (Models.Port_table w !! self) ->
  exists w',
    Models.reset_status self w = Return (tt, w') /\
    Models.SSH_table w' = Models.SSH_table w /\
    ModelsSpec.eligible w' self true = ModelsSpec.live w /\
    forall s, s ∈ ModelsSpec.live w ->
      exists choice,
        ModelsSpec.value (Models.get_ssh_for_port self true choice w')
        = Return (Some s).
Proof.
  intros [p Hp].
  destruct (wp_total _ _ _ (reset_status_run self p w _ Hp))
    as ([] & w' & Hrun & p' & Hpt & Hst & _ & _ & _ & _ & _ & Hu).
  assert (Hlive : ModelsSpec.live w' = ModelsSpec.live w)
    by (unfold ModelsSpec.live; by rewrite Hst).
  assert (Hel : ModelsSpec.eligible w' self true = ModelsSpec.live w).
  { unfold ModelsSpec.eligible. rewrite (history_cleared w w' self Hu), Hlive.
    apply set_eq. intros s. rewrite elem_of_difference.
    split; [by intros [? _] | intros ?; split; [done|apply not_elem_of_empty]]. }
  exists w'. repeat split; try done.
  intros s Hs. apply get_ssh_for_port_any_eligible.
  - rewrite Hpt, lookup_insert_eq. by eexists.
  - by rewrite Hel.
Qed.

Lemma reset_status_frees_history_witness :
  is_Some (Models.Port_table ModelsSpec.example_world !! 1%positive) /\
  exists w',
    Models.reset_status 1%positive ModelsSpec.example_world = Return (tt, w') /\
    exists choice,
      ModelsSpec.value (Models.get_ssh_for_port 1%positive true choice w')
      = Return (Some 7%positive).
Proof.
  assert (H : is_Some (Models.Port_table ModelsSpec.example_world !! 1%positive))
    by (vm_compute; eauto).
  split; [exact H|].
  destruct (reset_status_frees_history _ _ H) as (w' & Hrun & _ & _ & Hany).
  exists w'. split; [exact Hrun|].
  apply Hany. apply elem_of_live. eexists. split; [reflexivity|reflexivity].
Defined.

(** ** Sessions on one entity, with the time stamps *)

Section stamped_sessions.
Import Models ModelsSpec.
Implicit Types (E : exn -> Prop) (w : World).

(** The hook of a port, with what it makes of the inherited columns. *)
Lemma wp_Port_before_update_stamp self p (Q : unit -> World -> Prop) E w :
  Port_table w !! self = Some p ->
  (forall w' p' now,
     Port_hook_post self p w w' p' now ->
     port_base p' = Model_saved w (port_base p) -> Q tt w') ->
  wp (Port_before_update self) Q E w.
Proof.
  intros Hp HQ. unfold Port_before_update.
  wp_load. apply wp_bind, wp_Model_before_update. wp_write.
  apply wp_bind.
  eapply wp_Port_update_time_connected; [world_simpl; by simplify_map_eq|].
  intros w1 now [Hclk1 Hip1] Hssh1 Hused1 Hpt1. world_simpl.
  apply wp_bind.
  eapply wp_Port_update_used_ssh; [rewrite Hpt1; by simplify_map_eq|].
  intros w2 [Hclk2 Hip2] Hssh2 Hpt2 Hused2. world_simpl.
  eapply wp_Port_update_proxy_address;
    [rewrite Hpt2, Hpt1; by simplify_map_eq|].
  intros w3 [Hclk3 Hip3] Hssh3 Hused3 Hpt3. world_simpl.
  eapply (HQ w3 _ now); [split|].
  - split; congruence.
  - rewrite Hpt3, Hpt2, Hpt1. by rewrite !insert_insert_eq.
  - congruence.
  - simpl. apply Model_saved_is_checking.
  - done.
  - done.
  - done.
  - done.
  - done.
  - done.
  - rewrite Hused3, Hused2, Hused1. done.
  - simpl. by rewrite Hip2, Hip1.
  - done.
Qed.

(** The hook of a credential, with what it makes of the inherited
    columns. *)
Lemma wp_SSH_before_update_stamp self s (Q : unit -> World -> Prop) E w :
  SSH_table w !! self = Some s ->
  (forall w' s',
     SSH_hook_post self s w w' s' ->
     ssh_base s' = Model_saved w (ssh_base s) -> Q tt w') ->
  wp (SSH_before_update self) Q E w.
Proof.
  intros Hs HQ. unfold SSH_before_update.
  wp_load. wp_seq. apply wp_Model_before_update. wp_write.
  apply wp_bind. unfold SSH_port at 1, wp at 1.
  rewrite (holder_Port_table w) by world_done.
  set (s' := with_ssh_base _ s).
  assert (Hpost : forall w' u,
    frame w w' -> SSH_table w' = <[self := s']> (SSH_table w) ->
    Port_table w' = Port_table w -> used w' = u ->
    u = match holder w self with
        | Some q => {[ (q, self) ]} ∪ used w
        | None => used w
        end -> Q tt w').
  { intros w' u Hf Hst Hpt Hu ->. apply (HQ w' s'); [|done]. split; try done.
    apply Model_saved_is_checking. }
  destruct (holder w self) as [q|] eqn:Hq.
  - apply wp_bind. unfold used_ports at 1, wp at 1. case_decide as Hin.
    + apply wp_modify_world. eapply Hpost; world_done.
    + apply wp_ret. eapply Hpost; try world_done.
      apply elem_of_ports_of in Hin. world_simpl.
      apply set_eq. intros x. rewrite elem_of_union, elem_of_singleton.
      split; [by right | by intros [->|]].
  - apply wp_ret. eapply Hpost; world_done.
Qed.

(** What a method on a port leaves that writes the port only, and makes
    [g p] of its row [p], once the session has ended. *)
Lemma Port_session_run self p (body : M unit) (g : Port -> Port) w E :
  Port_table w !! self = Some p ->
  (forall w0 (Q : unit -> World -> Prop),
     Port_table w0 = Port_table w -> dirty w0 = [] ->
     (forall w1,
        Port_table w1 = <[self := g p]> (Port_table w0) ->
        SSH_table w1 = SSH_table w0 -> used w1 = used w0 ->
        frame w0 w1 -> ticks w1 = ticks w0 -> dirty w1 = [EPort self] ->
        Q tt w1) ->
     wp body Q E w0) ->
  wp (auto_renew_objects [EPort self] body)
     (fun _ w' =>
        exists p' now,
          Port_table w' = <[self := p']> (Port_table w) /\
          SSH_table w' = SSH_table w /\
          port_base p' = Model_saved w (port_base (g p)) /\
          port_number p' = port_number (g p) /\
          auto_connect p' = auto_connect (g p) /\
          ssh p' = ssh (g p) /\
          is_connected p' = is_connected (g p) /\
          external_ip p' = external_ip (g p) /\
          time_connected p' =
            (if is_connected (g p)
             then Some (default now (time_connected (g p))) else None) /\
          used w' =
            (if is_connected (g p) then
               match ssh (g p) with
               | Some s => {[ (self, s) ]} ∪ used w
               | None => used w
               end
             else used w))
     E w.
Proof.
  intros Hp Hbody. unfold auto_renew_objects.
  apply wp_bind, wp_modify_world. simpl for_each.
  wp_seq. wp_seq. wp_load. apply wp_ret. apply wp_ret.
  wp_seq. apply Hbody; [done|done|].
  intros w1 Hpt1 Hst1 Hu1 [Hc1 Hi1] Ht1 Hd1. simpl in *.
  apply wp_bind. unfold commit.
  apply wp_bind, wp_get_world. apply wp_bind, wp_modify_world.
  rewrite Hd1. simpl. apply wp_bind, wp_bind.
  eapply wp_Port_before_update_stamp.
  { simpl. rewrite Hpt1. apply lookup_insert_eq. }
  intros w' p' now Hpost Hbase. apply wp_ret, wp_modify_world, wp_ret.
  exists p', now. destruct Hpost. simpl in *.
  rewrite php_Port_table0, Hpt1, insert_insert_eq.
  rewrite Hbase. unfold Model_saved. simpl. rewrite Hc1, Ht1.
  rewrite Hu1 in php_used0.
  repeat split; try done; congruence.
Qed.

(** The same for a method on a credential. *)
Lemma SSH_session_run self row (body : M unit) (g : SSH -> SSH) w E :
  SSH_table w !! self = Some row ->
  (forall w0 (Q : unit -> World -> Prop),
     SSH_table w0 = SSH_table w -> dirty w0 = [] ->
     (forall w1,
        SSH_table w1 = <[self := g row]> (SSH_table w0) ->
        Port_table w1 = Port_table w0 -> used w1 = used w0 ->
        frame w0 w1 -> ticks w1 = ticks w0 -> dirty w1 = [ESSH self] ->
        Q tt w1) ->
     wp body Q E w0) ->
  wp (auto_renew_objects [ESSH self] body)
     (fun _ w' =>
        exists s',
          SSH_table w' = <[self := s']> (SSH_table w) /\
          Port_table w' = Port_table w /\
          ssh_base s' = Model_saved w (ssh_base (g row)) /\
          ip s' = ip (g row) /\ username s' = username (g row) /\
          password s' = password (g row) /\ is_live s' = is_live (g row) /\
          used w' =
            match holder w self with
            | Some q => {[ (q, self) ]} ∪ used w
            | None => used w
            end)
     E w.
Proof.
  intros Hrow Hbody. unfold auto_renew_objects.
  apply wp_bind, wp_modify_world. simpl for_each.
  wp_seq. wp_seq. wp_load. apply wp_ret. apply wp_ret.
  wp_seq. apply Hbody; [done|done|].
  intros w1 Hst1 Hpt1 Hu1 [Hc1 Hi1] Ht1 Hd1. simpl in *.
  apply wp_bind. unfold commit.
  apply wp_bind, wp_get_world. apply wp_bind, wp_modify_world.
  rewrite Hd1. simpl. apply wp_bind, wp_bind.
  eapply wp_SSH_before_update_stamp.
  { simpl. rewrite Hst1. apply lookup_insert_eq. }
  intros w' s' Hpost Hbase. apply wp_ret, wp_modify_world, wp_ret.
  exists s'. destruct Hpost. simpl in *.
  rewrite shp_SSH_table0, Hst1, insert_insert_eq.
  rewrite Hbase. unfold Model_saved. simpl. rewrite Hc1, Ht1.
  rewrite (holder_Port_table w) in shp_used0 by (simpl; done).
  rewrite Hu1 in shp_used0.
  repeat split; try done; congruence.
Qed.
End stamped_sessions.

(** ** The check of a port and of a credential *)

Section checks.
Import Models ModelsSpec.
Implicit Types (E : exn -> Prop) (w : World).

(** One write of a body that has written nothing yet, or the port
    only. *)
Lemma wp_first_write_Port self p f (Q : unit -> World -> Prop) E w0 :
  Port_table w0 !! self = Some p -> dirty w0 = [] ->
  Q tt (with_dirty [EPort self]
          (with_Port_table (<[self := f p]> (Port_table w0)) w0)) ->
  wp (write_Port self f) Q E w0.
Proof.
  intros Hp Hd HQ. apply wp_write_Port; [|congruence].
  intros p0 Hp0. assert (p0 = p) as -> by congruence.
  by rewrite marked_fresh.
Qed.

Lemma wp_first_write_SSH self row f (Q : unit -> World -> Prop) E w0 :
  SSH_table w0 !! self = Some row -> dirty w0 = [] ->
  Q tt (with_dirty [ESSH self]
          (with_SSH_table (<[self := f row]> (SSH_table w0)) w0)) ->
  wp (write_SSH self f) Q E w0.
Proof.
  intros Hp Hd HQ. apply wp_write_SSH; [|congruence].
  intros p0 Hp0. assert (p0 = row) as -> by congruence.
  by rewrite marked_fresh.
Qed.

Lemma wp_next_write_SSH self row f (Q : unit -> World -> Prop) E w0 :
  SSH_table w0 !! self = Some row -> dirty w0 = [ESSH self] ->
  Q tt (with_SSH_table (<[self := f row]> (SSH_table w0)) w0) ->
  wp (write_SSH self f) Q E w0.
Proof.
  intros Hp Hd HQ. apply wp_write_SSH; [|congruence].
  intros p0 Hp0. assert (p0 = row) as -> by congruence.
  by rewrite marked_again.
Qed.

Lemma Port_begin_checking_run obj p w E :
  Port_table w !! obj = Some p ->
  wp (Port_begin_checking obj)
     (fun _ w' =>
        exists p',
          Port_table w' = <[obj := p']> (Port_table w) /\
          SSH_table w' = SSH_table w /\
          port_base p'
          = mkModel true (Some (clock w (S (ticks w)))) (clock w (ticks w)) /\
          ssh p' = ssh p /\ is_connected p' = is_connected p /\
          external_ip p' = external_ip p /\
          (forall t, is_connected p = true -> time_connected p = Some t ->
             time_connected p' = Some t) /\
          used w' = (if is_connected p then
                       match ssh p with
                       | Some s => {[ (obj, s) ]} ∪ used w
                       | None => used w
                       end
                     else used w))
     E w.
Proof.
  intros Hp. unfold Port_begin_checking.
  eapply wp_mono.
  - apply (Port_session_run obj p _
             (fun p => with_port_base (with_is_checking true (port_base p)) p));
      [done|].
    intros w0 Q Hpt0 Hd0 HQ. unfold Port_set_base.
    apply (wp_first_write_Port obj p); [congruence|done|].
    apply HQ; done.
  - intros [] w' (p' & now & Hpt & Hst & Hb & _ & _ & Hs & Hc & Hip & Htc & Hu).
    simpl in *. exists p'. repeat split; try done.
    intros t Hcon Ht. rewrite Htc, Hcon, Ht. done.
Qed.

Lemma Port_end_checking_nil_run obj p w E :
  Port_table w !! obj = Some p ->
  wp (Port_end_checking obj [])
     (fun _ w' =>
        exists p',
          Port_table w' = <[obj := p']> (Port_table w) /\
          SSH_table w' = SSH_table w /\
          port_base p'
          = mkModel false (last_checked (port_base p)) (clock w (ticks w)) /\
          ssh p' = ssh p /\ is_connected p' = is_connected p /\
          external_ip p' = external_ip p)
     E w.
Proof.
  intros Hp. unfold Port_end_checking.
  eapply wp_mono.
  - apply (Port_session_run obj p _
             (fun p => with_port_base (with_is_checking false (port_base p)) p));
      [done|].
    intros w0 Q Hpt0 Hd0 HQ. unfold Port_set, Port_set_base. simpl for_each.
    apply wp_bind, wp_ret.
    apply (wp_first_write_Port obj p); [congruence|done|].
    apply HQ; done.
  - intros [] w' (p' & now & Hpt & Hst & Hb & _ & _ & Hs & Hc & Hip & _).
    simpl in *. exists p'. by repeat split.
Qed.

Lemma SSH_begin_checking_body s row w :
  SSH_table w !! s = Some row ->
  forall w0 (Q : unit -> World -> Prop) E,
    SSH_table w0 = SSH_table w -> dirty w0 = [] ->
    (forall w1,
       SSH_table w1
       = <[s := with_ssh_base (with_is_checking true (ssh_base row)) row]>
           (SSH_table w0) ->
       Port_table w1 = Port_table w0 -> used w1 = used w0 ->
       frame w0 w1 -> ticks w1 = ticks w0 -> dirty w1 = [ESSH s] ->
       Q tt w1) ->
    wp (SSH_set_base s (with_is_checking true)) Q E w0.
Proof.
  intros Hrow w0 Q E Hst0 Hd0 HQ. unfold SSH_set_base.
  apply (wp_first_write_SSH s row); [congruence|done|]. apply HQ; done.
Qed.

Lemma SSH_end_checking_body s row kwargs (g : SSH -> SSH) w :
  SSH_table w !! s = Some row ->
  (kwargs = [] /\ g = (fun r => r) \/
   exists v, kwargs = [kw_is_live v] /\ g = with_is_live v) ->
  forall w0 (Q : unit -> World -> Prop) E,
    SSH_table w0 = SSH_table w -> dirty w0 = [] ->
    (forall w1,
       SSH_table w1
       = <[s := with_ssh_base (with_is_checking false (ssh_base (g row))) (g row)]>
           (SSH_table w0) ->
       Port_table w1 = Port_table w0 -> used w1 = used w0 ->
       frame w0 w1 -> ticks w1 = ticks w0 -> dirty w1 = [ESSH s] ->
       Q tt w1) ->
    wp (SSH_set s kwargs;; SSH_set_base s (with_is_checking false)) Q E w0.
Proof.
  intros Hrow Hk w0 Q E Hst0 Hd0 HQ. unfold SSH_set, SSH_set_base.
  destruct Hk as [[-> ->]|(v & -> & ->)]; simpl for_each.
  - apply wp_bind, wp_ret.
    apply (wp_first_write_SSH s row); [congruence|done|]. apply HQ; done.
  - apply wp_bind, wp_bind. simpl SSH_setattr.
    apply (wp_first_write_SSH s row); [congruence|done|]. apply wp_ret.
    apply (wp_next_write_SSH s (with_is_live v row));
      [simpl; apply lookup_insert_eq|done|].
    apply HQ; simpl; try done. by rewrite insert_insert_eq.
Qed.

Lemma SSH_reset_status_body s row w :
  SSH_table w !! s = Some row ->
  forall w0 (Q : unit -> World -> Prop) E,
    SSH_table w0 = SSH_table w -> dirty w0 = [] ->
    (forall w1,
       SSH_table w1
       = <[s := with_ssh_base
                  (with_last_checked None (with_is_checking false (ssh_base row)))
                  row]> (SSH_table w0) ->
       Port_table w1 = Port_table w0 -> used w1 = used w0 ->
       frame w0 w1 -> ticks w1 = ticks w0 -> dirty w1 = [ESSH s] ->
       Q tt w1) ->
    wp (SSH_set_base s (with_is_checking false);;
        SSH_set_base s (with_last_checked None)) Q E w0.
Proof.
  intros Hrow w0 Q E Hst0 Hd0 HQ. unfold SSH_set_base.
  apply wp_bind.
  apply (wp_first_write_SSH s row); [congruence|done|].
  apply (wp_next_write_SSH s
           (with_ssh_base (with_is_checking false (ssh_base row)) row));
    [simpl; apply lookup_insert_eq|done|].
  apply HQ; simpl; try done. by rewrite insert_insert_eq.
Qed.
End checks.

(** X18.  [begin_checking] on a port sets [is_checking] and, through the update
    hook, stamps the row: [last_modified] is the time the hook reads
    first and [last_checked] the time it reads next.  [end_checking]
    without keyword arguments unsets [is_checking] and leaves
    [last_checked] as it was.  Neither changes the assignment, the
    connection state or the external address. *)
Theorem port_check_stamps (w : Models.World) (obj : Models.Id)
    (p : Models.Port) :
  Models.Port_table w !! obj = Some p ->
  (exists w' p',
     Models.Port_begin_checking obj w = Return (tt, w') /\
     Models.Port_table w' !! obj = Some p' /\
     Models.is_checking (Models.port_base p') = true /\
     Models.last_modified (Models.port_base p')
     = Models.clock w (Models.ticks w) /\
     Models.last_checked (Models.port_base p')
     = Some (Models.clock w (S (Models.ticks w))) /\
     Models.ssh p' = Models.ssh p /\
     Models.is_connected p' = Models.is_connected p /\
     Models.external_ip p' = Models.external_ip p) /\
  (exists w' p',
     Models.Port_end_checking obj [] w = Return (tt, w') /\
     Models.Port_table w' !! obj = Some p' /\
     Models.is_checking (Models.port_base p') = false /\
     Models.last_modified (Models.port_base p')
     = Models.clock w (Models.ticks w) /\
     Models.last_checked (Models.port_base p')
     = Models.last_checked (Models.port_base p) /\
     Models.ssh p' = Models.ssh p /\
     Models.is_connected p' = Models.is_connected p /\
     Models.external_ip p' = Models.external_ip p).
Proof.
  intros Hp. split.
  - destruct (wp_total _ _ _ (Port_begin_checking_run obj p w _ Hp))
      as ([] & w' & Hrun & p' & Hpt & _ & Hb & Hs & Hc & Hip & _).
    exists w', p'. rewrite Hpt, lookup_insert_eq, Hb. by repeat split.
  - destruct (wp_total _ _ _ (Port_end_checking_nil_run obj p w _ Hp))
      as ([] & w' & Hrun & p' & Hpt & _ & Hb & Hs & Hc & Hip).
    exists w', p'. rewrite Hpt, lookup_insert_eq, Hb. by repeat split.
Qed.

Lemma port_check_stamps_witness :
  Models.Port_table ModelsSpec.example_world !! 1%positive
  = Some (Models.mkPort (Models.mkModel false None 0%Z) 8000%Z true
            (Some 7%positive) true "1.2.3.4" (Some 5%Z)
            "socks5://192.168.1.2:8000") /\
  exists w' p',
    Models.Port_begin_checking 1%positive ModelsSpec.example_world
    = Return (tt, w') /\
    Models.Port_table w' !! 1%positive = Some p' /\
    Models.is_checking (Models.port_base p') = true /\
    Models.last_modified (Models.port_base p') = 100%Z /\
    Models.last_checked (Models.port_base p') = Some 101%Z.
Proof.
  pose proof example_world_port as H.
  split; [exact H|].
  destruct (proj1 (port_check_stamps _ _ _ H))
    as (w' & p' & Hrun & Hp' & Hc & Hm & Hl & _).
  exists w', p'. split; [exact Hrun|]. split; [exact Hp'|].
  split; [exact Hc|]. split; [exact Hm | exact Hl].
Defined.

(** X19.  The methods of [Model] on a credential.  [begin_checking] sets
    [is_checking] and stamps [last_modified] and [last_checked] with the
    two times the update hook reads; [end_checking] without keyword
    arguments unsets [is_checking] and keeps [last_checked];
    [reset_status] unsets [is_checking] and forgets [last_checked].  All
    three leave the address, the user name, the password and the
    liveness of the credential as they were. *)
Theorem credential_check_stamps (w : Models.World) (s : Models.Id)
    (row : Models.SSH) :
  Models.SSH_table w !! s = Some row ->
  (exists w' row',
     Models.SSH_begin_checking s w = Return (tt, w') /\
     Models.SSH_table w' !! s = Some row' /\
     Models.ssh_base row'
     = Models.mkModel true (Some (Models.clock w (S (Models.ticks w))))
                      (Models.clock w (Models.ticks w)) /\
     Models.ip row' = Models.ip row /\
     Models.username row' = Models.username row /\
     Models.password row' = Models.password row /\
     Models.is_live row' = Models.is_live row) /\
  (exists w' row',
     Models.SSH_end_checking s [] w = Return (tt, w') /\
     Models.SSH_table w' !! s = Some row' /\
     Models.ssh_base row'
     = Models.mkModel false (Models.last_checked (Models.ssh_base row))
                      (Models.clock w (Models.ticks w)) /\
     Models.ip row' = Models.ip row /\
     Models.username row' = Models.username row /\
     Models.password row' = Models.password row /\
     Models.is_live row' = Models.is_live row) /\
  (exists w' row',
     Models.SSH_reset_status s w = Return (tt, w') /\
     Models.SSH_table w' !! s = Some row' /\
     Models.ssh_base row'
     = Models.mkModel false None (Models.clock w (Models.ticks w)) /\
     Models.ip row' = Models.ip row /\
     Models.username row' = Models.username row /\
     Models.password row' = Models.password row /\
     Models.is_live row' = Models.is_live row).
Proof.
  intros Hrow. split; [|split].
  - destruct (wp_total _ _ _
                (SSH_session_run s row _ _ w _ Hrow
                   (fun w0 Q => SSH_begin_checking_body s row w Hrow w0 Q _)))
      as ([] & w' & Hrun & row' & Hst & _ & Hb & Hi & Hu & Hp & Hl & _).
    exists w', row'. rewrite Hst, lookup_insert_eq. by repeat split.
  - destruct (wp_total _ _ _
                (SSH_session_run s row _ _ w _ Hrow
                   (fun w0 Q => SSH_end_checking_body s row [] (fun r => r) w Hrow
                                  (or_introl (conj eq_refl eq_refl)) w0 Q _)))
      as ([] & w' & Hrun & row' & Hst & _ & Hb & Hi & Hu & Hp & Hl & _).
    exists w', row'. rewrite Hst, lookup_insert_eq. by repeat split.
  - destruct (wp_total _ _ _
                (SSH_session_run s row _ _ w _ Hrow
                   (fun w0 Q => SSH_reset_status_body s row w Hrow w0 Q _)))
      as ([] & w' & Hrun & row' & Hst & _ & Hb & Hi & Hu & Hp & Hl & _).
    exists w', row'. rewrite Hst, lookup_insert_eq. by repeat split.
Qed.

Lemma credential_check_stamps_witness :
  Models.SSH_table ModelsSpec.example_world !! 7%positive
  = Some (Models.mkSSH (Models.mkModel false None 0%Z)
                       "10.0.0.5" "user1" "pass1" true) /\
  exists w' row',
    Models.SSH_reset_status 7%positive ModelsSpec.example_world
    = Return (tt, w') /\
    Models.SSH_table w' !! 7%positive = Some row' /\
    Models.ssh_base row' = Models.mkModel false None 100%Z /\
    Models.ip row' = "10.0.0.5".
Proof.
  assert (H : Models.SSH_table ModelsSpec.example_world !! 7%positive
              = Some (Models.mkSSH (Models.mkModel false None 0%Z)
                                   "10.0.0.5" "user1" "pass1" true))
    by reflexivity.
  split; [exact H|].
  destruct (proj2 (proj2 (credential_check_stamps _ _ _ H)))
    as (w' & row' & Hrun & Hrow' & Hb & Hi & _).
  exists w', row'. split; [exact Hrun|]. split; [exact Hrow'|].
  split; [exact Hb | exact Hi].
Defined.

(** X20.  The time of connection is taken once.  Marking a port connected
    gives it a time of connection if it had none and keeps the one it
    had, so marking it again does not make the connection look younger;
    [need_reset] then answers, for every cutoff, and by that first
    time. *)
Theorem connection_time_kept (w : Models.World) (self : Models.Id)
    (p : Models.Port) (external_ip : string) :
  Models.Port_table w !! self = Some p ->
  exists w' p',
    ModelsSpec.mark_connected self external_ip w = Return (tt, w') /\
    Models.Port_table w' !! self = Some p' /\
    Models.is_connected p' = true /\
    is_Some (Models.time_connected p') /\
    (forall t, Models.time_connected p = Some t ->
       Models.time_connected p' = Some t) /\
    (forall cutoff, exists answer,
       ModelsSpec.value (Models.need_reset self cutoff w') = Return answer) /\
    (forall t s cutoff,
       Models.time_connected p = Some t -> Models.ssh p = Some s ->
       ModelsSpec.value (Models.need_reset self cutoff w')
       = Return (bool_decide (t < cutoff)%Z)).
Proof.
  intros Hp.
  destruct (wp_total _ _ _ (mark_connected_run self external_ip p w _ Hp))
    as ([] & w' & Hrun & p' & now & Hpt & _ & Hs & Hc & Htc & _).
  assert (Hp' : Models.Port_table w' !! self = Some p')
    by (rewrite Hpt; apply lookup_insert_eq).
  exists w', p'.
  split; [done|]. split; [done|]. split; [done|].
  split; [rewrite Htc; by eexists|].
  split; [intros t Ht; by rewrite Htc, Ht|]. split.
  - intros cutoff. rewrite (need_reset_value _ _ p' _ Hp'), Htc.
    destruct (Models.ssh p'); by eexists.
  - intros t s cutoff Ht Hs'.
    rewrite (need_reset_value _ _ p' _ Hp'), Htc, Hs, Hs', Ht. done.
Qed.

Lemma connection_time_kept_witness :
  Models.Port_table ModelsSpec.example_world !! 1%positive
  = Some (Models.mkPort (Models.mkModel false None 0%Z) 8000%Z true
            (Some 7%positive) true "1.2.3.4" (Some 5%Z)
            "socks5://192.168.1.2:8000") /\
  exists w' p',
    ModelsSpec.mark_connected 1%positive "5.6.7.8" ModelsSpec.example_world
    = Return (tt, w') /\
    Models.Port_table w' !! 1%positive = Some p' /\
    Models.time_connected p' = Some 5%Z.
Proof.
  pose proof example_world_port as H.
  split; [exact H|].
  destruct (connection_time_kept _ _ _ "5.6.7.8" H)
    as (w' & p' & Hrun & Hp' & _ & _ & Hkept & _).
  exists w', p'. split; [exact Hrun|]. split; [exact Hp'|].
  exact (Hkept 5%Z eq_refl).
Defined.



(** X22.  The outcome of the check of a credential decides whether it is
    handed out.  Once [end_checking] has recorded it as not live,
    [get_ssh_for_port] returns it for no port, with [unique] set or not;
    once it has recorded it as live, the credential can be what
    [get_ssh_for_port] returns for every port that has not used it and
    does not have it. *)
Theorem check_outcome_decides_offer (w : Models.World) (s : Models.Id) :
  is_Some (Models.SSH_table w !! s) ->
  (exists w',
     ModelsSpec.mark_dead s w = Return (tt, w') /\
     forall port unique choice,
       ModelsSpec.value (Models.get_ssh_for_port port unique choice w')
       <> Return (Some s)) /\
  (exists w',
     ModelsSpec.mark_live s w = Return (tt, w') /\
     s ∈ ModelsSpec.live w' /\
     forall port,
       is_Some (Models.Port_table w !! port) ->
       s ∉ Models.history w port -> Models.holder w s <> Some port ->
       exists choice,
         ModelsSpec.value (Models.get_ssh_for_port port true choice w')
         = Return (Some s)).
Proof.
  intros [row Hrow]. split.
  - destruct (wp_total _ _ _
                (SSH_session_run s row _
                   (fun r => Models.with_ssh_base
                               (Models.with_is_checking false
                                  (Models.ssh_base (Models.with_is_live false r)))
                               (Models.with_is_live false r))
                   w _ Hrow
                   (fun w0 Q => SSH_end_checking_body s row
                                  [Models.kw_is_live false]
                                  (Models.with_is_live false) w Hrow
                                  (or_intror (ex_intro _ false (conj eq_refl eq_refl)))
                                  w0 Q _)))
      as ([] & w' & Hrun & row' & Hst & _ & _ & _ & _ & _ & Hl & _).
    exists w'. split; [done|].
    intros port unique choice Hv.
    apply get_ssh_for_port_Some in Hv as [(row'' & Hrow'' & Hlive) _].
    rewrite Hst, lookup_insert_eq in Hrow''. injection Hrow'' as <-.
    simpl in Hl. congruence.
  - destruct (wp_total _ _ _
                (SSH_session_run s row _
                   (fun r => Models.with_ssh_base
                               (Models.with_is_checking false
                                  (Models.ssh_base (Models.with_is_live true r)))
                               (Models.with_is_live true r))
                   w _ Hrow
                   (fun w0 Q => SSH_end_checking_body s row
                                  [Models.kw_is_live true]
                                  (Models.with_is_live true) w Hrow
                                  (or_intror (ex_intro _ true (conj eq_refl eq_refl)))
                                  w0 Q _)))
      as ([] & w' & Hrun & row' & Hst & Hpt & _ & _ & _ & _ & Hl & Hu).
    assert (Hlive : s ∈ ModelsSpec.live w').
    { apply elem_of_live. exists row'. split; [|done].
      rewrite Hst. apply lookup_insert_eq. }
    exists w'. split; [done|]. split; [done|].
    intros port Hport Hnot Hholder.
    apply get_ssh_for_port_any_eligible; [by rewrite Hpt|].
    unfold ModelsSpec.eligible. apply elem_of_difference. split; [done|].
    rewrite elem_of_history, Hu. intros Hin.
    destruct (Models.holder w s) as [q|].
    + apply elem_of_union in Hin as [Hin|Hin].
      * apply elem_of_singleton in Hin. injection Hin as ->. done.
      * by apply Hnot, elem_of_history.
    + by apply Hnot, elem_of_history.
Qed.

Lemma check_outcome_decides_offer_witness :
  is_Some (Models.SSH_table ModelsSpec.example_world !! 8%positive) /\
  exists w',
    ModelsSpec.mark_dead 8%positive ModelsSpec.example_world = Return (tt, w') /\
    forall port unique choice,
      ModelsSpec.value (Models.get_ssh_for_port port unique choice w')
      <> Return (Some 8%positive).
Proof.
  assert (H : is_Some (Models.SSH_table ModelsSpec.example_world !! 8%positive))
    by (vm_compute; eauto).
  split; [exact H|].
  exact (proj1 (check_outcome_decides_offer _ _ H)).
Defined.

(** ** Operations that stay on their port *)

Section locality.
Import Models ModelsSpec.
Implicit Types (E : exn -> Prop) (w : World) (self q : Id).

Lemma local_to_refl self w : local_to self w w.
Proof. by repeat split. Qed.

Lemma local_to_trans self w1 w2 w3 :
  local_to self w1 w2 -> local_to self w2 w3 -> local_to self w1 w3.
Proof.
  intros (Hp1 & Hs1 & Hh1) (Hp2 & Hs2 & Hh2). split; [|split].
  - intros q Hq. by rewrite Hp2, Hp1.
  - congruence.
  - intros q Hq. by rewrite Hh2, Hh1.
Qed.

Lemma inside_refl self w : inside self w w.
Proof. split; [apply local_to_refl | by left]. Qed.

Lemma inside_trans self w1 w2 w3 :
  inside self w1 w2 -> inside self w2 w3 -> inside self w1 w3.
Proof.
  intros [Hl1 Hd1] [Hl2 Hd2]. split; [by eapply local_to_trans|].
  intros e He. destruct (Hd2 e He) as [?|?]; [by apply Hd1 | by right].
Qed.

(** A change of the histories that touches the pairs of [self] only. *)
Lemma history_elsewhere self w w' q :
  (forall x : Id * Id, x.1 <> self -> x ∈ used w' <-> x ∈ used w) ->
  q <> self -> history w' q = history w q.
Proof.
  intros H Hq. apply set_eq. intros s. rewrite !elem_of_history.
  by apply H.
Qed.

Lemma inside_used self w (u : gset (Id * Id)) :
  (forall x : Id * Id, x.1 <> self -> x ∈ u <-> x ∈ used w) ->
  inside self w (with_used u w).
Proof.
  intros H. split; [split; [|split]|]; try done.
  - intros q Hq. by apply (history_elsewhere self).
  - intros e. by left.
Qed.

Lemma inside_write_Port self f : steps (inside self) (write_Port self f).
Proof.
  intros w. apply wp_write_Port; [|done]. intros p Hp.
  split; [split; [|split]|].
  - intros q Hq. rewrite marked_Port_table. simpl.
    by rewrite lookup_insert_ne.
  - by rewrite marked_SSH_table.
  - intros q Hq. apply history_used. by rewrite marked_used.
  - intros e. unfold marked. simpl. case_decide; simpl; [by left|].
    intros [? | ->%list_elem_of_singleton]%elem_of_app; [by left | by right].
Qed.

Lemma inside_Port_set_ssh_None self :
  steps (inside self) (Port_set_ssh self None).
Proof.
  intros w. unfold Port_set_ssh. apply wp_bind, wp_ret.
  apply wp_bind. eapply wp_mono; [apply inside_write_Port|].
  intros [] w1 H1. apply wp_ret. exact H1.
Qed.

Lemma inside_Port_setattr self kw :
  match kw with kw_ssh (Some _) => False | _ => True end ->
  steps (inside self) (Port_setattr self kw).
Proof.
  destruct kw as [| | | | |[s|]| | | |]; try done; intros _; simpl;
    unfold Port_set_base; try apply inside_write_Port.
  apply inside_Port_set_ssh_None.
Qed.

Lemma inside_Port_set self kwargs :
  existsb (fun kw => match kw with kw_ssh (Some _) => true | _ => false end)
          kwargs = false ->
  steps (inside self) (Port_set self kwargs).
Proof.
  unfold Port_set. induction kwargs as [|kw kwargs IH]; simpl; intros Hk.
  - apply (steps_ret _ (inside_refl self)).
  - apply orb_false_iff in Hk as [Hkw Hk].
    apply (steps_bind _ (inside_trans self)); [|intros _; by apply IH].
    apply inside_Port_setattr. by destruct kw as [| | | | |[s|]| | | |].
Qed.

Lemma inside_assign_ssh_body_None self :
  steps (inside self) (assign_ssh_body self None).
Proof.
  unfold assign_ssh_body.
  apply (steps_bind _ (inside_trans self)); [apply inside_Port_set_ssh_None|].
  intros _. apply inside_write_Port.
Qed.

(** The bodies of the operations on a port that assign no credential. *)
Lemma inside_body (m : mutation) self :
  target m = Some self -> assigns m = false ->
  exists objs body,
    run_mutation m = auto_renew_objects objs body /\ steps (inside self) body.
Proof.
  destruct m as [port [s|]|port|port kwargs|port flag|port| | |];
    try done; intros [= ->] Ha; simpl in *; eexists _, _; (split; [reflexivity|]).
  - apply inside_assign_ssh_body_None.
  - unfold Port_set_base. apply inside_write_Port.
  - apply (steps_bind _ (inside_trans self)); [by apply inside_Port_set|].
    intros _. unfold Port_set_base. apply inside_write_Port.
  - apply (steps_bind _ (inside_trans self));
      [|intros _; apply inside_assign_ssh_body_None].
    destruct flag; [|apply (steps_ret _ (inside_refl self))].
    apply (steps_bind _ (inside_trans self)).
    { intros w. apply wp_load_Port; [intros; apply inside_refl | done]. }
    intros p. unfold used_ssh_list_remove. destruct (ssh p) as [s|];
      [|intros w; by apply wp_raise].
    intros w. apply wp_modify_world, inside_used.
    intros [q s'] Hq. rewrite elem_of_difference, elem_of_singleton.
    split; [by intros [? _] | intros ?; split; [done|]].
    intros [= -> ->]. done.
  - unfold Port_set_base.
    apply (steps_bind _ (inside_trans self)); [apply inside_write_Port|]. intros _.
    apply (steps_bind _ (inside_trans self)); [apply inside_write_Port|]. intros _.
    apply (steps_bind _ (inside_trans self)); [apply inside_write_Port|]. intros _.
    apply (steps_bind _ (inside_trans self)); [apply inside_Port_set_ssh_None|].
    intros _.
    apply (steps_bind _ (inside_trans self)); [apply inside_write_Port|]. intros _.
    intros w. apply wp_modify_world, inside_used.
    intros [q s'] Hq. rewrite elem_of_filter. simpl in *.
    split; [by intros [_ ?] | by intros ?].
Qed.

(** The hook of the port changes the row and the history of the port
    only. *)
Lemma local_to_Port_before_update self :
  steps (local_to self) (Port_before_update self).
Proof.
  intros w. destruct (Port_table w !! self) as [p|] eqn:Hp.
  - eapply wp_Port_before_update; [exact Hp|].
    intros w' p' now Hpost. destruct Hpost. split; [|split].
    + intros q Hq. rewrite php_Port_table0. by apply lookup_insert_ne.
    + done.
    + intros q Hq. apply (history_elsewhere self); [|done].
      intros [q' s'] Hq'. rewrite php_used0. simpl in *.
      destruct (is_connected p); [destruct (ssh p)|]; try done.
      rewrite elem_of_union, elem_of_singleton.
      split; [intros [[= -> ->]|?]; done | by right].
  - unfold Port_before_update. apply wp_bind, wp_load_Port; [|done].
    intros p. congruence.
Qed.

Lemma local_to_hooks self l :
  (forall e, e ∈ l -> e = EPort self) ->
  steps (local_to self) (for_each before_update l).
Proof.
  induction l as [|e l IH]; intros Hl; simpl.
  - apply (steps_ret _ (local_to_refl self)).
  - apply (steps_bind _ (local_to_trans self)).
    + rewrite (Hl e) by left. apply local_to_Port_before_update.
    + intros _. apply IH. intros e' He'. apply Hl. by right.
Qed.

(** A method whose body stays on the port stays on the port. *)
Lemma local_to_auto_renew_objects {A} self objs (body : M A) :
  steps (inside self) body ->
  steps (local_to self) (auto_renew_objects objs body).
Proof.
  intros Hbody w. unfold auto_renew_objects.
  apply wp_bind, wp_modify_world. apply wp_bind, wp_renew_all.
  apply wp_bind. eapply wp_mono; [apply Hbody|].
  intros a w1 [Hl1 Hd1]. simpl in Hd1. apply wp_bind.
  unfold commit. apply wp_bind, wp_get_world. apply wp_bind, wp_modify_world.
  apply wp_bind. eapply wp_mono.
  { apply (local_to_hooks self). intros e He.
    destruct (Hd1 e He) as [?%elem_of_nil|?]; done. }
  intros [] w2 Hl2. apply wp_modify_world, wp_ret.
  assert (H0 : local_to self w (with_dirty [] w)) by by repeat split.
  assert (H1 : local_to self w1 (with_dirty [] w1)) by by repeat split.
  assert (H2 : local_to self w2 (with_dirty [] w2)) by by repeat split.
  eapply local_to_trans; [exact H0|].
  eapply local_to_trans; [exact Hl1|].
  eapply local_to_trans; [exact H1|].
  eapply local_to_trans; [exact Hl2|exact H2].
Qed.
End locality.


